(** * Music Search Bot: the resolution engine of [src/music_search_bot.py]

    A shallow embedding of the query normaliser, the variant generator, the
    three source adapters, the retry/backoff controller, the track resolver
    and the run orchestrator, with the properties the specification states
    about them and further properties that the code shows; of [src/app.py]
    the file name check.

    Conventions of the embedding.
    - A Python [str] is a list of Unicode code points ([str := list N]).
    - [None] is [None]; an argument that may be [None] or a string has
      type [option str].
    - A raised exception is a value of [exn]; only subclasses of Python's
      [Exception] are modelled.
    - The Unicode database and the [re] module's character tables are a
      parameter ([Unicode]); [ascii_tables] gives them on code points
      below 128, where they are known in closed form.
    - String literals of the source are ASCII; [lit] turns one into code
      points.
    - In the engine, delays and sleep lengths are exact rationals ([Q]):
      the rounding and the overflow of binary64 are left out there, which
      is enough for what the resolver and the orchestrator return.  The
      retry/backoff controller is taken a second time with its pauses
      in IEEE binary64 ([Binary64]), for the statement about the lengths
      of its sleeps.  Relevance scores, which the source computes from
      literals only, are binary64 too ([PrimFloat]), as in CPython.
    - The effects the statements speak of (sleeps, calls of a search
      function, progress reports) are recorded in a trace. *)

From Stdlib Require Import ZArith NArith QArith Lia Lqa List Bool String Ascii.
From Stdlib Require Import Floats.
From stdpp Require Import base option list gmap.
Import ListNotations.

Set Default Proof Using "Type".
Local Open Scope nat_scope.

(* ------------------------------------------------------------------ *)
(** ** Python values *)

Module Py.

Definition str := list N.

(** A string literal of the source, as code points. *)
Definition lit (s : string) : str := map N_of_ascii (list_ascii_of_string s).

(** [bool(s)] for a string: the empty string is falsy. *)
Definition truthy (s : str) : bool :=
  match s with [] => false | _ :: _ => true end.

(** [bool(x)] for [x : Optional[str]]. *)
Definition otruthy (x : option str) : bool :=
  match x with Some s => truthy s | None => false end.

(** [s.startswith(p)] *)
Fixpoint startswith (p s : str) : bool :=
  match p, s with
  | [], _ => true
  | _ :: _, [] => false
  | a :: p', b :: s' => N.eqb a b && startswith p' s'
  end.

(** [needle in haystack] on strings. *)
Fixpoint contains (needle haystack : str) : bool :=
  startswith needle haystack ||
  match haystack with
  | [] => false
  | _ :: rest => contains needle rest
  end.

(** An HTTP response of [requests]: the status line, [headers.get] and the
    body.  [requests.Response.__bool__] returns [self.ok], which is false
    exactly when [raise_for_status] would raise, i.e. for 4xx and 5xx. *)
Record Response := {
  status_code : Z;
  headers_get : str -> option str;
  text : str
}.

Definition Response_ok (r : Response) : bool :=
  negb ((400 <=? status_code r)%Z && (status_code r <? 600)%Z).

Definition Response_bool (r : Response) : bool := Response_ok r.

(** Exceptions (all below [Exception]).  [HTTPError] carries its
    [response] attribute, which may be [None]; [PlainException] is an
    instance of [Exception] itself. *)
Inductive exn :=
| AttributeError
| ValueError
| OverflowError
| HTTPError (response : option Response)
| ConnectionError
| PlainException.

Inductive res (A : Type) :=
| Ok (a : A)
| Raise (e : exn).
Arguments Ok {A} a.
Arguments Raise {A} e.

Definition res_bind {A B} (f : A -> res B) (m : res A) : res B :=
  match m with Ok a => f a | Raise e => Raise e end.

#[export] Instance res_ret : MRet res := @Ok.
#[export] Instance res_mbind : MBind res := @res_bind.

End Py.
Import Py.

(* ------------------------------------------------------------------ *)
(** ** The Unicode tables the source reaches through [unicodedata], [str]
    methods and [re] *)

Class Unicode := {
  (** [unicodedata.normalize('NFD', s)] *)
  NFD : str -> str;
  (** [unicodedata.category(c) == 'Mn'] *)
  category_Mn : N -> bool;
  (** [s.lower()] *)
  lower : str -> str;
  (** [c.isspace()]: the characters [strip()] removes and [\s] matches *)
  isspace : N -> bool;
  (** [\w] of [re] on [str] patterns, which decides [\b] *)
  isword : N -> bool;
  (** under [re.IGNORECASE]: pattern character [p] matches subject [c] *)
  imatch : N -> N -> bool;
  (** [int(s)]; [None] where it raises [ValueError] *)
  int_of : str -> option Z
}.

(** Leading characters of a class removed; [strip] is built from it. *)
Fixpoint lstrip_by (space : N -> bool) (s : str) : str :=
  match s with
  | c :: s' => if space c then lstrip_by space s' else s
  | [] => []
  end.

(** The tables on ASCII text. *)
Module Ascii_tables.

Definition between (lo hi c : N) : bool := (lo <=? c)%N && (c <=? hi)%N.

Definition is_upper (c : N) : bool := between 65 90 c.
Definition is_lower (c : N) : bool := between 97 122 c.
Definition is_digit (c : N) : bool := between 48 57 c.

Definition lower_char (c : N) : N := if is_upper c then (c + 32)%N else c.

Definition isspace (c : N) : bool := between 9 13 c || between 28 32 c.

Definition isword (c : N) : bool :=
  is_upper c || is_lower c || is_digit c || N.eqb c 95.

Definition imatch (p c : N) : bool := N.eqb (lower_char p) (lower_char c).

(** Decimal digits, single underscores allowed between them. *)
Fixpoint digits (acc : Z) (after_digit : bool) (s : str) : option Z :=
  match s with
  | [] => if after_digit then Some acc else None
  | c :: s' =>
      if is_digit c then digits (acc * 10 + (Z.of_N c - 48))%Z true s'
      else if N.eqb c 95 && after_digit then digits acc false s'
      else None
  end.

Definition int_of (s : str) : option Z :=
  let s := rev (lstrip_by isspace (rev (lstrip_by isspace s))) in
  match s with
  | 43%N :: s' => digits 0 false s'
  | 45%N :: s' => option_map Z.opp (digits 0 false s')
  | _ => digits 0 false s
  end.

End Ascii_tables.

Definition ascii_tables : Unicode := {|
  NFD := fun s => s;
  category_Mn := fun _ => false;
  lower := map Ascii_tables.lower_char;
  isspace := Ascii_tables.isspace;
  isword := Ascii_tables.isword;
  imatch := Ascii_tables.imatch;
  int_of := Ascii_tables.int_of
|}.

(* ------------------------------------------------------------------ *)
(** ** Query normaliser and variant generator *)

Section Text.
Context {U : Unicode}.

Definition lstrip (s : str) : str := lstrip_by isspace s.

Definition rstrip (s : str) : str := rev (lstrip (rev s)).

(** [s.strip()] *)
Definition strip (s : str) : str := rstrip (lstrip s).

(** [x.strip()] where [x] may be [None]: [None] has no attribute
    [strip]. *)
Definition attr_strip (x : option str) : res str :=
  match x with
  | Some s => Ok (strip s)
  | None => Raise AttributeError
  end.

Definition normalize_text (text : option str) : str :=
  match text with
  | None | Some [] => lit ""
  | Some text =>
      let text := NFD text in
      let text := List.filter (fun char => negb (category_Mn char)) text in
      strip (lower text)
  end.

(** [re.sub(r'\([^)]*\)', '', s)] and its square-bracket twin: an opening
    delimiter starts a match exactly when a closing one follows somewhere,
    and the match runs to the first closing one.  [inside] is true while
    a match is being consumed. *)
Fixpoint sub_delimited (o c : N) (inside : bool) (s : str) : str :=
  match s with
  | [] => []
  | x :: s' =>
      if inside then
        if N.eqb x c then sub_delimited o c false s'
        else sub_delimited o c true s'
      else if N.eqb x o && existsb (N.eqb c) s' then sub_delimited o c true s'
      else x :: sub_delimited o c false s'
  end.

Definition isword_at (x : option N) : bool :=
  match x with Some c => isword c | None => false end.

(** [\b] between two neighbouring positions. *)
Definition boundary (before after : option N) : bool :=
  xorb (isword_at before) (isword_at after).

(** The term, case-insensitively, at the head of [s], followed by [\b].
    [prev] is the subject character matched last. *)
Fixpoint term_here (term : str) (prev : option N) (s : str) : bool :=
  match term with
  | [] => boundary prev (head s)
  | p :: term' =>
      match s with
      | [] => false
      | x :: s' => imatch p x && term_here term' (Some x) s'
      end
  end.

(** [re.sub(r'\b' + re.escape(term) + r'\b.*', '', s, flags=re.IGNORECASE)]:
    every match runs to the end of its line ([.] does not match a
    newline).  [skipping] is true while the [.*] of a match is being
    consumed; [prev] is the character before the head of [s]. *)
Fixpoint sub_term (term : str) (skipping : bool) (prev : option N) (s : str)
  : str :=
  match s with
  | [] => []
  | x :: s' =>
      if skipping then
        if N.eqb x 10 then x :: sub_term term false (Some x) s'
        else sub_term term true (Some x) s'
      else if boundary prev (Some x) && term_here term None s
      then sub_term term true (Some x) s'
      else x :: sub_term term false (Some x) s'
  end.

(** [re.sub(r'\s+', ' ', s)] *)
Fixpoint collapse_spaces (in_run : bool) (s : str) : str :=
  match s with
  | [] => []
  | x :: s' =>
      if isspace x then
        if in_run then collapse_spaces true s'
        else 32%N :: collapse_spaces true s'
      else x :: collapse_spaces false s'
  end.

Definition remove_terms : list str :=
  map lit ["feat"; "featuring"; "ft"; "remix"; "edit"; "mix"; "version";
           "remaster"; "remastered"; "radio edit"; "extended"; "club mix";
           "acoustic"; "live"; "demo"; "instrumental"; "karaoke"]%string.

Definition clean_query (track_name artist_name : option str) : str :=
  match track_name, artist_name with
  | Some track_name, Some artist_name =>
      if negb (truthy track_name) || negb (truthy artist_name) then lit ""
      else
        let clean_track := strip track_name in
        let clean_track := sub_delimited 40 41 false clean_track in
        let clean_track := sub_delimited 91 93 false clean_track in
        let clean_track :=
          fold_left (fun acc term => sub_term term false None acc)
                    remove_terms clean_track in
        let clean_artist := strip artist_name in
        let clean_artist := sub_delimited 40 41 false clean_artist in
        let clean_artist := sub_delimited 91 93 false clean_artist in
        let clean_track := strip (collapse_spaces false clean_track) in
        let clean_artist := strip (collapse_spaces false clean_artist) in
        let clean_track := normalize_text (Some clean_track) in
        let clean_artist := normalize_text (Some clean_artist) in
        strip (clean_track ++ lit " " ++ clean_artist)
  | _, _ => lit ""
  end.

(** The deduplication loop of [generate_search_variants]. *)
Fixpoint unique_loop (variants : list str) (seen : gset str)
         (unique_variants : list str) : list str :=
  match variants with
  | [] => unique_variants
  | variant :: rest =>
      if truthy variant && negb (bool_decide (variant ∈ seen))
      then unique_loop rest ({[variant]} ∪ seen) (unique_variants ++ [variant])
      else unique_loop rest seen unique_variants
  end.

Definition generate_search_variants (track_name artist_name : option str)
  : res (list str) :=
  let variants := [] in
  let main_query := clean_query track_name artist_name in
  let variants :=
    if truthy main_query then variants ++ [main_query] else variants in
  t ← attr_strip track_name;
  let clean_track := normalize_text (Some t) in
  a ← attr_strip artist_name;
  let clean_artist := normalize_text (Some a) in
  let variants :=
    if truthy clean_artist && truthy clean_track
    then variants ++ [clean_artist ++ lit " " ++ clean_track]
    else variants in
  let variants :=
    if truthy clean_track && (3 <? length clean_track)
    then variants ++ [clean_track]
    else variants in
  let unique_variants := unique_loop variants ∅ [] in
  mret (take 3 unique_variants).

(** [is_valid_youtube_url]: [re.match] anchors at the start only, and
    [.] matches any character but a newline. *)
Definition watch_prefix : str := lit "https://www.youtube.com/watch?v=".

Fixpoint dots (n : nat) (s : str) : bool :=
  match n with
  | O => true
  | S n' =>
      match s with
      | [] => false
      | x :: s' => negb (N.eqb x 10) && dots n' s'
      end
  end.

Definition is_valid_youtube_url (url : option str) : bool :=
  match url with
  | None | Some [] => false
  | Some url =>
      startswith watch_prefix url && dots 11 (drop (length watch_prefix) url)
  end.

End Text.

(* ------------------------------------------------------------------ *)
(** ** Effects: state threaded by hand, exceptions as results

    [SE S A] is a computation over a store [S] that returns an [A] or
    raises; what it did to the store before raising stays done, as in
    Python. *)

Module SE.

Definition SE (S A : Type) : Type := S -> res A * S.

Section Ops.
Context {S : Type}.

Definition ret {A} (a : A) : SE S A := fun s => (Ok a, s).

Definition bind {A B} (f : A -> SE S B) (m : SE S A) : SE S B :=
  fun s =>
    match m s with
    | (Ok a, s') => f a s'
    | (Raise e, s') => (Raise e, s')
    end.

Definition throw {A} (e : exn) : SE S A := fun s => (Raise e, s).

(** [try: body / except Exception as e: handler e] *)
Definition try_except {A} (body : SE S A) (handler : exn -> SE S A)
  : SE S A :=
  fun s =>
    match body s with
    | (Ok a, s') => (Ok a, s')
    | (Raise e, s') => handler e s'
    end.

Definition lift {A} (r : res A) : SE S A := fun s => (r, s).

Definition get : SE S S := fun s => (Ok s, s).

Definition modify (f : S -> S) : SE S unit := fun s => (Ok tt, f s).

End Ops.

#[export] Instance SE_ret {S} : MRet (SE S) := @ret S.
#[export] Instance SE_bind {S} : MBind (SE S) := @bind S.
#[export] Instance SE_throw {S} : MThrow exn (SE S) := @throw S.

End SE.
Import SE.

(* ------------------------------------------------------------------ *)
(** ** Numbers of the pacing code *)

Definition Qltb (x y : Q) : bool := negb (Qle_bool y x).

(** Python's [min(a, b)]: [a] unless [b < a]. *)
Definition py_min (a b : Q) : Q := if Qltb b a then b else a.

(** Python's [max(a, b)] on floats: [a] unless [b > a]. *)
Definition py_fmax (a b : float) : float :=
  if PrimFloat.ltb a b then b else a.

(* ------------------------------------------------------------------ *)
(** ** Primary catalog search: [YouTubeMusicSearcher] *)

Module YouTubeMusicSearcher.

(** What [result.get(key)] can find in a provider entry: nothing, [None],
    or a string. *)
Inductive field :=
| Absent
| IsNone
| IsStr (s : str).

(** The four keys of an entry that the source reads. *)
Record entry := {
  videoId : field;
  title : field;
  resultType : field;
  category : field
}.

(** [bool(result.get(key))] *)
Definition field_truthy (f : field) : bool :=
  match f with IsStr s => truthy s | _ => false end.

Section Searcher.
Context {U : Unicode} {W : Type}.

(** [self.ytmusic.search(query, filter=..., limit=...)]; [filter] is
    [None] for the unfiltered call. *)
Context (ytmusic_search : str -> option str -> Z -> SE W (list entry)).

(** [result.get(key, '').lower()] *)
Definition get_lower (f : field) : res str :=
  match f with
  | Absent => Ok (lower (lit ""))
  | IsNone => Raise AttributeError
  | IsStr s => Ok (lower s)
  end.

(** [x in [a, b, ...]] on strings *)
Definition among (x : str) (l : list str) : bool :=
  existsb (fun y => bool_decide (x = y)) l.

Definition avoid_terms : list str :=
  map lit ["playlist"; "album"; "artist"; "interview"; "documentary"]%string.

Definition avoid_in_title : list str :=
  map lit ["interview"; "documentary"; "behind the scenes"; "making of"]%string.

(** An entry without a truthy [videoId] is refused first; this covers
    the empty dictionary of [not result]. *)
Definition _is_valid_music_result (result : entry) : res bool :=
  if negb (field_truthy (videoId result)) then mret false
  else
    title ← get_lower (title result);
    result_type ← get_lower (resultType result);
    category ← get_lower (category result);
    if among result_type (map lit ["song"; "video"]%string)
       || among category (map lit ["songs"; "music"]%string)
    then mret true
    else if existsb (fun term => contains term result_type) avoid_terms
    then mret false
    else if existsb (fun term => contains term title) avoid_in_title
    then mret false
    else mret true.

(** One [for result in results:] loop of [search]; [Some url] is the
    [return] inside it, [None] is the loop running out. *)
Fixpoint first_accepted (results : list entry) : res (option str) :=
  match results with
  | [] => mret None
  | result :: rest =>
      valid ← _is_valid_music_result result;
      if (valid : bool) then
        match videoId result with
        | IsStr video_id =>
            if truthy video_id
            then mret (Some (watch_prefix ++ video_id))
            else first_accepted rest
        | _ => first_accepted rest
        end
      else first_accepted rest
  end.

(** [available] is [self.ytmusic is not None]. *)
Definition search (available : bool) (query : str) (max_results : Z)
  : SE W (option str) :=
  if negb available || negb (truthy query) then mret None
  else
    try_except
      (results ← ytmusic_search query (Some (lit "songs")) max_results;
       hit ← lift (first_accepted results);
       match hit with
       | Some url => mret (Some url)
       | None =>
           results ← ytmusic_search query None max_results;
           lift (first_accepted results)
       end)
      (fun _ => mret None).

(** The acceptance rule as the specification words it: the type or the
    category says song or video, the type names none of the avoided
    kinds, and the title holds none of the avoided phrases. *)
Definition accepted_as_specified (result : entry) : res bool :=
  title ← get_lower (title result);
  result_type ← get_lower (resultType result);
  category ← get_lower (category result);
  mret ((among result_type (map lit ["song"; "video"]%string)
         || among category (map lit ["songs"; "music"]%string))
        && negb (existsb (fun term => contains term result_type) avoid_terms)
        && negb (existsb (fun term => contains term title) avoid_in_title)).

End Searcher.

End YouTubeMusicSearcher.

(* ------------------------------------------------------------------ *)
(** ** Web result scraper: [YouTubeScraper] *)

Module YouTubeScraper.

(** A document as [json.loads] returns it.  A [JObject] lists the
    members of a Python dict in insertion order, keys distinct. *)
Unset Elimination Schemes.
Inductive json :=
| JNull
| JBool (b : bool)
| JNumber (q : Q)
| JString (s : str)
| JArray (items : list json)
| JObject (members : list (str * json)).
Set Elimination Schemes.

(** [bool(x)] on a parsed document. *)
Definition json_truthy (x : json) : bool :=
  match x with
  | JNull => false
  | JBool b => b
  | JNumber q => negb (Qeq_bool q 0)
  | JString s => truthy s
  | JArray items => match items with [] => false | _ => true end
  | JObject members => match members with [] => false | _ => true end
  end.

(** [data[key]] when [key in data] *)
Fixpoint dict_get (key : str) (members : list (str * json)) : option json :=
  match members with
  | [] => None
  | (k, v) :: rest => if bool_decide (k = key) then Some v else dict_get key rest
  end.

(** The class [[a-zA-Z0-9_-]] *)
Definition id_char (c : N) : bool :=
  Ascii_tables.is_lower c || Ascii_tables.is_upper c
  || Ascii_tables.is_digit c || N.eqb c 95 || N.eqb c 45.

(** [re.match(r'^[a-zA-Z0-9_-]+$', s)]: one or more class characters up
    to the end, where [$] also stands just before a newline that ends
    the string.  [some] records that one character has been matched. *)
Fixpoint id_pattern (some : bool) (s : str) : bool :=
  match s with
  | [] => some
  | c :: s' =>
      if N.eqb c 10 && negb (truthy s') then some
      else id_char c && id_pattern true s'
  end.

Definition _is_valid_video_id (video_id : json) : bool :=
  match video_id with
  | JString s =>
      if negb (truthy s) then false
      else (length s =? 11) && id_pattern false s
  | _ => false
  end.

(** The first truthy result of [f] along a list: the shape of both
    [for ... : result = ...; if result: return result] loops. *)
Fixpoint first_result {A} (f : A -> option str) (l : list A) : option str :=
  match l with
  | [] => None
  | x :: rest =>
      match f x with
      | Some r => if truthy r then Some r else first_result f rest
      | None => first_result f rest
      end
  end.

Fixpoint _recursive_search_video_id (max_depth : nat) (data : json)
  : option str :=
  match max_depth with
  | O => None
  | S depth =>
      match data with
      | JObject members =>
          let here :=
            match dict_get (lit "videoId") members with
            | Some (JString video_id) =>
                if _is_valid_video_id (JString video_id)
                then Some video_id else None
            | _ => None
            end in
          match here with
          | Some video_id => Some video_id
          | None =>
              first_result
                (fun kv => _recursive_search_video_id depth (snd kv)) members
          end
      | JArray items =>
          first_result (_recursive_search_video_id depth) items
      | _ => None
      end
  end.

Definition _find_first_video_id (yt_data : json) : option str :=
  _recursive_search_video_id 10 yt_data.

(** [p] removed from the front of [s], when it is there. *)
Fixpoint after_prefix (p s : str) : option str :=
  match p, s with
  | [], _ => Some s
  | _ :: _, [] => None
  | a :: p', b :: s' => if N.eqb a b then after_prefix p' s' else None
  end.

(** The lazy [.*?] followed by the closing brace and semicolon: the
    shortest run of non-newline characters before them. *)
Fixpoint lazy_body (s : str) : option str :=
  match s with
  | [] => None
  | c :: s' =>
      if startswith (lit "};") s then Some []
      else if N.eqb c 10 then None
      else option_map (cons c) (lazy_body s')
  end.

(** [re.search(lhs + r'({.*?});', html).group(1)] for a literal [lhs]. *)
Fixpoint search_assignment (lhs : str) (html : str) : option str :=
  let here :=
    match after_prefix (lhs ++ lit "{") html with
    | Some rest =>
        option_map (fun body => lit "{" ++ body ++ lit "}") (lazy_body rest)
    | None => None
    end in
  match here with
  | Some group => Some group
  | None =>
      match html with
      | [] => None
      | _ :: html' => search_assignment lhs html'
      end
  end.

Definition quote : str := [34%N].

Section Scraper.
Context {W : Type}.

(** [urllib.parse.quote_plus], [json.loads], [session.get(url,
    timeout=...)] and [time.sleep] on the world. *)
Context (quote_plus : str -> str)
        (json_loads : str -> res json)
        (session_get : str -> Z -> SE W Response)
        (time_sleep : Q -> SE W unit).

Definition _extract_yt_initial_data (html : str) : option json :=
  let found :=
    match search_assignment (lit "var ytInitialData = ") html with
    | Some group => Some group
    | None =>
        search_assignment
          (lit "window[" ++ quote ++ lit "ytInitialData" ++ quote ++ lit "] = ")
          html
    end in
  match found with
  | Some json_str =>
      match json_loads json_str with
      | Ok data => Some data
      | Raise _ => None
      end
  | None => None
  end.

Definition raise_for_status (response : Response) : SE W unit :=
  if Response_ok response then mret tt
  else mthrow (HTTPError (Some response)).

Definition _search_attempt (timeout : Z) (query : str) : SE W (option str) :=
  let encoded_query := quote_plus query in
  let search_url :=
    lit "https://www.youtube.com/results?search_query="
    ++ encoded_query ++ lit "&hl=en&gl=US" in
  response ← session_get search_url timeout;
  raise_for_status response;;
  match _extract_yt_initial_data (text response) with
  | None => mret None
  | Some yt_initial_data =>
      if negb (json_truthy yt_initial_data) then mret None
      else
        match _find_first_video_id yt_initial_data with
        | Some video_id =>
            if truthy video_id then mret (Some (watch_prefix ++ video_id))
            else mret None
        | None => mret None
        end
  end.

(** The [for attempt in range(max_retries)] loop of [search];
    [remaining] counts the iterations still to run. *)
Fixpoint search_loop (timeout : Z) (query : str) (max_retries : Z)
         (attempt : Z) (remaining : nat) : SE W (option str) :=
  match remaining with
  | O => mret None
  | S remaining' =>
      r ← try_except
            (url ← _search_attempt timeout query;
             if otruthy url then mret url
             else
               (if (attempt <? max_retries - 1)%Z
                then time_sleep (1 * inject_Z (attempt + 1))
                else mret tt);;
               mret None)
            (fun _ =>
               (if (attempt <? max_retries - 1)%Z
                then time_sleep (2 * inject_Z (attempt + 1))
                else mret tt);;
               mret None);
      match r with
      | Some url => mret (Some url)
      | None => search_loop timeout query max_retries (attempt + 1)%Z remaining'
      end
  end.

Definition search (timeout : Z) (query : str) (max_retries : Z)
  : SE W (option str) :=
  if negb (truthy query) then mret None
  else search_loop timeout query max_retries 0 (Z.to_nat max_retries).

End Scraper.

End YouTubeScraper.

(* ------------------------------------------------------------------ *)
(** ** Secondary file-host scraper: relevance scoring and selection *)

Set Warnings "-inexact-float".

Module FourSharedScraper.

(** The [link_data] dictionaries of [_find_audio_links]. *)
Record link := {
  url : str;
  title : str;
  relevance : float
}.

Section Relevance.
Context {U : Unicode}.

Definition audio_extensions : list str :=
  map lit [".mp3"; ".m4a"; ".wav"; ".flac"; ".aac"]%string.

Definition avoid_terms : list str :=
  map lit ["remix"; "karaoke"; "instrumental"; "cover"; "live"]%string.

Definition _calculate_relevance (title : str)
           (track_name artist_name : option str) : float :=
  if negb (truthy title) then 0.0%float
  else
    let title_normalized := normalize_text (Some title) in
    let track_normalized :=
      if otruthy track_name then normalize_text track_name else lit "" in
    let artist_normalized :=
      if otruthy artist_name then normalize_text artist_name else lit "" in
    let relevance := 0.0%float in
    let relevance :=
      if truthy track_normalized
         && contains track_normalized title_normalized
      then (relevance + 0.5)%float else relevance in
    let relevance :=
      if truthy artist_normalized
         && contains artist_normalized title_normalized
      then (relevance + 0.3)%float else relevance in
    let relevance :=
      if existsb (fun ext => contains ext title_normalized) audio_extensions
      then (relevance + 0.2)%float else relevance in
    let relevance :=
      fold_left
        (fun (relevance : float) (term : str) =>
           if contains term title_normalized
           then (relevance - 0.1)%float else relevance)
        avoid_terms relevance in
    py_fmax 0.0%float relevance.

(** The dictionary built for a hyperlink [href] with text [text]. *)
Definition link_data (href text : str) (track_name artist_name : option str)
  : link :=
  {| url := href;
     title := text;
     relevance := _calculate_relevance text track_name artist_name |}.

End Relevance.

(** [sorted(links, key=relevance, reverse=True)]: a stable sort, so
    equal keys keep their encounter order. *)
Fixpoint insert_desc (x : link) (sorted : list link) : list link :=
  match sorted with
  | [] => [x]
  | y :: rest =>
      if PrimFloat.ltb (relevance x) (relevance y)
      then y :: insert_desc x rest
      else x :: y :: rest
  end.

Definition sorted_desc (links : list link) : list link :=
  fold_right insert_desc [] links.

Definition _select_best_link (links : list link)
           (track_name artist_name : option str) : option str :=
  match links with
  | [] => None
  | _ :: _ => option_map url (head (sorted_desc links))
  end.

Section AsSpecified.
Context {U : Unicode}.

(** How many times [needle] starts in [haystack]. *)
Fixpoint occurrences (needle haystack : str) : nat :=
  (if startswith needle haystack then 1 else 0) +
  match haystack with
  | [] => 0
  | _ :: rest => occurrences needle rest
  end.

(** The score as the specification words it: the track and artist
    bonuses on the substring test alone, and one tenth off for every
    occurrence of a demotion term. *)
Definition relevance_as_specified (title : str)
           (track_name artist_name : option str) : float :=
  let title_normalized := normalize_text (Some title) in
  let track_normalized := normalize_text track_name in
  let artist_normalized := normalize_text artist_name in
  let bonus (b : bool) (x : float) : float := if b then x else 0.0%float in
  let relevance :=
    (bonus (contains track_normalized title_normalized) 0.5
     + bonus (contains artist_normalized title_normalized) 0.3
     + bonus (existsb (fun ext => contains ext title_normalized)
                      audio_extensions) 0.2)%float in
  let relevance :=
    fold_left
      (fun (relevance : float) (term : str) =>
         Nat.iter (occurrences term title_normalized)
                  (fun r => (r - 0.1)%float) relevance)
      avoid_terms relevance in
  py_fmax 0.0%float relevance.

End AsSpecified.

(** *** Links of a results page

    A hyperlink as the source reads it: [link.get('href', '')] and
    [link.get_text(strip=True)]. *)
Record anchor := {
  href : str;
  get_text : str
}.

Definition base_url : str := lit "https://www.4shared.com".

Definition _normalize_4shared_url (url : str) : str :=
  if negb (truthy url) then lit ""
  else if startswith (lit "http") url then url
  else if startswith (lit "//") url then lit "https:" ++ url
  else if startswith (lit "/") url then base_url ++ url
  else url.

(** The selector [a[href*="..."]]. *)
Definition href_has (part : string) : str :=
  lit "a[href*=" ++ [34%N] ++ lit part ++ [34%N] ++ lit "]".

Definition selectors : list str :=
  map lit ["div.searchItemContainer"; "div.searchItem"; "div.item";
           ".search-item"; ".file-item"; "tr.searchItem"]%string.

Definition link_selectors : list str :=
  map href_has ["/file/"; "/audio/"; "/get/"; "/download/"]%string
  ++ map lit ["a.fileName"; "a.fileLink"]%string.

Definition audio_patterns : list str :=
  map lit ["/file/"; "/audio/"; "/get/"; "/download/";
           ".mp3"; ".m4a"; ".wav"; ".flac"]%string.

(** The [audio_extensions] of [_looks_like_audio_link], one longer than
    those of [_calculate_relevance]. *)
Definition link_extensions : list str :=
  map lit [".mp3"; ".m4a"; ".wav"; ".flac"; ".aac"; ".ogg"]%string.

Definition avoid_patterns : list str :=
  map lit ["/folder/"; "/album/"; "/playlist/"; "javascript:"; "mailto:";
           "#"]%string.

Section Page.
Context {U : Unicode}.

Definition _looks_like_audio_link (href text : str) : bool :=
  if negb (truthy href) then false
  else if existsb (fun pattern => contains pattern (lower href)) audio_patterns
  then true
  else if existsb (fun ext => contains ext (lower text)) link_extensions
  then true
  else if existsb (fun pattern => contains pattern (lower href)) avoid_patterns
  then false
  else 3 <? length (strip text).

(** The parsed page, as far as the source looks at it: [soup.select],
    [item.select_one], and [find_all('a', href=True)] on an item and on
    the whole page.  A tag is truthy, a result set is truthy when it is
    not empty. *)
Context {Soup Item : Type}
        (select : Soup -> str -> list Item)
        (select_one : Item -> str -> option anchor)
        (item_find_all : Item -> list anchor)
        (soup_find_all : Soup -> list anchor).

(** The [for selector in link_selectors:] loop of
    [_extract_link_from_item]; [Some] is the [return] inside it. *)
Fixpoint first_selected (item : Item) (track_name artist_name : option str)
         (link_selectors : list str) : option link :=
  match link_selectors with
  | [] => None
  | selector :: rest =>
      match select_one item selector with
      | Some link =>
          let href := href link in
          let title := get_text link in
          if truthy href && _looks_like_audio_link href title
          then Some (link_data href title track_name artist_name)
          else first_selected item track_name artist_name rest
      | None => first_selected item track_name artist_name rest
      end
  end.

(** Its [for link in all_links:] loop. *)
Fixpoint first_audio_link (track_name artist_name : option str)
         (all_links : list anchor) : option link :=
  match all_links with
  | [] => None
  | link :: rest =>
      let href := href link in
      let title := get_text link in
      if _looks_like_audio_link href title
      then Some (link_data href title track_name artist_name)
      else first_audio_link track_name artist_name rest
  end.

Definition _extract_link_from_item (item : Item)
           (track_name artist_name : option str) : option link :=
  match first_selected item track_name artist_name link_selectors with
  | Some link_data => Some link_data
  | None => first_audio_link track_name artist_name (item_find_all item)
  end.

(** The [for selector in selectors:] loop of [_find_audio_links]: the
    first selector that matches anything decides, by its [break]. *)
Fixpoint links_of_items (soup : Soup) (track_name artist_name : option str)
         (selectors : list str) : list link :=
  match selectors with
  | [] => []
  | selector :: rest =>
      match select soup selector with
      | [] => links_of_items soup track_name artist_name rest
      | items =>
          omap (fun item => _extract_link_from_item item track_name artist_name)
               items
      end
  end.

Definition _find_audio_links (soup : Soup)
           (track_name artist_name : option str) : list link :=
  match links_of_items soup track_name artist_name selectors with
  | [] =>
      map (fun link => link_data (href link) (get_text link)
                                  track_name artist_name)
          (List.filter (fun link =>
                          _looks_like_audio_link (href link) (get_text link))
                       (soup_find_all soup))
  | audio_links => audio_links
  end.

(** [urllib.parse.quote_plus], [session.get(url, timeout=...)],
    [BeautifulSoup(response.content, 'html.parser')] and [time.sleep]. *)
Context {W : Type}
        (quote_plus : str -> str)
        (session_get : str -> Z -> SE W Response)
        (BeautifulSoup : Response -> Soup)
        (time_sleep : Q -> SE W unit).

Definition _search_attempt (timeout : Z) (query : str)
           (track_name artist_name : option str) : SE W (option str) :=
  let encoded_query := quote_plus query in
  let search_url := base_url ++ lit "/web/q?query=" ++ encoded_query in
  response ← session_get search_url timeout;
  YouTubeScraper.raise_for_status response;;
  let soup := BeautifulSoup response in
  let audio_links := _find_audio_links soup track_name artist_name in
  match audio_links with
  | [] => mret None
  | _ :: _ =>
      match _select_best_link audio_links track_name artist_name with
      | Some best_link =>
          if truthy best_link
          then mret (Some (_normalize_4shared_url best_link))
          else mret None
      | None => mret None
      end
  end.

(** The [for attempt in range(max_retries)] loop of [search]. *)
Fixpoint search_loop (timeout : Z) (query : str)
         (track_name artist_name : option str) (max_retries : Z)
         (attempt : Z) (remaining : nat) : SE W (option str) :=
  match remaining with
  | O => mret None
  | S remaining' =>
      r ← try_except
            (url ← _search_attempt timeout query track_name artist_name;
             if otruthy url then mret url
             else
               (if (attempt <? max_retries - 1)%Z
                then time_sleep ((3 # 2) * inject_Z (attempt + 1))
                else mret tt);;
               mret None)
            (fun _ =>
               (if (attempt <? max_retries - 1)%Z
                then time_sleep (2 * inject_Z (attempt + 1))
                else mret tt);;
               mret None);
      match r with
      | Some url => mret (Some url)
      | None =>
          search_loop timeout query track_name artist_name max_retries
                      (attempt + 1)%Z remaining'
      end
  end.

Definition search (timeout : Z) (query : str)
           (track_name artist_name : option str) (max_retries : Z)
  : SE W (option str) :=
  if negb (truthy query) then mret None
  else search_loop timeout query track_name artist_name max_retries 0
                   (Z.to_nat max_retries).

End Page.

End FourSharedScraper.

(* ------------------------------------------------------------------ *)
(** ** The bot: run statistics, retry/backoff controller, track resolver *)

Module Stats.
Record t := {
  total_songs : Z;
  youtube_found : Z;
  fourshared_found : Z;
  not_found : Z;
  errors : Z
}.

Definition zero : t := {|
  total_songs := 0; youtube_found := 0; fourshared_found := 0;
  not_found := 0; errors := 0
|}.

(** The four terminal counters. *)
Inductive counter := YoutubeFound | FoursharedFound | NotFound | Errors.

(** [stats[key] += 1] *)
Definition bump_total (s : t) : t := {|
  total_songs := total_songs s + 1;
  youtube_found := youtube_found s;
  fourshared_found := fourshared_found s;
  not_found := not_found s;
  errors := errors s
|}.

Definition bump (c : counter) (s : t) : t := {|
  total_songs := total_songs s;
  youtube_found :=
    match c with YoutubeFound => youtube_found s + 1 | _ => youtube_found s end;
  fourshared_found :=
    match c with
    | FoursharedFound => fourshared_found s + 1
    | _ => fourshared_found s
    end;
  not_found :=
    match c with NotFound => not_found s + 1 | _ => not_found s end;
  errors := match c with Errors => errors s + 1 | _ => errors s end
|}.
End Stats.

(** The [status] of a result. *)
Inductive status := Found | NotFound | Error.

Module Result.
Record t := {
  track_name : option str;
  artist_name : option str;
  youtube_url : str;
  fourshared_url : str;
  status_of : status;
  index : option Z
}.

Definition set_youtube (r : t) (u : str) : t := {|
  track_name := track_name r; artist_name := artist_name r;
  youtube_url := u; fourshared_url := fourshared_url r;
  status_of := Found; index := index r
|}.

Definition set_fourshared (r : t) (u : str) : t := {|
  track_name := track_name r; artist_name := artist_name r;
  youtube_url := youtube_url r; fourshared_url := u;
  status_of := Found; index := index r
|}.

Definition set_status (r : t) (s : status) : t := {|
  track_name := track_name r; artist_name := artist_name r;
  youtube_url := youtube_url r; fourshared_url := fourshared_url r;
  status_of := s; index := index r
|}.

Definition set_index (r : t) (i : Z) : t := {|
  track_name := track_name r; artist_name := artist_name r;
  youtube_url := youtube_url r; fourshared_url := fourshared_url r;
  status_of := status_of r; index := Some i
|}.
End Result.

Module Bot.
(** The attributes of a [MusicSearchBot] besides its three adapters. *)
Record t := {
  delay : Q;
  max_retries : Z;
  concurrency : Z;
  timeout : Z;
  stats : Stats.t
}.

Definition set_delay (b : t) (d : Q) : t := {|
  delay := d; max_retries := max_retries b; concurrency := concurrency b;
  timeout := timeout b; stats := stats b
|}.

Definition set_stats (b : t) (s : Stats.t) : t := {|
  delay := delay b; max_retries := max_retries b;
  concurrency := concurrency b; timeout := timeout b; stats := s
|}.

(** [MusicSearchBot.__init__] *)
Definition init (delay : Q) (max_retries concurrency timeout : Z) : t := {|
  delay := delay;
  max_retries := max_retries;
  concurrency := Z.min concurrency 3;
  timeout := timeout;
  stats := Stats.zero
|}.
End Bot.

(** What a run leaves behind for an observer: sleeps, the outcome of every
    call a retry loop makes, and progress reports. *)
Inductive event :=
| ESleep (seconds : Q)
| EAttempt (attempt : nat) (outcome : res (option str))
| EProgress (completed total : Z) (snapshot : Stats.t) (label : str).

(** A row of the input table after column detection: its index in the
    frame and the two cells, [None] for a missing value, otherwise
    [str(cell)]. *)
Record row := {
  row_index : Z;
  track_cell : option str;
  artist_cell : option str
}.

(** An entry of [tracks_data]. *)
Module TrackData.
Record t := {
  index : Z;
  track_name : str;
  artist_name : str
}.
End TrackData.

(** The three columns [run_playlist] adds to the frame, by row index. *)
Definition frame := gmap Z (str * str * status).

Section Engine.
Context {U : Unicode} {W : Type}.

(** The mutable objects of a run: the bot, the outside world (network,
    random generator, progress sink), the observable trace and the
    [results] list of [run_playlist]. *)
Record store := {
  bot : Bot.t;
  world : W;
  trace : list event;
  results : list Result.t
}.

Definition set_bot (st : store) (b : Bot.t) : store :=
  {| bot := b; world := world st; trace := trace st; results := results st |}.
Definition set_world (st : store) (w : W) : store :=
  {| bot := bot st; world := w; trace := trace st; results := results st |}.
Definition log (e : event) (st : store) : store :=
  {| bot := bot st; world := world st; trace := trace st ++ [e];
     results := results st |}.
Definition append_result (r : Result.t) (st : store) : store :=
  {| bot := bot st; world := world st; trace := trace st;
     results := results st ++ [r] |}.

Definition M (A : Type) : Type := SE store A.

(** [random.uniform], the three adapters' [search] methods, the
    availability of the catalog client, the progress sink and the
    writing of the output files. *)
Context (random_uniform : Q -> Q -> W -> Q * W)
        (youtube_music_available : bool)
        (youtube_music_search youtube_scraper_search : str -> SE W (option str))
        (fourshared_scraper_search :
           str -> option str -> option str -> SE W (option str))
        (progress_callback : Z -> Z -> Stats.t -> str -> SE W unit)
        (save_outputs : frame -> SE W unit).

(** A computation on the world, run inside the store. *)
Definition in_world {A} (f : SE W A) : M A :=
  fun st => let '(r, w) := f (world st) in (r, set_world st w).

(** [time.sleep(seconds)] *)
Definition time_sleep (seconds : Q) : M unit :=
  if Qltb seconds 0 then mthrow ValueError
  else modify (log (ESleep seconds)).

Definition uniform (a b : Q) : M Q :=
  fun st => let '(x, w) := random_uniform a b (world st) in (Ok x, set_world st w).

Definition self_delay : M Q := fun st => (Ok (Bot.delay (bot st)), st).
Definition self_max_retries : M Z :=
  fun st => (Ok (Bot.max_retries (bot st)), st).
Definition set_self_delay (d : Q) : M unit :=
  modify (fun st => set_bot st (Bot.set_delay (bot st) d)).
Definition update_stats (f : Stats.t -> Stats.t) : M unit :=
  modify (fun st => set_bot st (Bot.set_stats (bot st) (f (Bot.stats (bot st))))).

(** [search_func()], with its outcome recorded. *)
Definition invoke (search_func : SE W (option str)) (attempt : nat)
  : M (option str) :=
  fun st =>
    let '(r, w) := search_func (world st) in
    (r, log (EAttempt attempt r) (set_world st w)).

(** [int(retry_after)] *)
Definition py_int (s : str) : res Z :=
  match int_of s with Some z => Ok z | None => Raise ValueError end.

(** The body of [if e.response and e.response.status_code == 429:]. *)
Definition on_rate_limit (response : Response) : M unit :=
  d ← self_delay;
  set_self_delay (py_min (d * (3 # 2)) 5);;
  match headers_get response (lit "Retry-After") with
  | Some (c :: retry_after) =>
      try_except
        (wait_time ← lift (py_int (c :: retry_after));
         time_sleep (inject_Z wait_time))
        (fun e =>
           match e with
           | ValueError => d ← self_delay; time_sleep (d * 2)
           | _ => mthrow e
           end)
  | _ => d ← self_delay; time_sleep (d * 2)
  end.

(** One iteration of the loop of [_search_with_retries]: [Some url] is
    [return result]; [None] lets the loop go on.  The pauses are
    computed without rounding here; [Binary64.attempt_body] below has
    them as the source computes them. *)
Definition attempt_body (search_func : SE W (option str)) (attempt : nat)
  : M (option str) :=
  try_except
    ((if 0 <? attempt then
        d ← self_delay;
        jitter ← uniform (1 # 10) (1 # 2);
        let backoff_delay := (d * inject_Z (2 ^ Z.of_nat attempt) + jitter)%Q in
        let backoff_delay := py_min backoff_delay 10 in
        time_sleep backoff_delay
      else mret tt);;
     result ← invoke search_func attempt;
     if otruthy result then mret result else mret None)
    (fun e =>
       match e with
       | HTTPError response =>
           match response with
           | Some r =>
               if Response_bool r && (status_code r =? 429)%Z
               then on_rate_limit r;; mret None
               else mret None
           | None => mret None
           end
       | _ =>
           max_retries ← self_max_retries;
           (if (Z.of_nat attempt <? max_retries - 1)%Z
            then d ← self_delay;
                 time_sleep (d * inject_Z (Z.of_nat attempt + 1))
            else mret tt);;
           mret None
       end).

Fixpoint retry_loop (search_func : SE W (option str)) (attempt remaining : nat)
  : M (option str) :=
  match remaining with
  | O => mret None
  | S remaining' =>
      r ← attempt_body search_func attempt;
      match r with
      | Some result => mret (Some result)
      | None => retry_loop search_func (S attempt) remaining'
      end
  end.

Definition _search_with_retries (search_func : SE W (option str))
  : M (option str) :=
  max_retries ← self_max_retries;
  retry_loop search_func 0 (Z.to_nat max_retries).

Definition _search_youtube (query : str) : M (option str) :=
  hit ← (if youtube_music_available then
           url ← _search_with_retries (youtube_music_search query);
           if otruthy url && is_valid_youtube_url url
           then mret url else mret None
         else mret None);
  match hit with
  | Some url => mret (Some url)
  | None =>
      url ← _search_with_retries (youtube_scraper_search query);
      if otruthy url && is_valid_youtube_url url
      then mret url else mret None
  end.

Definition _search_fourshared (query : str) (track_name artist_name : option str)
  : M (option str) :=
  _search_with_retries (fourshared_scraper_search query track_name artist_name).

(** The [for variant in search_variants:] loop of [search_single_track];
    [Some r] is a [return result] inside it, [None] the loop running out.
    [final] is [search_variants[-1]]. *)
Fixpoint variants_loop (track_name artist_name : option str)
         (result : Result.t) (final : option str) (variants : list str)
  : M (option Result.t) :=
  match variants with
  | [] => mret None
  | variant :: rest =>
      youtube_url ← _search_youtube variant;
      match youtube_url with
      | Some (c :: u) =>
          update_stats (Stats.bump Stats.YoutubeFound);;
          mret (Some (Result.set_youtube result (c :: u)))
      | _ =>
          fourshared_url ← _search_fourshared variant track_name artist_name;
          match fourshared_url with
          | Some (c :: u) =>
              update_stats (Stats.bump Stats.FoursharedFound);;
              mret (Some (Result.set_fourshared result (c :: u)))
          | _ =>
              (if negb (bool_decide (Some variant = final))
               then d ← self_delay; time_sleep (d * (1 # 2))
               else mret tt);;
              variants_loop track_name artist_name result final rest
          end
      end
  end.

Definition search_single_track (track_name artist_name : option str)
  : M Result.t :=
  let result := {|
    Result.track_name := track_name;
    Result.artist_name := artist_name;
    Result.youtube_url := lit "";
    Result.fourshared_url := lit "";
    Result.status_of := NotFound;
    Result.index := None
  |} in
  update_stats Stats.bump_total;;
  try_except
    (search_variants ← lift (generate_search_variants track_name artist_name);
     match search_variants with
     | [] =>
         update_stats (Stats.bump Stats.Errors);;
         mret (Result.set_status result Error)
     | _ :: _ =>
         returned ← variants_loop track_name artist_name result
                      (last search_variants) search_variants;
         match returned with
         | Some r => mret r
         | None =>
             update_stats (Stats.bump Stats.NotFound);;
             mret result
         end
     end)
    (fun _ =>
       update_stats (Stats.bump Stats.Errors);;
       mret (Result.set_status result Error)).

(** *** The run orchestrator *)

(** The cell as [run_playlist] reads it:
    [str(cell).strip() if pd.notna(cell) else ""]. *)
Definition read_cell (cell : option str) : str :=
  match cell with Some s => strip s | None => lit "" end.

Fixpoint collect_tracks (rows : list row) : list TrackData.t :=
  match rows with
  | [] => []
  | r :: rest =>
      let track_name := read_cell (track_cell r) in
      let artist_name := read_cell (artist_cell r) in
      if truthy track_name && truthy artist_name
      then {| TrackData.index := row_index r;
              TrackData.track_name := track_name;
              TrackData.artist_name := artist_name |} :: collect_tracks rest
      else collect_tracks rest
  end.

Definition error_entry (track_data : TrackData.t) : Result.t := {|
  Result.track_name := Some (TrackData.track_name track_data);
  Result.artist_name := Some (TrackData.artist_name track_data);
  Result.youtube_url := lit "";
  Result.fourshared_url := lit "";
  Result.status_of := Error;
  Result.index := Some (TrackData.index track_data)
|}.

(** The [for i, track_data in enumerate(tracks_data):] loop.  [delay] is
    the argument of [run_playlist], not the bot's attribute. *)
Fixpoint tracks_loop (delay : Q) (total : Z) (i : Z)
         (tracks_data : list TrackData.t) : M unit :=
  match tracks_data with
  | [] => mret tt
  | track_data :: rest =>
      try_except
        (result ← search_single_track
                    (Some (TrackData.track_name track_data))
                    (Some (TrackData.artist_name track_data));
         let result := Result.set_index result (TrackData.index track_data) in
         modify (append_result result);;
         let last_message :=
           TrackData.track_name track_data ++ lit " - "
           ++ TrackData.artist_name track_data in
         st ← get;
         in_world (progress_callback (i + 1) total (Bot.stats (bot st))
                                     last_message);;
         modify (log (EProgress (i + 1) total (Bot.stats (bot st))
                                last_message));;
         if (i <? total - 1)%Z then time_sleep delay else mret tt)
        (fun _ => modify (append_result (error_entry track_data)));;
      tracks_loop delay total (i + 1)%Z rest
  end.

(** The write-back of [results] into the frame: every row starts as
    [('', '', 'not_found')], and a later entry for an index overwrites
    an earlier one. *)
Definition blank_frame (rows : list row) : frame :=
  fold_left (fun (df : frame) r => <[row_index r := (lit "", lit "", NotFound)]> df)
            rows ∅.

Definition write_back (df : frame) (results : list Result.t) : frame :=
  fold_left
    (fun (df : frame) result =>
       match Result.index result with
       | Some idx =>
           <[idx := (Result.youtube_url result, Result.fourshared_url result,
                     Result.status_of result)]> df
       | None => df
       end)
    results df.

(** [run_playlist], from the frame [pd.read_csv] returned and the two
    detected columns on.  Every exception leaves as
    [Exception("Erro no processamento: ...")]. *)
Definition run_playlist (rows : list row) (delay : Q)
           (max_retries concurrency : Z) : M Stats.t :=
  try_except
    (let tracks_data := collect_tracks rows in
     match tracks_data with
     | [] => mthrow ValueError
     | _ :: _ =>
         modify (fun st => set_bot st (Bot.init delay max_retries concurrency 10));;
         modify (fun st => {| bot := bot st; world := world st;
                              trace := trace st; results := [] |});;
         let total := Z.of_nat (length tracks_data) in
         tracks_loop delay total 0 tracks_data;;
         st ← get;
         let df := write_back (blank_frame rows) (results st) in
         in_world (save_outputs df);;
         mret (Bot.stats (bot st))
     end)
    (fun _ => mthrow PlainException).

End Engine.

(** [_detect_and_map_columns], on [df.columns.tolist()]. *)
Definition _detect_and_map_columns (columns : list str) : option (str * str) :=
  if bool_decide (lit "Track Name" ∈ columns)
     && bool_decide (lit "Artist Name(s)" ∈ columns)
  then Some (lit "Track Name", lit "Artist Name(s)")
  else if bool_decide (lit "M" ++ [250%N] ++ lit "sica" ∈ columns)
          && bool_decide (lit "Artista" ∈ columns)
  then Some (lit "M" ++ [250%N] ++ lit "sica", lit "Artista")
  else None.

(* ------------------------------------------------------------------ *)
(** ** The retry/backoff controller with its pauses in binary64

    [_search_with_retries] computes the lengths of its pauses in
    Python's [float], which is IEEE 754 binary64.  The engine above
    computes them without rounding, which is enough for what the
    resolver and the orchestrator return; here the controller is taken
    with the arithmetic of the source: primitive floats, the conversion
    of an [int] operand, and what [time.sleep] does with a length it
    refuses. *)

Module Binary64.

(** [float(n)] for an [int] operand of a float product: the nearest
    binary64 number, ties to even ([nearest]), and [OverflowError] when
    that would be an infinity, i.e. from [2^1024 - 2^970] on. *)
Definition nearest (n : Z) : float :=
  SF2Prim (binary_normalize prec emax n 0 false).

Definition float_of_int (n : Z) : res float :=
  match binary_normalize prec emax n 0 false with
  | S754_infinity _ => Raise OverflowError
  | _ => Ok (nearest n)
  end.

(** Python's [min(a, b)]: [a] unless [b < a]. *)
Definition py_min (a b : float) : float := if (b <? a)%float then b else a.

(** What a call leaves behind for an observer: the pauses that were
    taken and the outcome of every call of the search function. *)
Inductive event :=
| ESleep (seconds : float)
| EAttempt (attempt : nat) (outcome : res (option str)).

Section Controller.
Context {U : Unicode} {W : Type}.

(** The two attributes of the bot that the controller reads, the outside
    world and the observable trace. *)
Record store := {
  delay : float;
  max_retries : Z;
  world : W;
  trace : list event
}.

Definition set_delay (st : store) (d : float) : store :=
  {| delay := d; max_retries := max_retries st; world := world st;
     trace := trace st |}.
Definition set_world (st : store) (w : W) : store :=
  {| delay := delay st; max_retries := max_retries st; world := w;
     trace := trace st |}.
Definition log (e : event) (st : store) : store :=
  {| delay := delay st; max_retries := max_retries st; world := world st;
     trace := trace st ++ [e] |}.

Definition M (A : Type) : Type := SE store A.

Context (random_uniform : float -> float -> W -> float * W).

(** [time.sleep(seconds)] with a float.  CPython turns the length into
    nanoseconds held in 64 bits: a NaN is a [ValueError], a length out
    of that range an [OverflowError], a negative one a [ValueError]. *)
Definition time_sleep (seconds : float) : M unit :=
  if is_nan seconds then mthrow ValueError
  else
    let ns := (seconds * 1e9)%float in
    if negb (-0x1p63 <=? ns)%float || negb (ns <? 0x1p63)%float
    then mthrow OverflowError
    else if (ns <? 0)%float then mthrow ValueError
    else modify (log (ESleep seconds)).

(** [time.sleep(seconds)] with an [int]: the same checks on the whole
    number of seconds. *)
Definition time_sleep_int (seconds : Z) : M unit :=
  if (seconds <? -9223372036)%Z || (9223372036 <? seconds)%Z
  then mthrow OverflowError
  else if (seconds <? 0)%Z then mthrow ValueError
  else modify (log (ESleep (nearest seconds))).

Definition uniform (a b : float) : M float :=
  fun st => let '(x, w) := random_uniform a b (world st) in (Ok x, set_world st w).

Definition self_delay : M float := fun st => (Ok (delay st), st).
Definition self_max_retries : M Z := fun st => (Ok (max_retries st), st).
Definition set_self_delay (d : float) : M unit :=
  modify (fun st => set_delay st d).

(** [search_func()], with its outcome recorded. *)
Definition invoke (search_func : SE W (option str)) (attempt : nat)
  : M (option str) :=
  fun st =>
    let '(r, w) := search_func (world st) in
    (r, log (EAttempt attempt r) (set_world st w)).

(** The body of [if e.response and e.response.status_code == 429:]. *)
Definition on_rate_limit (response : Response) : M unit :=
  d ← self_delay;
  set_self_delay (py_min (d * 1.5) 5);;
  match headers_get response (lit "Retry-After") with
  | Some (c :: retry_after) =>
      try_except
        (wait_time ← lift (py_int (c :: retry_after));
         time_sleep_int wait_time)
        (fun e =>
           match e with
           | ValueError => d ← self_delay; time_sleep (d * 2)
           | _ => mthrow e
           end)
  | _ => d ← self_delay; time_sleep (d * 2)
  end.

(** One iteration of the loop of [_search_with_retries]: [Some url] is
    [return result]; [None] lets the loop go on.  The product
    [self.delay * (2 ** attempt)] is evaluated before
    [random.uniform] is called, and raises [OverflowError] inside the
    [try] when the power does not convert. *)
Definition attempt_body (search_func : SE W (option str)) (attempt : nat)
  : M (option str) :=
  try_except
    ((if 0 <? attempt then
        d ← self_delay;
        power ← lift (float_of_int (2 ^ Z.of_nat attempt));
        jitter ← uniform 0.1 0.5;
        let backoff_delay := (d * power + jitter)%float in
        let backoff_delay := py_min backoff_delay 10 in
        time_sleep backoff_delay
      else mret tt);;
     result ← invoke search_func attempt;
     if otruthy result then mret result else mret None)
    (fun e =>
       match e with
       | HTTPError response =>
           match response with
           | Some r =>
               if Response_bool r && (status_code r =? 429)%Z
               then on_rate_limit r;; mret None
               else mret None
           | None => mret None
           end
       | _ =>
           max_retries ← self_max_retries;
           (if (Z.of_nat attempt <? max_retries - 1)%Z
            then d ← self_delay;
                 count ← lift (float_of_int (Z.of_nat attempt + 1));
                 time_sleep (d * count)
            else mret tt);;
           mret None
       end).

Fixpoint retry_loop (search_func : SE W (option str)) (attempt remaining : nat)
  : M (option str) :=
  match remaining with
  | O => mret None
  | S remaining' =>
      r ← attempt_body search_func attempt;
      match r with
      | Some result => mret (Some result)
      | None => retry_loop search_func (S attempt) remaining'
      end
  end.

Definition _search_with_retries (search_func : SE W (option str))
  : M (option str) :=
  max_retries ← self_max_retries;
  retry_loop search_func 0 (Z.to_nat max_retries).

End Controller.

End Binary64.

(* ------------------------------------------------------------------ *)
(** ** The web driver ([app.py]) *)

Module App.

(** [s.rsplit(sep, 1)]: the text before and after the last [sep], or
    [s] alone when it has none. *)
Fixpoint rsplit_once (sep : N) (s : str) : option (str * str) :=
  match s with
  | [] => None
  | c :: s' =>
      match rsplit_once sep s' with
      | Some (before, after) => Some (c :: before, after)
      | None => if N.eqb c sep then Some ([], s') else None
      end
  end.

Definition rsplit (sep : N) (s : str) : list str :=
  match rsplit_once sep s with
  | Some (before, after) => [before; after]
  | None => [s]
  end.

(** [allowed_file]; [None] stands for the [IndexError] of the
    subscript. *)
Definition allowed_file {U : Unicode} (filename : str) : option bool :=
  if contains (lit ".") filename then
    ext ← rsplit 46 filename !! 1;
    Some (bool_decide (lower ext = lit "csv"))
  else Some false.

End App.

(* ================================================================== *)
(** * The vocabulary of the statements *)

(* ------------------------------------------------------------------ *)
(** ** Variants *)

(** Deduplication as the specification words it: an entry stays when no
    equal entry came before it.  [earlier] lists the entries already
    met. *)
Fixpoint first_seen_from (earlier : list str) (l : list str) : list str :=
  match l with
  | [] => []
  | x :: rest =>
      if bool_decide (x ∈ earlier) then first_seen_from earlier rest
      else x :: first_seen_from (x :: earlier) rest
  end.

Definition first_seen (l : list str) : list str := first_seen_from [] l.

Section VariantVocabulary.
Context {U : Unicode}.

(** The candidates of the specification, in its order: the cleaned
    query, the normalised artist followed by the normalised track, and
    the normalised track alone when longer than three characters;
    the first two only when they have something to say. *)
Definition candidates (t a : str) : list str :=
  let main_query := clean_query (Some t) (Some a) in
  let clean_track := normalize_text (Some (strip t)) in
  let clean_artist := normalize_text (Some (strip a)) in
  (if truthy main_query then [main_query] else [])
  ++ (if truthy clean_artist && truthy clean_track
      then [clean_artist ++ lit " " ++ clean_track] else [])
  ++ (if 3 <? length clean_track then [clean_track] else []).

End VariantVocabulary.

(* ------------------------------------------------------------------ *)
(** ** Computations of the bot *)

Section EngineVocabulary.
Context {U : Unicode} {W : Type}.
Context (random_uniform : Q -> Q -> W -> Q * W)
        (youtube_music_available : bool)
        (youtube_music_search youtube_scraper_search : str -> SE W (option str))
        (fourshared_scraper_search :
           str -> option str -> option str -> SE W (option str)).

Local Abbreviation store := (@store W).
Local Abbreviation M := (@M W).
Local Abbreviation resolve :=
  (search_single_track random_uniform youtube_music_available
                       youtube_music_search youtube_scraper_search
                       fourshared_scraper_search).

(** [m] changes neither the bot nor the [results] list. *)
Definition keeps {A} (m : M A) : Prop :=
  forall st, bot (snd (m st)) = bot st /\ results (snd (m st)) = results st.

(** [Q] holds of the outcome and the store [m] leaves when run from
    [st]. *)
Definition after {A} (m : M A) (st : store) (Q : res A -> store -> Prop)
  : Prop :=
  Q (fst (m st)) (snd (m st)).

(** Same bot and same [results] list. *)
Definition same (st s : store) : Prop :=
  bot s = bot st /\ results s = results st.

(** The result dictionary [search_single_track] starts from. *)
Definition blank_result (track_name artist_name : option str) : Result.t := {|
  Result.track_name := track_name;
  Result.artist_name := artist_name;
  Result.youtube_url := lit "";
  Result.fourshared_url := lit "";
  Result.status_of := NotFound;
  Result.index := None
|}.

(** The result that goes with each terminal counter. *)
Definition result_for (c : Stats.counter) (t a : option str) (r : Result.t)
  : Prop :=
  match c with
  | Stats.YoutubeFound =>
      exists u, u <> [] /\ is_valid_youtube_url (Some u) = true
                /\ r = Result.set_youtube (blank_result t a) u
  | Stats.FoursharedFound =>
      exists u, u <> [] /\ r = Result.set_fourshared (blank_result t a) u
  | Stats.NotFound => r = blank_result t a
  | Stats.Errors => r = Result.set_status (blank_result t a) Error
  end.

(** Counter [c] went up by one between [st] and [s]; nothing else of the
    bot changed, nor did the [results] list. *)
Definition bumped (c : Stats.counter) (st s : store) : Prop :=
  bot s = Bot.set_stats (bot st) (Stats.bump c (Bot.stats (bot st)))
  /\ results s = results st.

(** What the variant loop can do: return a found result with its counter
    bumped, run out, or raise, the last two with the bot untouched. *)
Definition loop_outcome (t a : option str) (st : store)
           (r : res (option Result.t)) (s : store) : Prop :=
  match r with
  | Ok (Some found) =>
      exists c, (c = Stats.YoutubeFound \/ c = Stats.FoursharedFound)
                /\ result_for c t a found /\ bumped c st s
  | Ok None | Raise _ => same st s
  end.

(** The sum of the four terminal counters. *)
Definition terminal_sum (s : Stats.t) : Z :=
  (Stats.youtube_found s + Stats.fourshared_found s
   + Stats.not_found s + Stats.errors s)%Z.

(** Exactly one terminal counter is one higher in [s'] than in [s], and
    the other three are equal. *)
Definition one_terminal_more (s s' : Stats.t) : Prop :=
  (Stats.youtube_found s' = Stats.youtube_found s + 1
   /\ Stats.fourshared_found s' = Stats.fourshared_found s
   /\ Stats.not_found s' = Stats.not_found s
   /\ Stats.errors s' = Stats.errors s)%Z
  \/ (Stats.youtube_found s' = Stats.youtube_found s
      /\ Stats.fourshared_found s' = Stats.fourshared_found s + 1
      /\ Stats.not_found s' = Stats.not_found s
      /\ Stats.errors s' = Stats.errors s)%Z
  \/ (Stats.youtube_found s' = Stats.youtube_found s
      /\ Stats.fourshared_found s' = Stats.fourshared_found s
      /\ Stats.not_found s' = Stats.not_found s + 1
      /\ Stats.errors s' = Stats.errors s)%Z
  \/ (Stats.youtube_found s' = Stats.youtube_found s
      /\ Stats.fourshared_found s' = Stats.fourshared_found s
      /\ Stats.not_found s' = Stats.not_found s
      /\ Stats.errors s' = Stats.errors s + 1)%Z.

(** A sequence of calls of [search_single_track] on one bot. *)
Fixpoint resolve_all (calls : list (option str * option str))
  : M (list Result.t) :=
  match calls with
  | [] => mret []
  | (track_name, artist_name) :: rest =>
      r ← resolve track_name artist_name;
      rs ← resolve_all rest;
      mret (r :: rs)
  end.

(** The store with the bot's statistics as [__init__] sets them. *)
Definition zeroed (st : store) : store :=
  set_bot st (Bot.set_stats (bot st) Stats.zero).

End EngineVocabulary.

(* ------------------------------------------------------------------ *)
(** ** Traces of the retry loop *)

(** The sleep before attempt [k] when the jitter drawn is [jitter]. *)
Definition backoff (d : Q) (k : nat) (jitter : Q) : Q :=
  py_min (d * inject_Z (2 ^ Z.of_nat k) + jitter) 10.

Definition jitter_ok (j : Q) : Prop := (1 # 10 <= j)%Q /\ (j <= 1 # 2)%Q.

(** The non-empty result an attempt's outcome carries, if any. *)
Definition hit (o : res (option str)) : option str :=
  match o with
  | Ok (Some (c :: u)) => Some (c :: u)
  | _ => None
  end.

(** What follows a failed attempt [k] in the trace: nothing after an
    empty result or an [HTTPError], a sleep of [d * (k + 1)] after any
    other exception unless the attempt was the last of [n]. *)
Definition recovery (d : Q) (n : Z) (k : nat) (o : res (option str))
  : list event :=
  match o with
  | Ok _ => []
  | Raise (HTTPError _) => []
  | Raise _ =>
      if (Z.of_nat k <? n - 1)%Z
      then [ESleep (d * inject_Z (Z.of_nat k + 1))] else []
  end.

(** The trace of the attempts numbered from [k] on, given the jitter
    drawn before each and the outcome of each.  Attempt 0 has no sleep
    before it and its jitter is not drawn. *)
Fixpoint expected_trace (d : Q) (n : Z) (k : nat)
         (runs : list (Q * res (option str))) : list event :=
  match runs with
  | [] => []
  | (j, o) :: rest =>
      (if 0 <? k then [ESleep (backoff d k j)] else [])
      ++ [EAttempt k o] ++ recovery d n k o
      ++ expected_trace d n (S k) rest
  end.

(** The lengths of the sleeps in a trace. *)
Definition sleeps_of (tr : list event) : list Q :=
  flat_map (fun e => match e with ESleep x => [x] | _ => [] end) tr.

Section RetryVocabulary.
Context {W : Type}.
Context (random_uniform : Q -> Q -> W -> Q * W).

(** [random.uniform(a, b)] answers within [a, b]. *)
Definition uniform_in_range : Prop :=
  forall (a b : Q) (w : W),
    (a <= b)%Q ->
    (a <= fst (random_uniform a b w))%Q /\ (fst (random_uniform a b w) <= b)%Q.

(** The jitter drawn before attempt [k] from world [w], and the world
    after the draw; nothing is drawn before attempt 0. *)
Definition drawn (k : nat) (w : W) : Q * W :=
  if 0 <? k then random_uniform (1 # 10) (1 # 2) w else (1 # 10, w).

(** No attempt of [runs] brought a non-empty result. *)
Definition all_missed (runs : list (Q * res (option str))) : Prop :=
  Forall (fun run => hit (snd run) = None) runs.

(** How the loop ends when [remaining] iterations are allowed: on the
    first attempt that brings a non-empty result, with that result, or
    after all of them, with [None]. *)
Definition ends_with (remaining : nat) (runs : list (Q * res (option str)))
           (result : option str) : Prop :=
  match result with
  | Some u =>
      exists init j o,
        runs = init ++ [(j, o)] /\ hit o = Some u /\ all_missed init
        /\ length runs <= remaining
  | None => all_missed runs /\ length runs = remaining
  end.

End RetryVocabulary.

(* ------------------------------------------------------------------ *)
(** ** Pauses in binary64 *)

Module Paced.
Import Binary64.

(** A number that is not negative (an infinity included). *)
Definition nonneg (x : spec_float) : bool :=
  match x with
  | S754_zero _ | S754_finite false _ _ | S754_infinity false => true
  | _ => false
  end.

(** A finite number that is not negative. *)
Definition finite (x : spec_float) : bool :=
  match x with
  | S754_zero _ | S754_finite false _ _ => true
  | _ => false
  end.

(** A finite number above zero. *)
Definition positive_finite (x : spec_float) : bool :=
  match x with S754_finite false _ _ => true | _ => false end.

(** [0 <= x < 2^a] *)
Definition under (a : Z) (x : spec_float) : bool :=
  match x with
  | S754_zero _ => true
  | S754_finite false m e => (Zpos (digits2_pos m) + e <=? a)%Z
  | _ => false
  end.

(** What rounding gives for sign [sx] and a magnitude below [2^B]: a
    number of that sign, below [2^B] when finite, an infinity only when
    [B] is beyond the largest exponent. *)
Definition shaped (sx : bool) (B : Z) (x : spec_float) : Prop :=
  match x with
  | S754_nan => False
  | S754_zero s => s = sx
  | S754_infinity s => s = sx /\ (972 < B)%Z
  | S754_finite s m e => s = sx /\ (Zpos (digits2_pos m) + e <= B)%Z
  end.

(** The integer [n] converts to a float, a number in [[0, 2^a)]. *)
Definition converts_under (a : Z) (n : Z) : bool :=
  match float_of_int n with
  | Ok c => under a (Prim2SF c)
  | Raise _ => false
  end.

(** The sleep before attempt [k] when the jitter drawn is [jitter]:
    [min(d * 2^k + jitter, 10.0)], every operation rounded as binary64
    rounds it. *)
Definition backoff (d : float) (k : nat) (jitter : float) : float :=
  py_min (d * nearest (2 ^ Z.of_nat k) + jitter) 10.

Definition jitter_ok (j : float) : Prop :=
  (0.1 <=? j)%float = true /\ (j <=? 0.5)%float = true.

(** The sleep after a failed attempt [k]: [d * (k + 1)]. *)
Definition pause (d : float) (k : nat) : float :=
  (d * nearest (Z.of_nat k + 1))%float.

(** What follows a failed attempt [k] in the trace: nothing after an
    empty result or an [HTTPError], a sleep of [d * (k + 1)] after any
    other exception unless the attempt was the last of [n]. *)
Definition recovery (d : float) (n : Z) (k : nat) (o : res (option str))
  : list event :=
  match o with
  | Ok _ => []
  | Raise (HTTPError _) => []
  | Raise _ => if (Z.of_nat k <? n - 1)%Z then [ESleep (pause d k)] else []
  end.

(** The trace of the attempts numbered from [k] on, given the jitter
    drawn before each and the outcome of each.  Attempt 0 has no sleep
    before it and its jitter is not drawn. *)
Fixpoint expected_trace (d : float) (n : Z) (k : nat)
         (runs : list (float * res (option str))) : list event :=
  match runs with
  | [] => []
  | (j, o) :: rest =>
      (if 0 <? k then [ESleep (backoff d k j)] else [])
      ++ [EAttempt k o] ++ recovery d n k o
      ++ expected_trace d n (S k) rest
  end.

(** The lengths of the sleeps in a trace. *)
Definition sleeps_of (tr : list event) : list float :=
  flat_map (fun e => match e with ESleep x => [x] | _ => [] end) tr.

Section Draws.
Context {W : Type}.
Context (random_uniform : float -> float -> W -> float * W).

(** [random.uniform(0.1, 0.5)] answers within its bounds. *)
Definition uniform_in_range : Prop :=
  forall w : W, jitter_ok (fst (random_uniform 0.1 0.5 w)).

(** The jitter drawn before attempt [k] from world [w], and the world
    after the draw; nothing is drawn before attempt 0. *)
Definition drawn (k : nat) (w : W) : float * W :=
  if 0 <? k then random_uniform 0.1 0.5 w else (0.1%float, w).

(** No attempt of [runs] brought a non-empty result. *)
Definition all_missed (runs : list (float * res (option str))) : Prop :=
  Forall (fun run => hit (snd run) = None) runs.

(** How the loop ends when [remaining] iterations are allowed: on the
    first attempt that brings a non-empty result, with that result, or
    after all of them, with [None]. *)
Definition ends_with (remaining : nat) (runs : list (float * res (option str)))
           (result : option str) : Prop :=
  match result with
  | Some u =>
      exists init j o,
        runs = init ++ [(j, o)] /\ hit o = Some u /\ all_missed init
        /\ length runs <= remaining
  | None => all_missed runs /\ length runs = remaining
  end.

(** [Q] holds of the outcome and the store [m] leaves when run from
    [st]. *)
Definition ensures {A} (m : @M W A) (st : @store W)
           (Q : res A -> @store W -> Prop) : Prop :=
  Q (fst (m st)) (snd (m st)).

End Draws.

End Paced.

(* ------------------------------------------------------------------ *)
(** ** Scores and acceptance *)

(** [x] when [b] holds, else nothing. *)
Definition bonus (b : bool) (x : float) : float := if b then x else 0.0%float.

Section SearcherVocabulary.
Context {U : Unicode}.
Import YouTubeMusicSearcher.

(** The three text fields of the entry are strings where present. *)
Definition textual (r : entry) : bool :=
  match title r, resultType r, category r with
  | IsNone, _, _ | _, IsNone, _ | _, _, IsNone => false
  | _, _, _ => true
  end.

(** The lower-cased text of a field, empty when the key is absent. *)
Definition field_text (f : field) : str :=
  match f with IsStr s => lower s | _ => lower (lit "") end.

(** The acceptance rule of the source. *)
Definition accepts (r : entry) : bool :=
  field_truthy (videoId r)
  && (among (field_text (resultType r)) (map lit ["song"; "video"]%string)
      || among (field_text (category r)) (map lit ["songs"; "music"]%string)
      || (negb (existsb (fun term => contains term (field_text (resultType r)))
                        avoid_terms)
          && negb (existsb (fun term => contains term (field_text (title r)))
                           avoid_in_title))).

(** The watch URL of an entry. *)
Definition watch_url (r : entry) : str :=
  match videoId r with
  | IsStr video_id => watch_prefix ++ video_id
  | _ => watch_prefix
  end.

(** An entry with an identifier whose title, result type or category is
    [None]: the acceptance check raises on it. *)
Definition malformed (r : entry) : bool :=
  field_truthy (videoId r) && negb (textual r).

(** The entry ends the scan of a result list: the check raises on it or
    accepts it. *)
Definition settles (r : entry) : bool := malformed r || accepts r.

(** What the search returns at the entry that ends the scan. *)
Definition settled (r : entry) : option str :=
  if malformed r then None else Some (watch_url r).

End SearcherVocabulary.

(** The shape of a URL the web scraper can return: the watch prefix
    followed by eleven characters that [_is_valid_video_id]'s pattern
    admits. *)
Definition id_shaped (url : str) : Prop :=
  exists video_id,
    url = watch_prefix ++ video_id
    /\ length video_id = 11
    /\ YouTubeScraper.id_pattern false video_id = true.

(* ------------------------------------------------------------------ *)
(** ** Documents and pages *)

(** [video_id] is the string under a [videoId] key, [depth] containers
    below the top of [data]. *)
Inductive id_at : nat -> YouTubeScraper.json -> str -> Prop :=
| id_here members video_id :
    YouTubeScraper.dict_get (lit "videoId") members
    = Some (YouTubeScraper.JString video_id) ->
    id_at 0 (YouTubeScraper.JObject members) video_id
| id_in_member members key value depth video_id :
    In (key, value) members -> id_at depth value video_id ->
    id_at (S depth) (YouTubeScraper.JObject members) video_id
| id_in_item items item depth video_id :
    In item items -> id_at depth item video_id ->
    id_at (S depth) (YouTubeScraper.JArray items) video_id.

(** [group] is a brace-delimited segment of [html] that follows [lhs]:
    it has no newline and ends at the first closing brace that a
    semicolon follows. *)
Definition assigned_object (lhs html group : str) : Prop :=
  exists pre body post,
    html = pre ++ lhs ++ lit "{" ++ body ++ lit "};" ++ post
    /\ (10%N ∉ body)
    /\ contains (lit "};") (body ++ lit "}") = false
    /\ group = lit "{" ++ body ++ lit "}".

(** The score of a link text by the outcome of the eight tests that
    [_calculate_relevance] makes on it. *)
Definition score (track artist extension : bool)
           (remix karaoke instrumental cover live : bool) : float :=
  py_fmax 0.0
    (bonus track 0.5 + bonus artist 0.3 + bonus extension 0.2
     - bonus remix 0.1 - bonus karaoke 0.1 - bonus instrumental 0.1
     - bonus cover 0.1 - bonus live 0.1)%float.

(** The scores there are. *)
Definition scores : list float :=
  Eval vm_compute in
    fold_right
      (fun x seen => if existsb (PrimFloat.eqb x) seen then seen else x :: seen)
      []
      (b1 ← [true; false]; b2 ← [true; false]; b3 ← [true; false];
       d1 ← [true; false]; d2 ← [true; false]; d3 ← [true; false];
       d4 ← [true; false]; d5 ← [true; false];
       [score b1 b2 b3 d1 d2 d3 d4 d5]).

(** [best] is the first link of the highest relevance in
    [pre ++ best :: post]. *)
Definition first_of_highest (pre : list FourSharedScraper.link)
           (best : FourSharedScraper.link)
           (post : list FourSharedScraper.link) : Prop :=
  Forall (fun l => PrimFloat.ltb (FourSharedScraper.relevance l)
                                 (FourSharedScraper.relevance best) = true) pre
  /\ Forall (fun l => PrimFloat.ltb (FourSharedScraper.relevance best)
                                    (FourSharedScraper.relevance l) = false) post.

Section PageVocabulary.
Context {U : Unicode} {Soup Item W : Type}
        (select : Soup -> str -> list Item)
        (select_one : Item -> str -> option FourSharedScraper.anchor)
        (item_find_all : Item -> list FourSharedScraper.anchor)
        (soup_find_all : Soup -> list FourSharedScraper.anchor)
        (quote_plus : str -> str)
        (session_get : str -> Z -> SE W Response)
        (BeautifulSoup : Response -> Soup).
Import FourSharedScraper.

(** The hyperlinks of an item that the source can look at. *)
Definition item_anchors (item : Item) : list anchor :=
  omap (select_one item) link_selectors ++ item_find_all item.

(** The hyperlinks of a page that the source can look at. *)
Definition page_anchors (soup : Soup) : list anchor :=
  flat_map (fun selector => flat_map item_anchors (select soup selector))
           selectors
  ++ soup_find_all soup.

(** [link] is the dictionary built for a hyperlink of [pool] that looks
    like an audio link. *)
Definition audio_link_of (track_name artist_name : option str)
           (pool : list anchor) (link : link) : Prop :=
  exists a,
    In a pool
    /\ _looks_like_audio_link (href a) (get_text a) = true
    /\ link = link_data (href a) (get_text a) track_name artist_name.

(** [found] is the normalised address of the first link of the highest
    relevance among the audio links of a results page that was fetched
    for [query]. *)
Definition chosen_from_page (timeout : Z) (query : str)
           (track_name artist_name : option str) (found : str) : Prop :=
  exists (w0 w1 : W) (response : Response) (pre : list link) (best : link)
         (post : list link),
    session_get (base_url ++ lit "/web/q?query=" ++ quote_plus query) timeout w0
    = (Ok response, w1)
    /\ Response_ok response = true
    /\ _find_audio_links select select_one item_find_all soup_find_all
         (BeautifulSoup response) track_name artist_name
       = pre ++ best :: post
    /\ first_of_highest pre best post
    /\ audio_link_of track_name artist_name
         (page_anchors (BeautifulSoup response)) best
    /\ found = _normalize_4shared_url (url best).

End PageVocabulary.

Section CatalogVocabulary.
Context {U : Unicode}.
Import YouTubeMusicSearcher.

(** [url] is the watch URL of an entry of [results] that has a non-empty
    identifier and that [_is_valid_music_result] accepts. *)
Definition watch_url_of_accepted (results : list entry) (url : str) : Prop :=
  exists result video_id,
    In result results
    /\ videoId result = IsStr video_id
    /\ video_id <> []
    /\ _is_valid_music_result result = Ok true
    /\ url = watch_prefix ++ video_id.

End CatalogVocabulary.

(* ------------------------------------------------------------------ *)
(** ** Where a URL came from *)

Section ProvenanceVocabulary.
Context {W : Type}.
Context (youtube_music_available : bool)
        (youtube_music_search youtube_scraper_search : str -> SE W (option str))
        (fourshared_scraper_search :
           str -> option str -> option str -> SE W (option str)).

(** [u] is what a call of the search function [f] returned. *)
Definition returned_by (f : SE W (option str)) (u : str) : Prop :=
  exists w w', f w = (Ok (Some u), w').

(** [u] is what the catalog search, where there is a client, or the web
    scraper returned for [query]. *)
Definition youtube_answer (query : str) (u : str) : Prop :=
  (youtube_music_available = true
   /\ returned_by (youtube_music_search query) u)
  \/ returned_by (youtube_scraper_search query) u.

(** The same for one of the search variants of a track. *)
Definition from_youtube (variants : list str) (u : str) : Prop :=
  exists variant, In variant variants /\ youtube_answer variant u.

(** [u] is what the file-host scraper returned for one of the search
    variants of the track. *)
Definition from_fourshared (track_name artist_name : option str)
           (variants : list str) (u : str) : Prop :=
  exists variant,
    In variant variants
    /\ returned_by (fourshared_scraper_search variant track_name artist_name) u.

(** Where the URL of a found result came from: [youtube_url] from a
    YouTube adapter, [fourshared_url] from the file-host adapter. *)
Definition provenance (track_name artist_name : option str)
           (variants : list str) (r : Result.t) : Prop :=
  (Result.youtube_url r <> [] /\ Result.fourshared_url r = []
   /\ from_youtube variants (Result.youtube_url r))
  \/ (Result.youtube_url r = [] /\ Result.fourshared_url r <> []
      /\ from_fourshared track_name artist_name variants
                         (Result.fourshared_url r)).

End ProvenanceVocabulary.

(** What a step of the retry controller returns is what its search
    function returned. *)
Definition brought {W : Type} (f : SE W (option str)) (r : res (option str))
           (s : @store W) : Prop :=
  match r with
  | Ok (Some u) => u <> [] /\ returned_by f u
  | _ => True
  end.

(** The store after [stats[key] += 1]. *)
Definition counted {W : Type} (f : Stats.t -> Stats.t) (st : @store W)
  : @store W :=
  set_bot st (Bot.set_stats (bot st) (f (Bot.stats (bot st)))).

(* ------------------------------------------------------------------ *)
(** ** What a trace shows *)

(** The number of calls of a search function a trace records. *)
Definition attempts_of (tr : list event) : nat :=
  length (List.filter (fun e => match e with EAttempt _ _ => true | _ => false end)
                      tr).

(** The time slept in a trace. *)
Definition slept (tr : list event) : Q := fold_right Qplus 0%Q (sleeps_of tr).

(** The trace ends with a call of a search function that brought [u]. *)
Definition ends_in_hit (tr : list event) (u : str) : Prop :=
  exists init k, tr = init ++ [EAttempt k (Ok (Some u))].

(** What holds of a URL a search step returns: it is not empty and the
    last thing that happened is the call that brought it. *)
Definition fresh_hit {W : Type} (r : res (option str)) (s : @store W) : Prop :=
  match r with
  | Ok (Some u) => u <> [] /\ ends_in_hit (trace s) u
  | _ => True
  end.

(** What holds of a found result: the one URL it carries is the one the
    last call of a search function brought. *)
Definition found_by_last_call {W : Type} (r : Result.t) (s : @store W) : Prop :=
  exists u,
    u <> [] /\ ends_in_hit (trace s) u
    /\ ((Result.youtube_url r = u /\ Result.fourshared_url r = [])
        \/ (Result.youtube_url r = [] /\ Result.fourshared_url r = u)).

(** What a progress report shows: the count of processed tracks, the
    total, and of the statistics snapshot [total_songs] and the sum of
    the terminal counters. *)
Definition report_view (e : event) : option (Z * Z * Z * Z) :=
  match e with
  | EProgress completed total snapshot _ =>
      Some (completed, total, Stats.total_songs snapshot, terminal_sum snapshot)
  | _ => None
  end.

Definition reports_of (tr : list event) : list (Z * Z * Z * Z) :=
  omap report_view tr.

(** [m] makes no progress report. *)
Definition quiet {W A : Type} (m : @M W A) : Prop :=
  forall st, reports_of (trace (snd (m st))) = reports_of (trace st).

(** The reports of a run over [n] tracks that starts from report number
    [i], with [total_songs] at [t0] and the terminal counters summing to
    [s0]: one per track, each one higher than the one before. *)
Definition reports_from (i total t0 s0 : Z) (n : nat) : list (Z * Z * Z * Z) :=
  map (fun k => (i + Z.of_nat k, total, t0 + Z.of_nat k, s0 + Z.of_nat k)%Z)
      (seq 1 n).

(* ------------------------------------------------------------------ *)
(** ** Rows and frames *)

(** The entry of [results] that belongs to a track. *)
Definition entry_of (track_data : TrackData.t) (entry : Result.t) : Prop :=
  Result.index entry = Some (TrackData.index track_data)
  /\ Result.track_name entry = Some (TrackData.track_name track_data)
  /\ Result.artist_name entry = Some (TrackData.artist_name track_data).

(** The three cells [run_playlist] writes for a result. *)
Definition cells_of (result : Result.t) : str * str * status :=
  (Result.youtube_url result, Result.fourshared_url result,
   Result.status_of result).

(** The last entry of [results] for the row of index [i]. *)
Definition last_for (i : Z) (results : list Result.t) : option Result.t :=
  last (List.filter (fun r => bool_decide (Result.index r = Some i)) results).

(** An error entry for a track: its index and names, no URL. *)
Definition error_for (track_data : TrackData.t) (entry : Result.t) : Prop :=
  entry_of track_data entry
  /\ Result.status_of entry = Error
  /\ Result.youtube_url entry = [] /\ Result.fourshared_url entry = [].

(** The entries one track leaves in [results]: the resolver's result
    for it and, when the report or the pause after it raised, an error
    entry for the same track. *)
Inductive left_by (track_data : TrackData.t) : list Result.t -> Prop :=
| left_one (r : Result.t) :
    entry_of track_data r -> left_by track_data [r]
| left_two (r e : Result.t) :
    entry_of track_data r -> error_for track_data e ->
    left_by track_data [r; e].

(** [entries] holds, track by track and in order, what each track
    left. *)
Definition accounted (tracks : list TrackData.t) (entries : list Result.t)
  : Prop :=
  exists groups, Forall2 left_by tracks groups /\ entries = concat groups.

(** *** A progress sink that is watched *)

(** The four arguments of a call of the progress sink. *)
Definition call : Type := (Z * Z * Stats.t * str)%type.

Section Watched.
Context {W : Type}.

(** A computation on the world, next to a record of the calls of the
    sink, which it leaves alone. *)
Definition aside {A} (f : SE W A) : SE (W * list call) A :=
  fun w => let '(r, w') := f (fst w) in (r, (w', snd w)).

Definition aside_uniform (random_uniform : Q -> Q -> W -> Q * W)
  : Q -> Q -> W * list call -> Q * (W * list call) :=
  fun a b w => let '(x, w') := random_uniform a b (fst w) in (x, (w', snd w)).

(** The sink itself, every call of it written down with the arguments
    it was given. *)
Definition recording (sink : Z -> Z -> Stats.t -> str -> SE W unit)
  : Z -> Z -> Stats.t -> str -> SE (W * list call) unit :=
  fun completed total snapshot label w =>
    let '(r, w') := sink completed total snapshot label (fst w) in
    (r, (w', snd w ++ [(completed, total, snapshot, label)])).

(** The store with an initial record of calls. *)
Definition watch (st : @store W) (calls : list call) : @store (W * list call) :=
  {| bot := bot st; world := (world st, calls); trace := trace st;
     results := results st |}.

(** [m] leaves the record of calls alone. *)
Definition apart {A} (m : @M (W * list call) A) : Prop :=
  forall st, snd (world (snd (m st))) = snd (world st).

End Watched.

(** The calls a run over [tracks] makes of its sink, from report number
    [i] on, with [total_songs] at [t0] and the terminal counters summing
    to [s0] before it: one call per track, in order, each with the next
    count, the total, a snapshot that counts one track more, and the
    label "track - artist". *)
Fixpoint told (total i t0 s0 : Z) (tracks : list TrackData.t)
         (calls : list call) : Prop :=
  match tracks, calls with
  | [], [] => True
  | track_data :: tracks', (completed, tot, snapshot, label) :: calls' =>
      completed = (i + 1)%Z /\ tot = total
      /\ Stats.total_songs snapshot = (t0 + 1)%Z
      /\ terminal_sum snapshot = (s0 + 1)%Z
      /\ label = TrackData.track_name track_data ++ lit " - "
                 ++ TrackData.artist_name track_data
      /\ told total (i + 1) (t0 + 1) (s0 + 1) tracks' calls'
  | _, _ => False
  end.

(* ------------------------------------------------------------------ *)
(** ** Shapes of text *)

(** A text without white space at either end. *)
Definition trimmed {U : Unicode} (s : str) : Prop :=
  lstrip s = s /\ lstrip (rev s) = rev s.

(** White space occurs in [s] only as single spaces; [after_space]
    tells that a space stands right before [s]. *)
Fixpoint single_spaced (after_space : bool) (s : str) : bool :=
  match s with
  | [] => true
  | c :: s' =>
      if Ascii_tables.isspace c
      then N.eqb c 32 && negb after_space && single_spaced true s'
      else single_spaced false s'
  end.

(** No upper-case letter of ASCII occurs in [s]. *)
Definition lower_case (s : str) : bool :=
  forallb (fun c => negb (Ascii_tables.is_upper c)) s.

(** The white space at the end of [p], given what stood before [p]. *)
Definition ends_in_space (after_space : bool) (p : str) : bool :=
  match last p with
  | Some c => Ascii_tables.isspace c
  | None => after_space
  end.

(** One side of the query, as [clean_query] leaves it with the ASCII
    tables. *)
Definition normal (s : str) : Prop :=
  single_spaced true s = true /\ lower_case s = true
  /\ trimmed (U := ascii_tables) s.

(* ------------------------------------------------------------------ *)
(** ** Concrete inputs *)

Module Scripted.

(** A bot as [run_playlist] builds it with the default settings of the
    web form: delay 1.5, three retries. *)
Definition bot0 : Bot.t := Bot.init (3 # 2) 3 2 10.

Definition store0 {W : Type} (w : W) : @store W :=
  {| bot := bot0; world := w; trace := []; results := [] |}.

(** A random generator that always answers the lower bound. *)
Definition lowest {W : Type} (a b : Q) (w : W) : Q * W := (a, w).

(** A search function that brings nothing on its first two calls and
    [found] from the third on; the world counts the calls. *)
Definition third_time_lucky (found : str) : SE nat (option str) :=
  fun calls => (if calls <? 2 then Ok None else Ok (Some found), S calls).

(** The response [raise_for_status] attaches to the [HTTPError] it
    raises on a rate-limited request. *)
Definition too_many_requests : Response := {|
  status_code := 429;
  headers_get := fun name =>
    if bool_decide (name = lit "Retry-After") then Some (lit "5") else None;
  text := lit ""
|}.

Definition rate_limited : SE unit (option str) :=
  fun w => (Raise (HTTPError (Some too_many_requests)), w).

(** A results page whose embedded data carries a ten-character
    identifier followed by a newline.  The page text spells the newline
    as the JSON escape (a backslash and the letter n); [loads] decodes
    it. *)
Definition padded_id : str := lit "abcdefghij" ++ [10%N].

Definition page_json : str :=
  lit "{" ++ YouTubeScraper.quote ++ lit "videoId" ++ YouTubeScraper.quote
  ++ lit ": " ++ YouTubeScraper.quote ++ lit "abcdefghij\n"
  ++ YouTubeScraper.quote ++ lit "}".

Definition page_html : str :=
  lit "<script>var ytInitialData = " ++ page_json ++ lit ";</script>".

(** [json.loads] on the one text these runs parse. *)
Definition loads (s : str) : res YouTubeScraper.json :=
  if bool_decide (s = page_json)
  then Ok (YouTubeScraper.JObject
             [(lit "videoId", YouTubeScraper.JString padded_id)])
  else Raise ValueError.

Definition get_page (url : str) (timeout : Z) : SE unit Response :=
  fun w => (Ok {| status_code := 200; headers_get := fun _ => None;
                  text := page_html |}, w).

Definition no_sleep (seconds : Q) : SE unit unit := fun w => (Ok tt, w).

(** A one-row playlist, a scraper that finds the track at once, and a
    progress sink that fails, as a dropped socket would make it.  The
    world keeps the frame handed to the file writer. *)
Definition one_row : list row :=
  [{| row_index := 0; track_cell := Some (lit "Song");
      artist_cell := Some (lit "Artist") |}].

Definition found_url : str := watch_prefix ++ lit "dQw4w9WgXcQ".

Definition scraper_finds (query : str) : SE (option frame) (option str) :=
  fun w => (Ok (Some found_url), w).

Definition nothing1 (query : str) : SE (option frame) (option str) :=
  fun w => (Ok None, w).

Definition nothing3 (query : str) (t a : option str)
  : SE (option frame) (option str) :=
  fun w => (Ok None, w).

Definition failing_sink (completed total : Z) (snapshot : Stats.t) (label : str)
  : SE (option frame) unit :=
  fun w => (Raise ConnectionError, w).

Definition keep_frame (df : frame) : SE (option frame) unit :=
  fun _ => (Ok tt, Some df).

Definition run_one_row : res Stats.t * @store (option frame) :=
  run_playlist (U := ascii_tables) lowest false nothing1 scraper_finds nothing3
               failing_sink keep_frame one_row (3 # 2) 3 2 (store0 None).

End Scripted.

Module Timed.
Import Binary64.

(** The controller of a bot with delay 0.1 and three retries. *)
Definition store0 {W : Type} (w : W) : @store W :=
  {| delay := 0.1; max_retries := 3; world := w; trace := [] |}.

(** The same with a delay of minus one second. *)
Definition backwards {W : Type} (w : W) : @store W :=
  {| delay := -1; max_retries := 3; world := w; trace := [] |}.

(** A random generator that always answers the lower bound. *)
Definition lowest {W : Type} (a b : float) (w : W) : float * W := (a, w).

End Timed.

Module Candidates.

(** The two candidates of the specification's example, for the track
    "Song" by "Artist". *)
Definition track : option str := Some (lit "Song").
Definition artist : option str := Some (lit "Artist").

Definition plain : FourSharedScraper.link :=
  FourSharedScraper.link_data (U := ascii_tables)
    (lit "/file/1") (lit "Artist - Song.mp3") track artist.

Definition remix : FourSharedScraper.link :=
  FourSharedScraper.link_data (U := ascii_tables)
    (lit "/file/2") (lit "Artist - Song (Remix).mp3") track artist.

End Candidates.

Module Entries.
Import YouTubeMusicSearcher.

(** A song whose title says it is an interview. *)
Definition interview_song : entry := {|
  videoId := IsStr (lit "abcdefghijk");
  title := IsStr (lit "Interview with the band");
  resultType := IsStr (lit "song");
  category := Absent
|}.

(** An entry that says nothing about its kind. *)
Definition untyped : entry := {|
  videoId := IsStr (lit "lmnopqrstuv");
  title := IsStr (lit "Hello");
  resultType := Absent;
  category := Absent
|}.

Definition a_playlist : entry := {|
  videoId := IsStr (lit "PLAYLIST001");
  title := IsStr (lit "Best of");
  resultType := IsStr (lit "playlist");
  category := IsStr (lit "Community playlists")
|}.

(** A song whose category is [None]. *)
Definition no_category : entry := {|
  videoId := IsStr (lit "wxyzabcdefg");
  title := IsStr (lit "Hello");
  resultType := IsStr (lit "song");
  category := IsNone
|}.

(** A provider that answers the filtered search with a playlist and the
    interview song, and the unfiltered one with nothing. *)
Definition provider (query : str) (filter : option str) (limit : Z)
  : SE unit (list entry) :=
  fun w =>
    match filter with
    | Some _ => (Ok [a_playlist; interview_song], w)
    | None => (Ok [], w)
    end.

End Entries.

Module Samples.

(** A results page whose embedded data holds one well-formed
    identifier. *)
Definition video_id : str := lit "dQw4w9WgXcQ".

Definition page_json : str :=
  lit "{" ++ YouTubeScraper.quote ++ lit "videoId" ++ YouTubeScraper.quote
  ++ lit ": " ++ YouTubeScraper.quote ++ video_id ++ YouTubeScraper.quote
  ++ lit "}".

Definition page_html : str :=
  lit "<script>var ytInitialData = " ++ page_json ++ lit ";</script>".

Definition loads (s : str) : res YouTubeScraper.json :=
  if bool_decide (s = page_json)
  then Ok (YouTubeScraper.JObject
             [(lit "videoId", YouTubeScraper.JString video_id)])
  else Raise ValueError.

Definition get_page (url : str) (timeout : Z) : SE unit Response :=
  fun w => (Ok {| status_code := 200; headers_get := fun _ => None;
                  text := page_html |}, w).

(** A file-host results page, as far as the scraper looks at it: the
    search items, each with its hyperlinks, and the other hyperlinks of
    the page. *)
Record page := {
  items : list (list FourSharedScraper.anchor);
  loose : list FourSharedScraper.anchor
}.

Definition select (soup : page) (selector : str)
  : list (list FourSharedScraper.anchor) :=
  if bool_decide (selector = lit "div.searchItem") then items soup else [].

Definition select_one (item : list FourSharedScraper.anchor) (selector : str)
  : option FourSharedScraper.anchor := None.

Definition item_find_all (item : list FourSharedScraper.anchor)
  : list FourSharedScraper.anchor := item.

Definition soup_find_all (soup : page) : list FourSharedScraper.anchor :=
  concat (items soup) ++ loose soup.

Definition results_page : page := {|
  items :=
    [[{| FourSharedScraper.href := lit "/folder/9";
         FourSharedScraper.get_text := lit "More" |};
      {| FourSharedScraper.href := lit "/file/1";
         FourSharedScraper.get_text := lit "Artist - Song.mp3" |}];
     [{| FourSharedScraper.href := lit "//cdn.example/2.mp3";
         FourSharedScraper.get_text := lit "Artist - Song (Remix)" |}]];
  loose := []
|}.

Definition get_results (url : str) (timeout : Z) : SE unit Response :=
  fun w => (Ok {| status_code := 200; headers_get := fun _ => None;
                  text := lit "" |}, w).

Definition parse (response : Response) : page := results_page.

Definition fourshared_search (query : str) : SE unit (option str) :=
  FourSharedScraper.search (U := ascii_tables)
    select select_one item_find_all soup_find_all
    id get_results parse Scripted.no_sleep
    10 query Candidates.track Candidates.artist 2.

(** An entry with an identifier and no title, and a provider that
    lists it between a playlist and a song. *)
Definition untitled : YouTubeMusicSearcher.entry := {|
  YouTubeMusicSearcher.videoId := YouTubeMusicSearcher.IsStr (lit "mnopqrstuvw");
  YouTubeMusicSearcher.title := YouTubeMusicSearcher.IsNone;
  YouTubeMusicSearcher.resultType := YouTubeMusicSearcher.IsStr (lit "song");
  YouTubeMusicSearcher.category := YouTubeMusicSearcher.Absent
|}.

Definition provider (query : str) (filter : option str) (limit : Z)
  : SE unit (list YouTubeMusicSearcher.entry) :=
  fun w => (Ok ([Entries.a_playlist] ++ untitled :: [Entries.interview_song]), w).

(** A playlist of three rows, the second without a track name, and a
    progress sink that accepts every report. *)
Definition three_rows : list row :=
  [{| row_index := 0; track_cell := Some (lit "Song");
      artist_cell := Some (lit "Artist") |};
   {| row_index := 1; track_cell := None;
      artist_cell := Some (lit "Artist") |};
   {| row_index := 2; track_cell := Some (lit " Other ");
      artist_cell := Some (lit "Band") |}].

Definition sink (completed total : Z) (snapshot : Stats.t) (label : str)
  : SE (option frame) unit :=
  fun w => (Ok tt, w).

(** The store before a run: the default bot, no file written yet. *)
Definition start : @store (option frame) := Scripted.store0 None.

Definition run_three_rows : res Stats.t * @store (option frame) :=
  run_playlist (U := ascii_tables) Scripted.lowest false Scripted.nothing1
               Scripted.scraper_finds Scripted.nothing3 sink
               Scripted.keep_frame three_rows (3 # 2) 3 2 start.

End Samples.

(* ================================================================== *)
(** * Properties *)

(* ------------------------------------------------------------------ *)
(** ** Variant generator *)

Section VariantFacts.
Context {U : Unicode}.

Lemma truthy_nonempty (s : str) : truthy s = true <-> s <> [].
Proof. destruct s; simpl; split; congruence. Qed.

Lemma truthy_app_l (s1 s2 : str) : truthy s1 = true -> truthy (s1 ++ s2) = true.
Proof. destruct s1; simpl; congruence. Qed.

Lemma candidates_truthy t a : Forall (fun v => truthy v = true) (candidates t a).
Proof.
  unfold candidates.
  set (main_query := clean_query (Some t) (Some a)).
  set (clean_track := normalize_text (Some (strip t))).
  set (clean_artist := normalize_text (Some (strip a))).
  repeat apply Forall_app_2.
  - destruct (truthy main_query) eqn:E; auto.
  - destruct (truthy clean_artist) eqn:Ea, (truthy clean_track) eqn:Et;
      cbn [andb]; auto.
    constructor; auto. now apply truthy_app_l.
  - destruct (3 <? length clean_track) eqn:E; auto.
    constructor; auto. apply Nat.ltb_lt in E.
    destruct clean_track; cbn in *; [lia | done].
Qed.

Lemma candidates_length t a : length (candidates t a) <= 3.
Proof.
  unfold candidates. rewrite !length_app.
  repeat match goal with |- context [if ?b then _ else _] => destruct b end;
    simpl; lia.
Qed.

(** The loop of the source, with its [seen] set and its output list,
    computes [first_seen_from] on entries that are all non-empty. *)
Lemma unique_loop_first_seen variants :
  forall (seen : gset str) (earlier unique_variants : list str),
    (forall x, x ∈ seen <-> x ∈ earlier) ->
    Forall (fun v => truthy v = true) variants ->
    unique_loop variants seen unique_variants
    = unique_variants ++ first_seen_from earlier variants.
Proof.
  induction variants as [|v rest IH]; intros seen earlier acc Hseen Hall; simpl.
  - now rewrite app_nil_r.
  - inversion Hall as [|? ? Hv Hrest]; subst. rewrite Hv. simpl.
    destruct (bool_decide (v ∈ seen)) eqn:Es.
    + apply bool_decide_eq_true in Es.
      rewrite bool_decide_eq_true_2 by now apply Hseen.
      simpl. now apply IH.
    + apply bool_decide_eq_false in Es.
      rewrite bool_decide_eq_false_2 by (intros Hin; now apply Es, Hseen).
      simpl. rewrite (IH _ (v :: earlier)); auto.
      * now rewrite <- app_assoc.
      * intros x. rewrite elem_of_union, elem_of_singleton, elem_of_cons.
        now rewrite Hseen.
Qed.

Lemma first_seen_from_length earlier l :
  length (first_seen_from earlier l) <= length l.
Proof.
  revert earlier. induction l as [|x l IH]; intros earlier; simpl; auto.
  destruct (bool_decide _); simpl; [specialize (IH earlier) | specialize (IH (x :: earlier))]; lia.
Qed.

Lemma first_seen_from_elem earlier l x :
  x ∈ first_seen_from earlier l -> x ∈ l /\ x ∉ earlier.
Proof.
  revert earlier. induction l as [|y l IH]; intros earlier; simpl.
  - intros H. inversion H.
  - destruct (bool_decide (y ∈ earlier)) eqn:E.
    + intros H. apply IH in H as [H1 H2]. split; auto. now right.
    + apply bool_decide_eq_false in E.
      rewrite elem_of_cons. intros [->|H].
      * split; auto. now left.
      * apply IH in H as [H1 H2]. split; [now right|].
        intros Hin. apply H2. now right.
Qed.

Lemma first_seen_from_NoDup earlier l : NoDup (first_seen_from earlier l).
Proof.
  revert earlier. induction l as [|y l IH]; intros earlier; simpl.
  - constructor.
  - destruct (bool_decide (y ∈ earlier)); auto.
    constructor; auto.
    intros Hin. apply first_seen_from_elem in Hin as [_ Hin].
    apply Hin. now left.
Qed.

Lemma generate_search_variants_strings t a :
  generate_search_variants (Some t) (Some a) = Ok (first_seen (candidates t a)).
Proof.
  unfold generate_search_variants, attr_strip.
  cbn [mbind res_mbind res_bind].
  set (main_query := clean_query (Some t) (Some a)).
  set (clean_track := normalize_text (Some (strip t))).
  set (clean_artist := normalize_text (Some (strip a))).
  assert (Hcand :
    (if truthy clean_track && (3 <? length clean_track)
     then (if truthy clean_artist && truthy clean_track
           then (if truthy main_query then [] ++ [main_query] else [])
                ++ [clean_artist ++ lit " " ++ clean_track]
           else (if truthy main_query then [] ++ [main_query] else []))
          ++ [clean_track]
     else (if truthy clean_artist && truthy clean_track
           then (if truthy main_query then [] ++ [main_query] else [])
                ++ [clean_artist ++ lit " " ++ clean_track]
           else (if truthy main_query then [] ++ [main_query] else [])))
    = candidates t a).
  { unfold candidates. fold main_query clean_track clean_artist.
    assert (Hlen : truthy clean_track && (3 <? length clean_track)
                   = (3 <? length clean_track)).
    { destruct clean_track; simpl; auto. }
    rewrite Hlen.
    destruct (3 <? length clean_track), (truthy clean_artist && truthy clean_track),
      (truthy main_query); simpl; auto. }
  unfold mret, res_ret. f_equal.
  rewrite Hcand.
  rewrite (unique_loop_first_seen _ ∅ [] []).
  - simpl. apply take_ge. fold (first_seen (candidates t a)).
    unfold first_seen.
    pose proof (first_seen_from_length [] (candidates t a)).
    pose proof (candidates_length t a). lia.
  - intros x. rewrite elem_of_nil. apply elem_of_empty.
  - apply candidates_truthy.
Qed.

Lemma first_seen_nonempty l :
  Forall (fun v => truthy v = true) l -> Forall (fun v : str => v <> []) (first_seen l).
Proof.
  intros Hall. apply Forall_forall. intros x Hx.
  apply first_seen_from_elem in Hx as [Hx _].
  rewrite Forall_forall in Hall. now apply truthy_nonempty, Hall.
Qed.

(** C7.  On two strings [generate_search_variants] returns, in this order,
    the cleaned query, the normalised artist followed by the normalised
    track, and the normalised track alone when it is longer than three
    characters, each only when present, with later repetitions of an
    earlier entry dropped; the list has at most three entries, no
    repetition and no empty string, and it is empty when both inputs are
    the empty string. *)
Theorem generate_search_variants_ordered_distinct (t a : str) :
  exists l,
    generate_search_variants (Some t) (Some a) = Ok l
    /\ l = first_seen (candidates t a)
    /\ length l <= 3
    /\ NoDup l
    /\ Forall (fun v : str => v <> []) l
    /\ generate_search_variants (Some (lit "")) (Some (lit "")) = Ok [].
Proof.
  exists (first_seen (candidates t a)).
  split; [apply generate_search_variants_strings|].
  split; [reflexivity|].
  split.
  { pose proof (first_seen_from_length [] (candidates t a)).
    pose proof (candidates_length t a). unfold first_seen. lia. }
  split; [apply first_seen_from_NoDup|].
  split; [apply first_seen_nonempty, candidates_truthy|].
  rewrite generate_search_variants_strings. reflexivity.
Qed.

(** C10.  [generate_search_variants] returns a list whenever both
    arguments are strings, and raises [AttributeError] as soon as one of
    them is [None]: [clean_query] answers the empty string for an absent
    argument, but the reordering step calls [strip] on the raw
    argument. *)
Theorem generate_search_variants_total_on_strings_only :
  (forall t a : str, exists l, generate_search_variants (Some t) (Some a) = Ok l)
  /\ (forall a : option str,
        clean_query None a = lit ""
        /\ generate_search_variants None a = Raise AttributeError)
  /\ (forall t : str,
        clean_query (Some t) None = lit ""
        /\ generate_search_variants (Some t) None = Raise AttributeError).
Proof.
  split; [|split].
  - intros t a. eexists. apply generate_search_variants_strings.
  - intros a. split; reflexivity.
  - intros t. split; reflexivity.
Qed.

End VariantFacts.

(** The normaliser and the generator on small inputs (ASCII tables). *)
Example clean_query_brackets :
  clean_query (U := ascii_tables)
    (Some (lit "Song (Live) [Remaster]")) (Some (lit "Band"))
  = lit "song band".
Proof. vm_compute. reflexivity. Qed.

Example clean_query_truncates :
  clean_query (U := ascii_tables)
    (Some (lit "Song One feat. X")) (Some (lit "  The  Band "))
  = lit "song one the band".
Proof. vm_compute. reflexivity. Qed.

Example variants_three :
  generate_search_variants (U := ascii_tables)
    (Some (lit "Song One feat. X")) (Some (lit "Band"))
  = Ok [lit "song one band"; lit "band song one feat. x";
        lit "song one feat. x"].
Proof. vm_compute. reflexivity. Qed.

Example variants_short_track :
  generate_search_variants (U := ascii_tables) (Some (lit "Go")) (Some (lit "Band"))
  = Ok [lit "go band"; lit "band go"].
Proof. vm_compute. reflexivity. Qed.

Example variants_repeated :
  generate_search_variants (U := ascii_tables) (Some (lit "abcd")) (Some (lit "abcd"))
  = Ok [lit "abcd abcd"; lit "abcd"].
Proof. vm_compute. reflexivity. Qed.

Example variants_one_empty :
  generate_search_variants (U := ascii_tables) (Some (lit "Hello")) (Some (lit ""))
  = Ok [lit "hello"].
Proof. vm_compute. reflexivity. Qed.

(* ------------------------------------------------------------------ *)
(** ** The bot: what a computation leaves untouched *)

Ltac se_unfold :=
  unfold mbind, mret, mthrow, SE_bind, SE_ret, SE_throw,
    SE.bind, SE.ret, SE.throw, SE.try_except, SE.lift, SE.modify, SE.get in *.

Section EngineFacts.
Context {U : Unicode} {W : Type}.
Context (random_uniform : Q -> Q -> W -> Q * W)
        (youtube_music_available : bool)
        (youtube_music_search youtube_scraper_search : str -> SE W (option str))
        (fourshared_scraper_search :
           str -> option str -> option str -> SE W (option str)).

Local Abbreviation store := (@store W).
Local Abbreviation M := (@M W).
Local Abbreviation search_with_retries := (_search_with_retries random_uniform).
Local Abbreviation search_youtube :=
  (_search_youtube random_uniform youtube_music_available
                   youtube_music_search youtube_scraper_search).
Local Abbreviation search_fourshared :=
  (_search_fourshared random_uniform fourshared_scraper_search).
Local Abbreviation resolve :=
  (search_single_track random_uniform youtube_music_available
                       youtube_music_search youtube_scraper_search
                       fourshared_scraper_search).
Local Abbreviation keeps := (keeps (W := W)).
Local Abbreviation after := (after (W := W)).
Local Abbreviation same := (same (W := W)).

Lemma keeps_ret {A} (a : A) : keeps (mret a : M A).
Proof. intros st. now se_unfold. Qed.

Lemma keeps_throw {A} (e : exn) : keeps (mthrow e : M A).
Proof. intros st. now se_unfold. Qed.

Lemma keeps_bind {A B} (m : M A) (f : A -> M B) :
  keeps m -> (forall a, keeps (f a)) -> keeps (m ≫= f).
Proof.
  intros Hm Hf st. se_unfold. specialize (Hm st).
  destruct (m st) as [[a|e] st1]; simpl in *; auto.
  destruct (Hf a st1) as [H1 H2]. destruct Hm as [H3 H4].
  split; congruence.
Qed.

Lemma keeps_try {A} (m : M A) (h : exn -> M A) :
  keeps m -> (forall e, keeps (h e)) -> keeps (try_except m h).
Proof.
  intros Hm Hh st. se_unfold. specialize (Hm st).
  destruct (m st) as [[a|e] st1]; simpl in *; auto.
  destruct (Hh e st1) as [H1 H2]. destruct Hm as [H3 H4].
  split; congruence.
Qed.

Lemma keeps_if {A} (b : bool) (m1 m2 : M A) :
  keeps m1 -> keeps m2 -> keeps (if b then m1 else m2).
Proof. now destruct b. Qed.

Lemma keeps_lift {A} (r : res A) : keeps (lift r : M A).
Proof. intros st. now se_unfold. Qed.

Lemma keeps_log (e : event) : keeps (modify (log e) : M unit).
Proof. intros st. now se_unfold. Qed.

Lemma keeps_in_world {A} (f : SE W A) : keeps (in_world f).
Proof. intros st. unfold in_world. now destruct (f (world st)). Qed.

Lemma keeps_time_sleep (seconds : Q) : keeps (time_sleep seconds).
Proof.
  unfold time_sleep. destruct (Qltb seconds 0).
  - apply keeps_throw.
  - apply keeps_log.
Qed.

Lemma keeps_uniform (a b : Q) : keeps (uniform random_uniform a b).
Proof. intros st. unfold uniform. now destruct (random_uniform a b (world st)). Qed.

Lemma keeps_self_delay : keeps (@self_delay W).
Proof. now intros st. Qed.

Lemma keeps_self_max_retries : keeps (@self_max_retries W).
Proof. now intros st. Qed.

Lemma keeps_invoke (f : SE W (option str)) (k : nat) : keeps (invoke f k).
Proof. intros st. unfold invoke. now destruct (f (world st)). Qed.

(** A response whose status is 429 is falsy, so the guard
    [e.response and e.response.status_code == 429] never holds. *)
Lemma rate_limit_guard_false (r : Response) :
  Response_bool r && (status_code r =? 429)%Z = false.
Proof.
  unfold Response_bool, Response_ok.
  destruct (status_code r =? 429)%Z eqn:E; [|apply andb_false_r].
  apply Z.eqb_eq in E. rewrite E. reflexivity.
Qed.

Lemma keeps_attempt_body (f : SE W (option str)) (k : nat) :
  keeps (attempt_body random_uniform f k).
Proof.
  unfold attempt_body. apply keeps_try.
  - apply keeps_bind.
    + apply keeps_if; [|apply keeps_ret].
      apply keeps_bind; [apply keeps_self_delay|]. intros d.
      apply keeps_bind; [apply keeps_uniform|]. intros j.
      apply keeps_time_sleep.
    + intros _. apply keeps_bind; [apply keeps_invoke|].
      intros r. apply keeps_if; apply keeps_ret.
  - intros e.
    assert (Hother : keeps
      (max_retries ← self_max_retries;
       (if (Z.of_nat k <? max_retries - 1)%Z
        then d ← self_delay; time_sleep (d * inject_Z (Z.of_nat k + 1))
        else mret tt);; mret None : M (option str))).
    { apply keeps_bind; [apply keeps_self_max_retries|]. intros n.
      apply keeps_bind; [|intros; apply keeps_ret].
      apply keeps_if; [|apply keeps_ret].
      apply keeps_bind; [apply keeps_self_delay|]. intros d.
      apply keeps_time_sleep. }
    destruct e; try exact Hother.
    destruct response as [r|]; [|apply keeps_ret].
    rewrite rate_limit_guard_false. apply keeps_ret.
Qed.

Lemma keeps_retry_loop (f : SE W (option str)) (remaining : nat) :
  forall k, keeps (retry_loop random_uniform f k remaining).
Proof.
  induction remaining as [|n IH]; intros k; simpl.
  - apply keeps_ret.
  - apply keeps_bind; [apply keeps_attempt_body|].
    intros [u|]; [apply keeps_ret | apply IH].
Qed.

Lemma keeps_search_with_retries (f : SE W (option str)) :
  keeps (search_with_retries f).
Proof.
  unfold _search_with_retries.
  apply keeps_bind; [apply keeps_self_max_retries|].
  intros n. apply keeps_retry_loop.
Qed.

Lemma keeps_search_youtube (query : str) : keeps (search_youtube query).
Proof.
  unfold _search_youtube. apply keeps_bind.
  - apply keeps_if; [|apply keeps_ret].
    apply keeps_bind; [apply keeps_search_with_retries|].
    intros url. apply keeps_if; apply keeps_ret.
  - intros [url|]; [apply keeps_ret|].
    apply keeps_bind; [apply keeps_search_with_retries|].
    intros url. apply keeps_if; apply keeps_ret.
Qed.

Lemma keeps_search_fourshared (query : str) (t a : option str) :
  keeps (search_fourshared query t a).
Proof. apply keeps_search_with_retries. Qed.

(** *** Reasoning about a computation by what holds after it *)

Lemma after_mono {A} (m : M A) (st : store) (Q Q' : res A -> store -> Prop) :
  after m st Q -> (forall r s, Q r s -> Q' r s) -> after m st Q'.
Proof. unfold after. auto. Qed.

Lemma after_ret {A} (a : A) (st : store) (Q : res A -> store -> Prop) :
  Q (Ok a) st -> after (mret a : M A) st Q.
Proof. auto. Qed.

Lemma after_throw {A} (e : exn) (st : store) (Q : res A -> store -> Prop) :
  Q (Raise e) st -> after (mthrow e : M A) st Q.
Proof. auto. Qed.

Lemma after_bind {A B} (m : M A) (f : A -> M B) (st : store)
      (Q : res B -> store -> Prop) :
  after m st (fun r s =>
                match r with
                | Ok a => after (f a) s Q
                | Raise e => Q (Raise e) s
                end) ->
  after (m ≫= f) st Q.
Proof.
  unfold after. se_unfold. destruct (m st) as [[a|e] s]; simpl; auto.
Qed.

Lemma after_try {A} (m : M A) (h : exn -> M A) (st : store)
      (Q : res A -> store -> Prop) :
  after m st (fun r s =>
                match r with
                | Ok a => Q (Ok a) s
                | Raise e => after (h e) s Q
                end) ->
  after (try_except m h) st Q.
Proof.
  unfold after. se_unfold. destruct (m st) as [[a|e] s]; simpl; auto.
Qed.

Lemma after_modify (f : store -> store) (st : store)
      (Q : res unit -> store -> Prop) :
  Q (Ok tt) (f st) -> after (modify f) st Q.
Proof. auto. Qed.

Lemma after_get (st : store) (Q : res store -> store -> Prop) :
  Q (Ok st) st -> after (get : M store) st Q.
Proof. auto. Qed.

Lemma after_lift {A} (r : res A) (st : store) (Q : res A -> store -> Prop) :
  Q r st -> after (lift r : M A) st Q.
Proof. auto. Qed.

Lemma after_keeps {A} (m : M A) (st : store) :
  keeps m ->
  after m st (fun _ s => bot s = bot st /\ results s = results st).
Proof. intros H. apply H. Qed.

Lemma after_any {A} (m : M A) (st : store) (P : res A -> store -> Prop) :
  (forall r s, P r s) -> after m st P.
Proof. intros H. apply H. Qed.

Lemma after_then_none {A} (m : M A) (st : store) :
  after (m ;; mret None : M (option str)) st
        (fun r _ => forall u, r <> Ok (Some u)).
Proof.
  apply after_bind, after_any. intros [a|e] s; [apply after_ret|]; congruence.
Qed.

Lemma after_both {A} (m : M A) (st : store) (P Q : res A -> store -> Prop) :
  after m st P -> after m st Q -> after m st (fun r s => P r s /\ Q r s).
Proof. intros HP HQ. split; [exact HP|exact HQ]. Qed.

(** *** The track resolver: one outcome per call *)

Lemma same_trans (st s1 s2 : store) : same st s1 -> same s1 s2 -> same st s2.
Proof. unfold same. intros [] []. split; congruence. Qed.

Lemma search_youtube_returns (query : str) (st : store) :
  after (search_youtube query) st
        (fun r s =>
           same st s /\
           match r with
           | Ok (Some u) => u <> [] /\ is_valid_youtube_url (Some u) = true
           | _ => True
           end).
Proof.
  assert (Hcheck : forall (url : option str) (s0 s : store),
            same s0 s ->
            after (if otruthy url && is_valid_youtube_url url
                   then mret url else mret None : M (option str)) s
                  (fun r s' =>
                     same s0 s' /\
                     match r with
                     | Ok (Some u) => u <> [] /\ is_valid_youtube_url (Some u) = true
                     | _ => True
                     end)).
  { intros url s0 s Hs.
    destruct (otruthy url && is_valid_youtube_url url) eqn:E;
      apply after_ret; split; auto.
    apply andb_true_iff in E as [E1 E2].
    destruct url as [w|]; [|discriminate].
    split; auto. now apply truthy_nonempty. }
  assert (Hscraper : forall s, same st s ->
            after (url ← search_with_retries (youtube_scraper_search query);
                   if otruthy url && is_valid_youtube_url url
                   then mret url else mret None : M (option str)) s
                  (fun r s' =>
                     same st s' /\
                     match r with
                     | Ok (Some u) => u <> [] /\ is_valid_youtube_url (Some u) = true
                     | _ => True
                     end)).
  { intros s Hs. apply after_bind.
    eapply after_mono; [apply after_keeps, keeps_search_with_retries|].
    intros [url|e] s1 H1; cbn beta iota.
    - apply Hcheck. eapply same_trans; eauto.
    - split; auto. eapply same_trans; eauto. }
  unfold _search_youtube. apply after_bind.
  destruct youtube_music_available.
  - apply after_bind.
    eapply after_mono; [apply after_keeps, keeps_search_with_retries|].
    intros [url|e] s1 H1; cbn beta iota.
    + eapply after_mono; [apply (Hcheck url st s1 H1)|].
      intros [[u|]|e] s2 [H2 Hu]; cbn beta iota.
      * apply after_ret. auto.
      * now apply Hscraper.
      * auto.
    + auto.
  - apply after_ret. apply Hscraper. split; reflexivity.
Qed.

Lemma loop_outcome_from (st s1 : store) t a r (s : store) :
  same st s1 -> loop_outcome t a s1 r s -> loop_outcome t a st r s.
Proof.
  unfold loop_outcome, bumped, same. intros [Hb Hr].
  destruct r as [[found|]|e]; rewrite ?Hb, ?Hr; auto.
Qed.

Lemma variants_loop_outcome (t a : option str) (final : option str)
      (variants : list str) :
  forall st,
    after (variants_loop random_uniform youtube_music_available
                         youtube_music_search youtube_scraper_search
                         fourshared_scraper_search
                         t a (blank_result t a) final variants)
          st (loop_outcome t a st).
Proof.
  induction variants as [|v rest IH]; intros st.
  - apply after_ret. split; reflexivity.
  - cbn [variants_loop]. apply after_bind.
    eapply after_mono; [apply search_youtube_returns|].
    intros r s1 [H1 Hu].
    assert (Hrest :
      after (fourshared_url ← search_fourshared v t a;
             match fourshared_url with
             | Some (c :: u) =>
                 update_stats (Stats.bump Stats.FoursharedFound);;
                 mret (Some (Result.set_fourshared (blank_result t a) (c :: u)))
             | _ =>
                 (if negb (bool_decide (Some v = final))
                  then d ← self_delay; time_sleep (d * (1 # 2))
                  else mret tt);;
                 variants_loop random_uniform youtube_music_available
                   youtube_music_search youtube_scraper_search
                   fourshared_scraper_search t a (blank_result t a) final rest
             end) s1 (loop_outcome t a st)).
    { apply after_bind.
      eapply after_mono; [apply after_keeps, keeps_search_fourshared|].
      intros [fs|e] s2 H2; cbn beta iota;
        [|eapply same_trans; eauto].
      assert (Hnext :
        after ((if negb (bool_decide (Some v = final))
                then d ← self_delay; time_sleep (d * (1 # 2))
                else mret tt);;
               variants_loop random_uniform youtube_music_available
                 youtube_music_search youtube_scraper_search
                 fourshared_scraper_search t a (blank_result t a) final rest)
              s2 (loop_outcome t a st)).
      { apply after_bind.
        eapply after_mono.
        - apply after_keeps. apply keeps_if; [|apply keeps_ret].
          apply keeps_bind; [apply keeps_self_delay|].
          intros d. apply keeps_time_sleep.
        - intros [[]|e] s3 H3; cbn beta iota.
          + eapply after_mono; [apply IH|].
            intros r' s4. apply loop_outcome_from.
            eapply same_trans; [|exact H3]. eapply same_trans; eauto.
          + eapply same_trans; [|exact H3]. eapply same_trans; eauto. }
      destruct fs as [[|c u]|]; try exact Hnext.
      apply after_bind. apply after_modify. apply after_ret.
      exists Stats.FoursharedFound. split; [now right|]. split.
      - exists (c :: u). split; [discriminate|reflexivity].
      - destruct H1 as [Hb1 Hr1], H2 as [Hb2 Hr2].
        unfold bumped. simpl. rewrite Hb2, Hb1, Hr2, Hr1. auto. }
    destruct r as [[[|c u]|]|e]; try exact Hrest; [|exact H1].
    apply after_bind. apply after_modify. apply after_ret.
    exists Stats.YoutubeFound. split; [now left|]. split.
    + exists (c :: u). destruct Hu. auto.
    + destruct H1 as [Hb1 Hr1]. unfold bumped. simpl. rewrite Hb1, Hr1. auto.
Qed.

Lemma resolve_outcome (t a : option str) (st : store) :
  exists c r st',
    resolve t a st = (Ok r, st')
    /\ result_for c t a r
    /\ bumped c (set_bot st (Bot.set_stats (bot st)
                               (Stats.bump_total (Bot.stats (bot st))))) st'.
Proof.
  set (st0 := set_bot st (Bot.set_stats (bot st)
                            (Stats.bump_total (Bot.stats (bot st))))).
  assert (H : after (resolve t a) st
                    (fun r s => exists c found,
                         r = Ok found /\ result_for c t a found
                         /\ bumped c st0 s)).
  { unfold search_single_track. fold (blank_result t a).
    apply after_bind. apply after_modify. fold st0.
    assert (Herr : after (update_stats (Stats.bump Stats.Errors);;
                          mret (Result.set_status (blank_result t a) Error) : M Result.t)
                         st0
                         (fun r s => exists c found,
                              r = Ok found /\ result_for c t a found
                              /\ bumped c st0 s)).
    { apply after_bind. apply after_modify. apply after_ret.
      exists Stats.Errors. eexists. repeat split. }
    apply after_try. apply after_bind. apply after_lift.
    destruct (generate_search_variants t a) as [[|v vs]|e]; try exact Herr.
    apply after_bind.
    eapply after_mono; [apply variants_loop_outcome|].
    intros [[found|]|e] s Hs; cbn beta iota.
    - apply after_ret. destruct Hs as (c & _ & Hf & Hb). eauto.
    - apply after_bind. apply after_modify. apply after_ret.
      exists Stats.NotFound. eexists. split; [reflexivity|].
      split; [reflexivity|]. destruct Hs as [Hb Hr].
      unfold bumped. simpl. rewrite Hb, Hr. auto.
    - apply after_bind. apply after_modify. apply after_ret.
      exists Stats.Errors. eexists. split; [reflexivity|].
      split; [reflexivity|]. destruct Hs as [Hb Hr].
      unfold bumped. simpl. rewrite Hb, Hr. auto. }
  unfold after in H. destruct H as (c & found & Hr & Hf & Hb).
  exists c, found, (snd (resolve t a st)). split; auto.
  rewrite <- Hr. apply surjective_pairing.
Qed.

Lemma resolve_counts (t a : option str) (st : store) :
  exists r st',
    resolve t a st = (Ok r, st')
    /\ Stats.total_songs (Bot.stats (bot st'))
       = (Stats.total_songs (Bot.stats (bot st)) + 1)%Z
    /\ one_terminal_more (Bot.stats (bot st)) (Bot.stats (bot st')).
Proof.
  destruct (resolve_outcome t a st) as (c & r & st' & Hrun & _ & Hb & _).
  exists r, st'. split; auto. rewrite Hb. unfold one_terminal_more.
  destruct c; simpl; auto 10.
Qed.

Lemma resolve_all_counts (calls : list (option str * option str)) :
  forall st,
    terminal_sum (Bot.stats (bot st)) = Stats.total_songs (Bot.stats (bot st)) ->
    exists rs st',
      resolve_all random_uniform youtube_music_available
             youtube_music_search youtube_scraper_search
             fourshared_scraper_search calls st = (Ok rs, st')
      /\ length rs = length calls
      /\ terminal_sum (Bot.stats (bot st'))
         = Stats.total_songs (Bot.stats (bot st'))
      /\ Stats.total_songs (Bot.stats (bot st'))
         = (Stats.total_songs (Bot.stats (bot st)) + Z.of_nat (length calls))%Z.
Proof.
  induction calls as [|[t a] rest IH]; intros st Hinv.
  - exists [], st. simpl. repeat split; auto. lia.
  - destruct (resolve_counts t a st) as (r & st1 & Hrun & Htot & Hone).
    destruct (IH st1) as (rs & st2 & Hrest & Hlen & Hsum & Htot2).
    { unfold terminal_sum in *. destruct Hone as [H|[H|[H|H]]];
        destruct H as (? & ? & ? & ?); lia. }
    exists (r :: rs), st2. cbn [resolve_all]. se_unfold.
    rewrite Hrun, Hrest. simpl. repeat split; auto; lia.
Qed.

(** C1.  Every call of [search_single_track] returns, adds one to
    [total_songs] and adds one to exactly one of the four terminal
    counters; hence after any sequence of calls on a bot whose counters
    start at zero, the terminal counters sum to [total_songs], which is
    the number of calls. *)
Theorem search_single_track_counts_once :
  (forall (t a : option str) (st : store),
      exists r st',
        resolve t a st = (Ok r, st')
        /\ Stats.total_songs (Bot.stats (bot st'))
           = (Stats.total_songs (Bot.stats (bot st)) + 1)%Z
        /\ one_terminal_more (Bot.stats (bot st)) (Bot.stats (bot st')))
  /\ (forall (calls : list (option str * option str)) (st : store),
         exists rs st',
           resolve_all random_uniform youtube_music_available
             youtube_music_search youtube_scraper_search
             fourshared_scraper_search calls (zeroed st) = (Ok rs, st')
           /\ terminal_sum (Bot.stats (bot st'))
              = Stats.total_songs (Bot.stats (bot st'))
           /\ Stats.total_songs (Bot.stats (bot st'))
              = Z.of_nat (length calls)).
Proof.
  split.
  - apply resolve_counts.
  - intros calls st.
    destruct (resolve_all_counts calls (zeroed st)) as (rs & st' & Hrun & _ & Hsum & Htot).
    { reflexivity. }
    exists rs, st'. repeat split; auto.
Qed.

End EngineFacts.

(* ------------------------------------------------------------------ *)
(** ** Retry/backoff controller *)

Section RetryFacts.
Context {U : Unicode} {W : Type}.
Context (random_uniform : Q -> Q -> W -> Q * W).

Local Abbreviation store := (@store W).
Local Abbreviation M := (@M W).
Local Abbreviation search_with_retries := (_search_with_retries random_uniform).
Local Abbreviation after := (after (W := W)).

Lemma Qltb_0_false (x : Q) : (0 <= x)%Q -> Qltb x 0 = false.
Proof.
  intros H. unfold Qltb. apply negb_false_iff. now apply Qle_bool_iff.
Qed.

Lemma inject_Z_nonneg (z : Z) : (0 <= z)%Z -> (0 <= inject_Z z)%Q.
Proof. intros H. unfold Qle. simpl. lia. Qed.

Lemma py_min_nonneg (a b : Q) : (0 <= a)%Q -> (0 <= b)%Q -> (0 <= py_min a b)%Q.
Proof. intros Ha Hb. unfold py_min. now destruct (Qltb b a). Qed.

Lemma backoff_nonneg (d : Q) (k : nat) (j : Q) :
  (0 <= d)%Q -> jitter_ok j -> (0 <= backoff d k j)%Q.
Proof.
  intros Hd [Hj _]. unfold backoff. apply py_min_nonneg; [|discriminate].
  apply Qle_trans with (0 + (1 # 10))%Q; [discriminate|].
  apply Qplus_le_compat; auto.
  apply Qmult_le_0_compat; auto. apply inject_Z_nonneg. lia.
Qed.

Lemma after_self_delay (st : store) (P : res Q -> store -> Prop) :
  P (Ok (Bot.delay (bot st))) st -> after self_delay st P.
Proof. auto. Qed.

Lemma after_self_max_retries (st : store) (P : res Z -> store -> Prop) :
  P (Ok (Bot.max_retries (bot st))) st -> after self_max_retries st P.
Proof. auto. Qed.

Lemma after_uniform (a b : Q) (st : store) (P : res Q -> store -> Prop) :
  P (Ok (fst (random_uniform a b (world st))))
    (set_world st (snd (random_uniform a b (world st)))) ->
  after (uniform random_uniform a b) st P.
Proof.
  unfold after, uniform. now destruct (random_uniform a b (world st)).
Qed.

Lemma after_time_sleep (x : Q) (st : store) (P : res unit -> store -> Prop) :
  (0 <= x)%Q -> P (Ok tt) (log (ESleep x) st) -> after (time_sleep x) st P.
Proof.
  intros Hx HP. unfold after, time_sleep. now rewrite Qltb_0_false.
Qed.

Lemma after_invoke (f : SE W (option str)) (k : nat) (st : store)
      (P : res (option str) -> store -> Prop) :
  P (fst (f (world st)))
    (log (EAttempt k (fst (f (world st)))) (set_world st (snd (f (world st))))) ->
  after (invoke f k) st P.
Proof. unfold after, invoke. now destruct (f (world st)). Qed.

Lemma drawn_ok (k : nat) (w : W) : uniform_in_range random_uniform -> jitter_ok (fst (drawn random_uniform k w)).
Proof.
  intros Huni. unfold drawn. destruct (0 <? k); [|split; discriminate].
  apply Huni. discriminate.
Qed.

(** One iteration, from a store whose delay is not negative: it ends
    without raising, leaves the bot alone and adds to the trace the
    backoff sleep (from attempt 1 on), the attempt and the recovery
    sleep. *)
Lemma attempt_body_run (f : SE W (option str)) (k : nat) (st : store) :
  uniform_in_range random_uniform ->
  (0 <= Bot.delay (bot st))%Q ->
  after (attempt_body random_uniform f k) st
        (fun r s =>
           let j := fst (drawn random_uniform k (world st)) in
           let o := fst (f (snd (drawn random_uniform k (world st)))) in
           r = Ok (hit o)
           /\ bot s = bot st
           /\ results s = results st
           /\ world s = snd (f (snd (drawn random_uniform k (world st))))
           /\ trace s =
              trace st
              ++ (if 0 <? k
                  then [ESleep (backoff (Bot.delay (bot st)) k j)] else [])
              ++ [EAttempt k o]
              ++ recovery (Bot.delay (bot st)) (Bot.max_retries (bot st)) k o).
Proof.
  intros Huni Hd.
  set (d := Bot.delay (bot st)). set (n := Bot.max_retries (bot st)).
  pose proof (drawn_ok k (world st) Huni) as Hj.
  set (j := fst (drawn random_uniform k (world st))) in *.
  set (w0 := snd (drawn random_uniform k (world st))).
  set (pre := if 0 <? k then [ESleep (backoff d k j)] else []).
  cbn zeta.
  match goal with |- after _ _ ?P => set (Post := P) end.
  assert (Hend : forall (s : store),
             bot s = bot st -> results s = results st ->
             world s = snd (f w0) ->
             trace s = trace st ++ pre ++ [EAttempt k (fst (f w0))]
                       ++ recovery d n k (fst (f w0)) ->
             Post (Ok (hit (fst (f w0)))) s).
  { intros s Hb Hr Hw Ht. repeat split; auto. }
  unfold attempt_body. apply after_try. apply after_bind.
  apply after_mono with
    (Q := fun r s => r = Ok tt /\ bot s = bot st /\ results s = results st
                     /\ world s = w0 /\ trace s = trace st ++ pre).
  { unfold pre, j, w0, drawn. destruct (0 <? k) eqn:Ek.
    - apply after_bind, after_self_delay, after_bind, after_uniform.
      apply after_time_sleep.
      + apply backoff_nonneg; auto.
        unfold j, drawn in Hj. now rewrite Ek in Hj.
      + cbn [bot results world trace log set_world]. auto.
    - apply after_ret. rewrite app_nil_r. auto. }
  intros r s1 (-> & Hb1 & Hr1 & Hw1 & Ht1).
  apply after_bind, after_invoke. rewrite Hw1.
  destruct (f w0) as [[r|e] w] eqn:Ef; cbn [fst snd] in *.
  - assert (Hok : Post (Ok (hit (Ok r)))
                       (log (EAttempt k (Ok r)) (set_world s1 w))).
    { apply Hend; cbn [bot results world trace log set_world]; auto.
      rewrite Ht1, <- app_assoc. reflexivity. }
    destruct r as [[|c u]|]; apply after_ret; exact Hok.
  - assert (Hquiet : recovery d n k (Raise e) = [] ->
                     Post (Ok None) (log (EAttempt k (Raise e)) (set_world s1 w))).
    { intros Hrec. refine (Hend _ _ _ _ _);
        cbn [bot results world trace log set_world]; auto.
      rewrite Hrec, Ht1, <- app_assoc. reflexivity. }
    assert (Hother :
      recovery d n k (Raise e)
      = (if (Z.of_nat k <? n - 1)%Z
         then [ESleep (d * inject_Z (Z.of_nat k + 1))] else []) ->
      after (max_retries ← self_max_retries;
             (if (Z.of_nat k <? max_retries - 1)%Z
              then d ← self_delay;
                   time_sleep (d * inject_Z (Z.of_nat k + 1))
              else mret tt);;
             mret None : M (option str))
            (log (EAttempt k (Raise e)) (set_world s1 w)) Post).
    { intros Hrec. apply after_bind, after_self_max_retries.
      cbn [bot log set_world].
      rewrite Hb1. fold n. apply after_bind.
      destruct (Z.of_nat k <? n - 1)%Z eqn:Ek.
      - apply after_bind, after_self_delay. cbn [bot log set_world].
        rewrite Hb1. fold d. apply after_time_sleep.
        + apply Qmult_le_0_compat; auto. apply inject_Z_nonneg. lia.
        + apply after_ret. refine (Hend _ _ _ _ _);
            cbn [bot results world trace log set_world]; auto.
          rewrite Hrec, Ht1, <- !app_assoc. reflexivity.
      - apply after_ret, after_ret. now apply Hquiet. }
    destruct e; try (apply Hother; reflexivity).
    destruct response as [r|].
    + rewrite rate_limit_guard_false. apply after_ret. now apply Hquiet.
    + apply after_ret. now apply Hquiet.
Qed.

Lemma recovery_hit (d : Q) (n : Z) (k : nat) (o : res (option str)) (u : str) :
  hit o = Some u -> recovery d n k o = [].
Proof. destruct o as [r|e]; [reflexivity|discriminate]. Qed.

Lemma retry_loop_runs (f : SE W (option str)) (remaining : nat) :
  uniform_in_range random_uniform ->
  forall (k : nat) (st : store),
    (0 <= Bot.delay (bot st))%Q ->
    after (retry_loop random_uniform f k remaining) st
          (fun r s =>
             exists result runs,
               r = Ok result
               /\ bot s = bot st
               /\ results s = results st
               /\ trace s =
                  trace st
                  ++ expected_trace (Bot.delay (bot st))
                                    (Bot.max_retries (bot st)) k runs
               /\ Forall (fun run => jitter_ok (fst run)) runs
               /\ ends_with remaining runs result).
Proof.
  intros Huni. induction remaining as [|rem IH]; intros k st Hd.
  - apply after_ret. exists None, []. cbn [expected_trace].
    rewrite app_nil_r. repeat split; auto. constructor.
  - cbn [retry_loop]. apply after_bind.
    eapply after_mono; [now apply attempt_body_run|].
    cbn zeta. intros r s (-> & Hb & Hr & Hw & Ht).
    set (j := fst (drawn random_uniform k (world st))) in *.
    set (o := fst (f (snd (drawn random_uniform k (world st))))) in *.
    destruct (hit o) as [u|] eqn:Eo.
    + apply after_ret. exists (Some u), [(j, o)]. cbn [expected_trace].
      rewrite (recovery_hit _ _ _ _ _ Eo) in *. rewrite app_nil_r.
      repeat split; auto.
      * constructor; [|constructor]. now apply drawn_ok.
      * exists [], j, o. repeat split; auto; [constructor | simpl; lia].
    + eapply after_mono; [apply IH; now rewrite Hb|].
      intros r' s' (result & runs & -> & Hb' & Hr' & Ht' & Hj' & Hend).
      exists result, ((j, o) :: runs). rewrite Hb in *.
      repeat split; auto; try congruence.
      * rewrite Ht', Ht. cbn [expected_trace]. now rewrite <- !app_assoc.
      * constructor; auto. now apply drawn_ok.
      * destruct result as [u|]; cbn [ends_with] in *.
        -- destruct Hend as (init & j' & o' & -> & Ho' & Hinit & Hlen).
           exists ((j, o) :: init), j', o'. repeat split; auto.
           ++ constructor; auto.
           ++ simpl in *. lia.
        -- destruct Hend as [Hall Hlen]. split; [constructor; auto|].
           simpl. lia.
Qed.

End RetryFacts.

(* ------------------------------------------------------------------ *)
(** ** The track resolver: which adapter a URL comes from *)

Section ResolverProvenance.
Context {U : Unicode} {W : Type}.
Context (random_uniform : Q -> Q -> W -> Q * W)
        (youtube_music_available : bool)
        (youtube_music_search youtube_scraper_search : str -> SE W (option str))
        (fourshared_scraper_search :
           str -> option str -> option str -> SE W (option str)).

Local Abbreviation store := (@store W).
Local Abbreviation M := (@M W).
Local Abbreviation after := (after (W := W)).
Local Abbreviation search_with_retries := (_search_with_retries random_uniform).
Local Abbreviation search_youtube :=
  (_search_youtube random_uniform youtube_music_available
                   youtube_music_search youtube_scraper_search).
Local Abbreviation search_fourshared :=
  (_search_fourshared random_uniform fourshared_scraper_search).
Local Abbreviation loop :=
  (variants_loop random_uniform youtube_music_available
                 youtube_music_search youtube_scraper_search
                 fourshared_scraper_search).
Local Abbreviation resolve :=
  (search_single_track random_uniform youtube_music_available
                       youtube_music_search youtube_scraper_search
                       fourshared_scraper_search).
Local Abbreviation youtube_answer :=
  (youtube_answer youtube_music_available youtube_music_search
                  youtube_scraper_search).
Local Abbreviation from_youtube :=
  (from_youtube youtube_music_available youtube_music_search
                youtube_scraper_search).
Local Abbreviation from_fourshared :=
  (from_fourshared fourshared_scraper_search).
Local Abbreviation provenance :=
  (provenance youtube_music_available youtube_music_search
              youtube_scraper_search fourshared_scraper_search).

Lemma attempt_body_brought (f : SE W (option str)) (k : nat) (st : store) :
  after (attempt_body random_uniform f k) st (brought f).
Proof.
  assert (Hnone : forall (r : res (option str)) (s : store),
             (forall u, r <> Ok (Some u)) -> brought f r s).
  { intros [[u|]|e] s H; cbn; auto. now destruct (H u). }
  unfold attempt_body. apply after_try, after_bind, after_any.
  intros [[]|e] s.
  - apply after_bind, after_invoke.
    destruct (f (world s)) as [[[[|c u]|]|e] w] eqn:Ef;
      cbn [fst snd otruthy truthy]; try (apply after_ret; exact I).
    + apply after_ret. cbn. split; [discriminate|].
      exists (world s), w. exact Ef.
    + cbn beta iota.
      destruct e; try (eapply after_mono; [apply after_then_none|auto]).
      destruct response as [r|]; [|apply after_ret; exact I].
      rewrite rate_limit_guard_false. apply after_ret. exact I.
  - destruct e; try (eapply after_mono; [apply after_then_none|auto]).
    destruct response as [r|]; [|apply after_ret; exact I].
    rewrite rate_limit_guard_false. apply after_ret. exact I.
Qed.

Lemma retry_loop_brought (f : SE W (option str)) (remaining : nat) :
  forall (k : nat) (st : store),
    after (retry_loop random_uniform f k remaining) st (brought f).
Proof.
  induction remaining as [|n IH]; intros k st; [apply after_ret; exact I|].
  cbn [retry_loop]. apply after_bind.
  eapply after_mono; [apply attempt_body_brought|].
  intros [[u|]|e] s H; cbn beta iota; [apply after_ret; exact H|apply IH|exact I].
Qed.

Lemma search_with_retries_brought (f : SE W (option str)) (st : store) :
  after (search_with_retries f) st (brought f).
Proof.
  unfold _search_with_retries. apply after_bind, after_self_max_retries.
  apply retry_loop_brought.
Qed.

Lemma search_youtube_brought (query : str) (st : store) :
  after (search_youtube query) st
        (fun r _ =>
           match r with
           | Ok (Some u) => u <> [] /\ youtube_answer query u
           | _ => True
           end).
Proof.
  assert (Hcheck : forall (f : SE W (option str)) (url : option str) (s : store),
             brought f (Ok url) s ->
             after (if otruthy url && is_valid_youtube_url url
                    then mret url else mret None : M (option str)) s
                   (brought f)).
  { intros f url s H. destruct (otruthy url && is_valid_youtube_url url);
      apply after_ret; [exact H|exact I]. }
  assert (Hscraper : forall s,
    after (url ← search_with_retries (youtube_scraper_search query);
           if otruthy url && is_valid_youtube_url url
           then mret url else mret None : M (option str)) s
          (fun r _ =>
             match r with
             | Ok (Some u) => u <> [] /\ youtube_answer query u
             | _ => True
             end)).
  { intros s. apply after_bind.
    eapply after_mono; [apply search_with_retries_brought|].
    intros [url|e] s1 H; [|exact I].
    eapply after_mono; [apply (Hcheck _ url s1 H)|].
    intros [[u|]|e] s2 Hu; auto. destruct Hu as [Hu Hret].
    split; [exact Hu|]. right. exact Hret. }
  set (Post := fun (r : res (option str)) (_ : store) =>
                 match r with
                 | Ok (Some u) => u <> [] /\ youtube_answer query u
                 | _ => True
                 end) in *.
  unfold _search_youtube. apply after_bind.
  destruct youtube_music_available eqn:Ea.
  - apply after_bind.
    eapply after_mono; [apply search_with_retries_brought|].
    intros [url|e] s1 H; cbn beta iota; [|exact I].
    eapply after_mono; [apply (Hcheck _ url s1 H)|].
    intros [[u|]|e] s2 H2; cbn beta iota; [| |exact I].
    + apply after_ret. destruct H2 as [Hu Hret].
      split; [exact Hu|]. left. split; [reflexivity|exact Hret].
    + apply Hscraper.
  - apply after_ret. apply Hscraper.
Qed.

Lemma provenance_later (t a : option str) (v : str) (rest : list str)
      (r : Result.t) :
  provenance t a rest r -> provenance t a (v :: rest) r.
Proof.
  intros [(H1 & H2 & x & Hin & H)|(H1 & H2 & x & Hin & H)]; [left|right];
    (split; [exact H1|]; split; [exact H2|]; exists x;
     split; [now right|exact H]).
Qed.

Lemma variants_loop_provenance (t a : option str) (final : option str)
      (variants : list str) :
  forall st,
    after (loop t a (blank_result t a) final variants) st
          (fun r _ =>
             match r with
             | Ok (Some found) => provenance t a variants found
             | _ => True
             end).
Proof.
  induction variants as [|v rest IH]; intros st; [apply after_ret; exact I|].
  cbn [variants_loop]. apply after_bind.
  eapply after_mono; [apply search_youtube_brought|].
  intros r s1 H1.
  assert (Hrest :
    after (fourshared_url ← search_fourshared v t a;
           match fourshared_url with
           | Some (c :: u) =>
               update_stats (Stats.bump Stats.FoursharedFound);;
               mret (Some (Result.set_fourshared (blank_result t a) (c :: u)))
           | _ =>
               (if negb (bool_decide (Some v = final))
                then d ← self_delay; time_sleep (d * (1 # 2))
                else mret tt);;
               loop t a (blank_result t a) final rest
           end) s1
          (fun r _ =>
             match r with
             | Ok (Some found) => provenance t a (v :: rest) found
             | _ => True
             end)).
  { apply after_bind. unfold _search_fourshared.
    eapply after_mono; [apply search_with_retries_brought|].
    intros [fs|e] s2 H2; cbn beta iota; [|exact I].
    assert (Hnext :
      after ((if negb (bool_decide (Some v = final))
              then d ← self_delay; time_sleep (d * (1 # 2))
              else mret tt);;
             loop t a (blank_result t a) final rest)
            s2
            (fun r _ =>
               match r with
               | Ok (Some found) => provenance t a (v :: rest) found
               | _ => True
               end)).
    { apply after_bind, after_any. intros [[]|e] s3; [|exact I].
      eapply after_mono; [apply IH|].
      intros [[found|]|e] s4 H4; auto. now apply provenance_later. }
    destruct fs as [[|c u]|]; try exact Hnext.
    apply after_bind, after_modify, after_ret.
    destruct H2 as [Hu Hret]. right.
    cbn [Result.youtube_url Result.fourshared_url Result.set_fourshared
         blank_result].
    split; [reflexivity|]. split; [exact Hu|].
    exists v. split; [now left|exact Hret]. }
  destruct r as [[[|c u]|]|e]; try exact Hrest; [|exact I].
  apply after_bind, after_modify, after_ret.
  destruct H1 as [Hu Hans]. left.
  cbn [Result.youtube_url Result.fourshared_url Result.set_youtube blank_result].
  split; [exact Hu|]. split; [reflexivity|].
  exists v. split; [now left|exact Hans].
Qed.

Lemma resolve_provenance (t a : option str) (st : store) :
  after (resolve t a) st
        (fun r _ =>
           match r with
           | Ok found =>
               Result.status_of found = Found ->
               exists variants,
                 generate_search_variants t a = Ok variants
                 /\ provenance t a variants found
           | Raise _ => True
           end).
Proof.
  unfold search_single_track. fold (blank_result t a).
  apply after_bind, after_modify.
  assert (Herr : forall s,
    after (update_stats (Stats.bump Stats.Errors);;
           mret (Result.set_status (blank_result t a) Error) : M Result.t) s
          (fun r _ =>
             match r with
             | Ok found =>
                 Result.status_of found = Found ->
                 exists variants,
                   generate_search_variants t a = Ok variants
                   /\ provenance t a variants found
             | Raise _ => True
             end)).
  { intros s. apply after_bind, after_modify, after_ret. discriminate. }
  apply after_try, after_bind, after_lift.
  destruct (generate_search_variants t a) as [[|v vs]|e] eqn:Eg;
    cbn beta iota.
  - eapply after_mono; [apply Herr|].
    intros [found|e] s H; [exact H|apply Herr].
  - apply after_bind.
    eapply after_mono; [apply variants_loop_provenance|].
    intros [[found|]|e] s Hs; cbn beta iota.
    + apply after_ret. intros _. exists (v :: vs). split; [reflexivity|exact Hs].
    + apply after_bind, after_modify, after_ret. discriminate.
    + apply Herr.
  - apply Herr.
Qed.

(** The first variant decides when one of its two searches brings a
    URL. *)
Lemma resolve_first_variant (t a : option str) (v : str) (vs : list str)
      (st : store) :
  generate_search_variants t a = Ok (v :: vs) ->
  (forall u s1,
      search_youtube v (counted Stats.bump_total st) = (Ok (Some u), s1) ->
      u <> [] ->
      resolve t a st
      = (Ok (Result.set_youtube (blank_result t a) u),
         counted (Stats.bump Stats.YoutubeFound) s1))
  /\ (forall y u s1 s2,
         search_youtube v (counted Stats.bump_total st) = (Ok y, s1) ->
         otruthy y = false ->
         search_fourshared v t a s1 = (Ok (Some u), s2) ->
         u <> [] ->
         resolve t a st
         = (Ok (Result.set_fourshared (blank_result t a) u),
            counted (Stats.bump Stats.FoursharedFound) s2)).
Proof.
  intros Eg. split.
  - intros u s1 Hy Hu. unfold search_single_track. fold (blank_result t a).
    rewrite Eg. unfold update_stats. se_unfold.
    fold (counted Stats.bump_total st). cbn [variants_loop]. se_unfold.
    rewrite Hy. destruct u as [|c u]; [congruence|]. reflexivity.
  - intros y u s1 s2 Hy Hempty Hf Hu.
    unfold search_single_track. fold (blank_result t a).
    rewrite Eg. unfold update_stats. se_unfold.
    fold (counted Stats.bump_total st). cbn [variants_loop]. se_unfold.
    rewrite Hy. destruct u as [|c u]; [congruence|].
    unfold update_stats. se_unfold.
    destruct y as [[|c' y]|]; try discriminate; rewrite Hf; reflexivity.
Qed.

(** C6.  The result of [search_single_track] never has both URL fields
    set.  With status [found] exactly one is set: [youtube_url], to a
    URL that passed [is_valid_youtube_url] and that the catalog search
    or the web scraper returned for a search variant of the track, with
    [youtube_found] counted; or [fourshared_url], to a link that the
    file-host scraper returned for a search variant of the track, with
    [fourshared_found] counted.  With any other status both are empty.
    And the fields are set when a search succeeds: a URL that
    [_search_youtube] brings for the first variant is the [youtube_url]
    of the result, and when it brings none, a link that
    [_search_fourshared] brings for that variant is the
    [fourshared_url]. *)
Theorem search_single_track_one_url (t a : option str) (st : store) :
  (exists r st',
      resolve t a st = (Ok r, st')
      /\ (Result.youtube_url r = [] \/ Result.fourshared_url r = [])
      /\ match Result.status_of r with
         | Found =>
             ((Result.youtube_url r <> [] /\ Result.fourshared_url r = []
               /\ is_valid_youtube_url (Some (Result.youtube_url r)) = true
               /\ Stats.youtube_found (Bot.stats (bot st'))
                  = (Stats.youtube_found (Bot.stats (bot st)) + 1)%Z)
              \/ (Result.youtube_url r = [] /\ Result.fourshared_url r <> []
                  /\ Stats.fourshared_found (Bot.stats (bot st'))
                     = (Stats.fourshared_found (Bot.stats (bot st)) + 1)%Z))
             /\ exists variants,
                 generate_search_variants t a = Ok variants
                 /\ provenance t a variants r
         | NotFound | Error =>
             Result.youtube_url r = [] /\ Result.fourshared_url r = []
         end)
  /\ (forall v vs u s1,
         generate_search_variants t a = Ok (v :: vs) ->
         search_youtube v (counted Stats.bump_total st) = (Ok (Some u), s1) ->
         u <> [] ->
         resolve t a st
         = (Ok (Result.set_youtube (blank_result t a) u),
            counted (Stats.bump Stats.YoutubeFound) s1))
  /\ (forall v vs y u s1 s2,
         generate_search_variants t a = Ok (v :: vs) ->
         search_youtube v (counted Stats.bump_total st) = (Ok y, s1) ->
         otruthy y = false ->
         search_fourshared v t a s1 = (Ok (Some u), s2) ->
         u <> [] ->
         resolve t a st
         = (Ok (Result.set_fourshared (blank_result t a) u),
            counted (Stats.bump Stats.FoursharedFound) s2)).
Proof.
  split; [|split].
  - destruct (resolve_outcome random_uniform youtube_music_available
                youtube_music_search youtube_scraper_search
                fourshared_scraper_search t a st)
      as (c & r & st' & Hrun & Hres & Hb & _).
    pose proof (resolve_provenance t a st) as Hprov.
    unfold after in Hprov. rewrite Hrun in Hprov. cbn [fst] in Hprov.
    exists r, st'. split; auto. rewrite Hb.
    destruct c; simpl in Hres.
    + destruct Hres as (u & Hu & Hv & ->). simpl. split; [auto|].
      split; [left; auto|]. now apply Hprov.
    + destruct Hres as (u & Hu & ->). simpl. split; [auto|].
      split; [right; auto|]. now apply Hprov.
    + subst r. simpl. auto.
    + subst r. simpl. auto.
  - intros v vs u s1 Eg. now apply (resolve_first_variant t a v vs st Eg).
  - intros v vs y u s1 s2 Eg. now apply (resolve_first_variant t a v vs st Eg).
Qed.

End ResolverProvenance.

(* ------------------------------------------------------------------ *)
(** ** Binary64 arithmetic: signs and magnitudes

    What the proofs about pauses need of binary64: the product and the
    sum of numbers that are not negative are not negative, a product of
    numbers below [2^a] and [2^b] is below [2^(a+b+1)], and a number the
    comparisons place in [[0, c]] is below the next power of two. *)

Section BinaryFacts.
Import Paced.
Local Open Scope Z_scope.

Lemma digits2_size (p : positive) : digits2_pos p = Pos.size p.
Proof. induction p; simpl; congruence. Qed.

Lemma Zdigits2_log2 (p : positive) : Zdigits2 (Zpos p) = Z.log2 (Zpos p) + 1.
Proof. unfold Zdigits2. rewrite digits2_size. destruct p; simpl; lia. Qed.

Lemma Zdigits2_nonneg (z : Z) : 0 <= Zdigits2 z.
Proof. destruct z; simpl; lia. Qed.

(** Shifting a mantissa that is not negative halves it. *)
Lemma shr_1_m (r : shr_record) :
  0 <= shr_m r -> shr_m (shr_1 r) = Z.div2 (shr_m r).
Proof.
  destruct r as [m r s]. simpl.
  destruct m as [|[p|p|]|p]; simpl; try lia; reflexivity.
Qed.

Lemma iter_shr_1_m (p : positive) :
  forall r, 0 <= shr_m r ->
            shr_m (SpecFloat.iter_pos shr_1 p r) = Z.shiftr (shr_m r) (Zpos p).
Proof.
  induction p as [p IH|p IH|]; intros r Hr; cbn [SpecFloat.iter_pos].
  - assert (H1 : 0 <= shr_m (shr_1 r)).
    { rewrite shr_1_m by exact Hr. apply Z.div2_nonneg. exact Hr. }
    assert (H2 : 0 <= shr_m (SpecFloat.iter_pos shr_1 p (shr_1 r))).
    { rewrite IH by exact H1. apply Z.shiftr_nonneg. exact H1. }
    rewrite IH by exact H2. rewrite IH by exact H1.
    rewrite shr_1_m by exact Hr. rewrite Z.div2_spec.
    rewrite !Z.shiftr_shiftr by lia. f_equal. lia.
  - assert (H2 : 0 <= shr_m (SpecFloat.iter_pos shr_1 p r)).
    { rewrite IH by exact Hr. apply Z.shiftr_nonneg. exact Hr. }
    rewrite IH by exact H2. rewrite IH by exact Hr.
    rewrite !Z.shiftr_shiftr by lia. f_equal. lia.
  - rewrite shr_1_m by exact Hr. apply Z.div2_spec.
Qed.

Lemma Zdigits2_shiftr (m n : Z) :
  0 <= m -> 0 <= n -> Zdigits2 (Z.shiftr m n) <= Z.max 0 (Zdigits2 m - n).
Proof.
  intros Hm Hn. destruct (Z.eq_dec m 0) as [->|Hm0].
  { rewrite Z.shiftr_0_l. simpl. lia. }
  destruct (Z_lt_le_dec (Z.log2 m) n) as [Hlt|Hle].
  - rewrite Z.shiftr_eq_0 by lia. simpl. lia.
  - assert (Hpos : 0 < Z.shiftr m n).
    { apply Z.le_neq. split; [apply Z.shiftr_nonneg; lia|].
      intros E. symmetry in E. apply Z.shiftr_eq_0_iff in E.
      destruct E as [E|[_ E]]; lia. }
    destruct m as [|p|p]; try lia.
    destruct (Z.shiftr (Z.pos p) n) as [|q|q] eqn:E; try lia.
    rewrite !Zdigits2_log2. rewrite <- E. rewrite Z.log2_shiftr by lia. lia.
Qed.

Lemma Zdigits2_succ (m : Z) : 0 <= m -> Zdigits2 (m + 1) <= Zdigits2 m + 1.
Proof.
  intros Hm. destruct m as [|p|p]; try lia; [simpl; lia|].
  assert (H : 0 < Z.pos p + 1) by lia.
  destruct (Z.pos p + 1) as [|q|q] eqn:E; try lia.
  rewrite !Zdigits2_log2, <- E.
  pose proof (Z.log2_succ_le (Z.pos p)). unfold Z.succ in *. lia.
Qed.

Lemma round_nearest_even_bound (m : Z) (l : location) :
  0 <= m ->
  0 <= round_nearest_even m l
  /\ Zdigits2 (round_nearest_even m l) <= Zdigits2 m + 1.
Proof.
  intros Hm. pose proof (Zdigits2_succ m Hm).
  unfold round_nearest_even. destruct l as [|[| |]]; try destruct (Z.even m);
    split; try lia.
Qed.

Lemma shr_record_of_loc_m (m : Z) (l : location) :
  shr_m (shr_record_of_loc m l) = m.
Proof. destruct l as [|[| |]]; reflexivity. Qed.

(** One alignment of a mantissa to the format keeps it not negative and
    does not raise the magnitude above the smallest exponent. *)
Lemma shr_fexp_bound (m e : Z) (l : location) :
  0 <= m ->
  0 <= shr_m (fst (shr_fexp prec emax m e l))
  /\ Zdigits2 (shr_m (fst (shr_fexp prec emax m e l)))
     + snd (shr_fexp prec emax m e l)
     <= Z.max (Zdigits2 m + e) (-1074).
Proof.
  intros Hm. unfold shr_fexp, shr.
  set (n := fexp prec emax (Zdigits2 m + e) - e).
  assert (Hn : n = Z.max (Zdigits2 m + e - 53) (-1074) - e) by reflexivity.
  pose proof (Zdigits2_nonneg m) as Hd.
  destruct n as [|p|p] eqn:En; cbn [fst snd]; rewrite ?shr_record_of_loc_m.
  - split; [exact Hm|lia].
  - rewrite iter_shr_1_m by (rewrite shr_record_of_loc_m; exact Hm).
    rewrite shr_record_of_loc_m.
    split; [apply Z.shiftr_nonneg; exact Hm|].
    pose proof (Zdigits2_shiftr m (Z.pos p) Hm ltac:(lia)). lia.
  - split; [exact Hm|lia].
Qed.

(** Rounding a positive mantissa gives a number of the sign asked for,
    never a NaN, at most one binary digit longer. *)
Lemma binary_round_aux_shaped (sx : bool) (m : positive) (e : Z) (l : location) :
  shaped sx (Z.max (Zpos (digits2_pos m) + e) (-1074) + 1)
         (binary_round_aux prec emax sx (Zpos m) e l).
Proof.
  unfold binary_round_aux.
  pose proof (shr_fexp_bound (Zpos m) e l ltac:(lia)) as [H1 H2].
  destruct (shr_fexp prec emax (Z.pos m) e l) as [r1 e1]. cbn [fst snd] in *.
  pose proof (round_nearest_even_bound (shr_m r1) (loc_of_shr_record r1) H1)
    as [H3 H4].
  set (m2 := round_nearest_even (shr_m r1) (loc_of_shr_record r1)) in *.
  pose proof (shr_fexp_bound m2 e1 loc_Exact H3) as [H5 H6].
  destruct (shr_fexp prec emax m2 e1 loc_Exact) as [r2 e2]. cbn [fst snd] in *.
  change (Zdigits2 (Z.pos m)) with (Z.pos (digits2_pos m)) in H2.
  destruct (shr_m r2) as [|q|q] eqn:E; try lia.
  - reflexivity.
  - change (Zdigits2 (Z.pos q)) with (Z.pos (digits2_pos q)) in H6.
    destruct (e2 <=? emax - prec) eqn:Ee.
    + split; [reflexivity|lia].
    + split; [reflexivity|]. apply Z.leb_gt in Ee.
      change (emax - prec) with 971 in Ee. lia.
Qed.

Lemma binary_round_shaped (sx : bool) (m : positive) (e : Z) :
  exists B, shaped sx B (binary_round prec emax sx m e).
Proof.
  unfold binary_round.
  destruct (shl_align m e _) as [mz ez].
  eexists. apply binary_round_aux_shaped.
Qed.

Lemma shaped_nonneg (B : Z) (x : spec_float) : shaped false B x -> nonneg x = true.
Proof. destruct x as [s|s| |s m e]; simpl; intuition (subst; auto). Qed.

Lemma shaped_under (B a : Z) (x : spec_float) :
  shaped false B x -> B <= a -> a <= 972 -> under a x = true.
Proof.
  destruct x as [s|s| |s m e]; simpl; intros H HB Ha; try (intuition lia).
  destruct H as [-> H]. apply Z.leb_le. lia.
Qed.

Lemma under_nonneg (a : Z) (x : spec_float) : under a x = true -> nonneg x = true.
Proof. destruct x as [s|s| |[|] m e]; simpl; auto; discriminate. Qed.

Lemma under_finite (a : Z) (x : spec_float) : under a x = true -> finite x = true.
Proof. destruct x as [s|s| |[|] m e]; simpl; auto; discriminate. Qed.

Lemma under_mono (a b : Z) (x : spec_float) :
  under a x = true -> a <= b -> under b x = true.
Proof.
  destruct x as [s|s| |[|] m e]; simpl; auto; try discriminate.
  intros H Hab. apply Z.leb_le in H. apply Z.leb_le. lia.
Qed.

Lemma digits2_mul (p q : positive) :
  Zpos (digits2_pos (p * q)) <= Zpos (digits2_pos p) + Zpos (digits2_pos q).
Proof.
  change (Zdigits2 (Zpos (p * q)) <= Zdigits2 (Zpos p) + Zdigits2 (Zpos q)).
  rewrite !Zdigits2_log2. rewrite Pos2Z.inj_mul.
  pose proof (Z.log2_mul_above (Zpos p) (Zpos q) ltac:(lia) ltac:(lia)). lia.
Qed.

(** The product of two numbers below [2^a] and [2^b]. *)
Lemma SFmul_under (a b : Z) (x y : spec_float) :
  under a x = true -> under b y = true ->
  -1074 <= a + b -> a + b + 1 <= 972 ->
  under (a + b + 1) (SFmul prec emax x y) = true.
Proof.
  intros Hx Hy Hlo Hhi.
  destruct x as [sx|sx| |[|] mx ex]; try discriminate;
    destruct y as [sy|sy| |[|] my ey]; try discriminate; try reflexivity.
  cbn [SFmul xorb]. cbn [under] in Hx, Hy.
  apply Z.leb_le in Hx. apply Z.leb_le in Hy.
  pose proof (binary_round_aux_shaped false (mx * my) (ex + ey) loc_Exact) as H.
  eapply shaped_under; [exact H| |exact Hhi].
  pose proof (digits2_mul mx my). lia.
Qed.

Lemma SFmul_nonneg (x y : spec_float) :
  finite x = true -> finite y = true -> nonneg (SFmul prec emax x y) = true.
Proof.
  intros Hx Hy.
  destruct x as [sx|sx| |[|] mx ex]; try discriminate;
    destruct y as [sy|sy| |[|] my ey]; try discriminate; try reflexivity.
  cbn [SFmul xorb]. eapply shaped_nonneg. apply binary_round_aux_shaped.
Qed.

Lemma SFadd_nonneg (x y : spec_float) :
  nonneg x = true -> positive_finite y = true ->
  nonneg (SFadd prec emax x y) = true.
Proof.
  intros Hx Hy.
  destruct y as [sy|sy| |[|] my ey]; try discriminate.
  destruct x as [sx|[|]| |[|] mx ex]; try discriminate; try reflexivity.
  cbn [SFadd cond_Zopp].
  destruct (shl_align mx ex (Z.min ex ey)) as [a e1].
  destruct (shl_align my ey (Z.min ex ey)) as [b e2]. cbn [fst].
  change (Z.pos a + Z.pos b) with (Z.pos (a + b)). cbn [binary_normalize].
  destruct (binary_round_shaped false (a + b) (Z.min ex ey)) as [B H].
  eapply shaped_nonneg. exact H.
Qed.

Lemma SFleb_zero_nonneg (x : spec_float) :
  SFleb (S754_zero false) x = true -> nonneg x = true.
Proof. destruct x as [s|[|]| |[|] m e]; simpl; auto; discriminate. Qed.

Lemma valid_digits (s : bool) (m : positive) (e : Z) :
  valid_binary (S754_finite s m e) = true -> Zpos (digits2_pos m) <= 53.
Proof.
  cbn [SpecFloat.valid_binary]. unfold bounded, canonical_mantissa, fexp.
  intros H. apply andb_true_iff in H as [H _]. apply Z.eqb_eq in H.
  unfold SpecFloat.emin in H. cbv delta [prec emax] in H.
  change IntDef.Z.max with Z.max in H. lia.
Qed.

Lemma valid_exponent (s : bool) (m : positive) (e : Z) (a : Z) :
  valid_binary (S754_finite s m e) = true ->
  Zpos (digits2_pos m) + e <= a -> -1021 <= a -> e <= a - 53.
Proof.
  cbn [SpecFloat.valid_binary]. unfold bounded, canonical_mantissa, fexp.
  intros H. apply andb_true_iff in H as [H _]. apply Z.eqb_eq in H.
  unfold SpecFloat.emin in H. cbv delta [prec emax] in H.
  change (3 - 1024 - 53) with (-1074) in H.
  change IntDef.Z.max with Z.max in H. intros. lia.
Qed.

(** [x <= c] for a positive constant [c = mc * 2^ec]. *)
Lemma SFleb_under (x : spec_float) (mc : positive) (ec : Z) :
  nonneg x = true -> valid_binary x = true ->
  SFleb x (S754_finite false mc ec) = true ->
  under (53 + ec) x = true.
Proof.
  intros Hx Hv. destruct x as [s|[|]| |[|] m e]; try discriminate; auto.
  unfold SFleb. cbn [SFcompare under]. intros H.
  pose proof (valid_digits _ _ _ Hv). apply Z.leb_le.
  destruct (e ?= ec) eqn:E; try discriminate.
  - apply Z.compare_eq in E. lia.
  - change (e < ec) in E. lia.
Qed.

(** Not [c < x], for a positive constant [c = mc * 2^ec]. *)
Lemma SFltb_under (x : spec_float) (mc : positive) (ec : Z) :
  nonneg x = true -> valid_binary x = true ->
  SFltb (S754_finite false mc ec) x = false ->
  under (53 + ec) x = true.
Proof.
  intros Hx Hv. destruct x as [s|[|]| |[|] m e]; try discriminate; auto.
  unfold SFltb. cbn [SFcompare under]. intros H.
  pose proof (valid_digits _ _ _ Hv). apply Z.leb_le.
  destruct (ec ?= e) eqn:E; try discriminate.
  - apply Z.compare_eq in E. lia.
  - change (ec > e) in E. lia.
Qed.

Lemma SFleb_positive_finite (x : spec_float) (mc md : positive) (ec ed : Z) :
  SFleb (S754_finite false mc ec) x = true ->
  SFleb x (S754_finite false md ed) = true ->
  positive_finite x = true.
Proof. destruct x as [s|[|]| |[|] m e]; simpl; auto; discriminate. Qed.

(** A number in [[0, 2^63)] is a number, is not below zero, and lies
    between [-2^63] and [2^63]. *)
Lemma under_compare (x : spec_float) (a : Z) :
  under a x = true -> valid_binary x = true -> -1021 <= a -> a <= 63 ->
  SFeqb x x = true
  /\ SFltb x (S754_zero false) = false
  /\ SFleb (S754_finite true 4503599627370496 11) x = true
  /\ SFltb x (S754_finite false 4503599627370496 11) = true.
Proof.
  intros Hx Hv Hlo Hhi.
  destruct x as [s|s| |[|] m e]; try discriminate.
  - destruct s; repeat split.
  - cbn [under] in Hx. apply Z.leb_le in Hx.
    pose proof (valid_exponent _ _ _ a Hv Hx Hlo) as He.
    unfold SFeqb, SFltb, SFleb. cbn [SFcompare].
    rewrite Z.compare_refl, Pos.compare_cont_refl.
    assert (E : (e ?= 11) = Lt) by (change (e < 11); lia).
    rewrite E. repeat split.
Qed.

End BinaryFacts.

(* ------------------------------------------------------------------ *)
(** ** The retry/backoff controller, paced in binary64 *)

Section PacedFacts.
Context {U : Unicode} {W : Type}.
Context (random_uniform : float -> float -> W -> float * W).
Import Binary64 Paced.

Local Abbreviation store := (@Binary64.store W).
Local Abbreviation M := (@Binary64.M W).
Local Abbreviation search_with_retries :=
  (Binary64._search_with_retries (U := U) random_uniform).
Local Abbreviation ensures := (Paced.ensures (W := W)).

Lemma ensures_mono {A} (m : M A) (st : store) (Q Q' : res A -> store -> Prop) :
  ensures m st Q -> (forall r s, Q r s -> Q' r s) -> ensures m st Q'.
Proof. unfold Paced.ensures. auto. Qed.

Lemma ensures_ret {A} (a : A) (st : store) (Q : res A -> store -> Prop) :
  Q (Ok a) st -> ensures (mret a : M A) st Q.
Proof. auto. Qed.

Lemma ensures_bind {A B} (m : M A) (f : A -> M B) (st : store)
      (Q : res B -> store -> Prop) :
  ensures m st (fun r s =>
                  match r with
                  | Ok a => ensures (f a) s Q
                  | Raise e => Q (Raise e) s
                  end) ->
  ensures (m ≫= f) st Q.
Proof.
  unfold Paced.ensures. se_unfold. destruct (m st) as [[a|e] s]; simpl; auto.
Qed.

Lemma ensures_try {A} (m : M A) (h : exn -> M A) (st : store)
      (Q : res A -> store -> Prop) :
  ensures m st (fun r s =>
                  match r with
                  | Ok a => Q (Ok a) s
                  | Raise e => ensures (h e) s Q
                  end) ->
  ensures (try_except m h) st Q.
Proof.
  unfold Paced.ensures. se_unfold. destruct (m st) as [[a|e] s]; simpl; auto.
Qed.

Lemma ensures_lift {A} (r : res A) (st : store) (Q : res A -> store -> Prop) :
  Q r st -> ensures (lift r : M A) st Q.
Proof. auto. Qed.

Lemma ensures_self_delay (st : store) (P : res float -> store -> Prop) :
  P (Ok (delay st)) st -> ensures self_delay st P.
Proof. auto. Qed.

Lemma ensures_self_max_retries (st : store) (P : res Z -> store -> Prop) :
  P (Ok (max_retries st)) st -> ensures self_max_retries st P.
Proof. auto. Qed.

Lemma ensures_uniform (a b : float) (st : store)
      (P : res float -> store -> Prop) :
  P (Ok (fst (random_uniform a b (world st))))
    (set_world st (snd (random_uniform a b (world st)))) ->
  ensures (uniform random_uniform a b) st P.
Proof.
  unfold Paced.ensures, uniform. now destruct (random_uniform a b (world st)).
Qed.

Lemma ensures_invoke (f : SE W (option str)) (k : nat) (st : store)
      (P : res (option str) -> store -> Prop) :
  P (fst (f (world st)))
    (log (EAttempt k (fst (f (world st)))) (set_world st (snd (f (world st))))) ->
  ensures (invoke f k) st P.
Proof. unfold Paced.ensures, invoke. now destruct (f (world st)). Qed.

(** *** Lengths that [time.sleep] accepts *)

Lemma leb_zero_nonneg (d : float) :
  (0 <=? d)%float = true -> nonneg (Prim2SF d) = true.
Proof. rewrite FloatAxioms.leb_spec. apply SFleb_zero_nonneg. Qed.

Lemma leb_ten_under (d : float) :
  (0 <=? d)%float = true -> (d <=? 10)%float = true ->
  under 4 (Prim2SF d) = true.
Proof.
  intros H0 H10. rewrite FloatAxioms.leb_spec in H10.
  apply (SFleb_under _ 5629499534213120 (-49)); auto.
  - now apply leb_zero_nonneg.
  - apply Prim2SF_valid.
Qed.

Lemma jitter_positive_finite (j : float) :
  jitter_ok j -> positive_finite (Prim2SF j) = true.
Proof.
  intros [Hlo Hhi]. rewrite FloatAxioms.leb_spec in Hlo, Hhi.
  exact (SFleb_positive_finite _ _ _ _ _ Hlo Hhi).
Qed.

(** A length in [[0, 2^32)] seconds is slept. *)
Lemma time_sleep_accepts (x : float) (st : store) :
  under 32 (Prim2SF x) = true ->
  time_sleep x st = (Ok tt, log (ESleep x) st).
Proof.
  intros Hx. unfold time_sleep, is_nan.
  destruct (under_compare (Prim2SF x) 32 Hx (Prim2SF_valid x))
    as (Heq & _); [lia|lia|].
  rewrite FloatAxioms.eqb_spec, Heq. cbn [negb].
  assert (Hns : under 63 (Prim2SF (x * 1e9)) = true).
  { rewrite FloatAxioms.mul_spec. apply (SFmul_under 32 30); auto; lia. }
  destruct (under_compare _ 63 Hns (Prim2SF_valid _))
    as (_ & Hneg & Hlo & Hhi); [lia|lia|].
  rewrite FloatAxioms.leb_spec, !FloatAxioms.ltb_spec.
  change (Prim2SF (-0x1p63)) with (S754_finite true 4503599627370496 11).
  change (Prim2SF 0x1p63) with (S754_finite false 4503599627370496 11).
  change (Prim2SF 0) with (S754_zero false).
  rewrite Hlo, Hhi, Hneg. reflexivity.
Qed.

(** What converts: [float_of_int] returns the nearest float, a number
    in [[0, 2^a)]. *)
Lemma converts (a n : Z) :
  converts_under a n = true ->
  float_of_int n = Ok (nearest n) /\ under a (Prim2SF (nearest n)) = true.
Proof.
  unfold converts_under, float_of_int.
  destruct (binary_normalize prec emax n 0 false); try discriminate; auto.
Qed.

Lemma converts_all (a : Z) (g : nat -> Z) (n : nat) :
  forallb (fun k => converts_under a (g k)) (seq 0 n) = true ->
  forall k, k < n ->
            float_of_int (g k) = Ok (nearest (g k))
            /\ under a (Prim2SF (nearest (g k))) = true.
Proof.
  intros H k Hk. apply converts.
  rewrite forallb_forall in H. apply H. apply in_seq. lia.
Qed.

(** The powers [2^0 .. 2^1023] convert, and so do the counts
    [1 .. 1024], which are below [2^11]. *)
Lemma powers_convert (k : nat) :
  k < 1024 ->
  float_of_int (2 ^ Z.of_nat k) = Ok (nearest (2 ^ Z.of_nat k))
  /\ under 1024 (Prim2SF (nearest (2 ^ Z.of_nat k))) = true.
Proof.
  apply (converts_all 1024 (fun k => 2 ^ Z.of_nat k)%Z 1024).
  vm_compute. reflexivity.
Qed.

Lemma counts_convert (k : nat) :
  k < 1024 ->
  float_of_int (Z.of_nat k + 1) = Ok (nearest (Z.of_nat k + 1))
  /\ under 11 (Prim2SF (nearest (Z.of_nat k + 1))) = true.
Proof.
  apply (converts_all 11 (fun k => Z.of_nat k + 1)%Z 1024).
  vm_compute. reflexivity.
Qed.

Lemma backoff_under (d : float) (k : nat) (j : float) :
  (0 <=? d)%float = true -> (d <=? 10)%float = true ->
  k < 1024 -> jitter_ok j ->
  under 4 (Prim2SF (backoff d k j)) = true.
Proof.
  intros H0 H10 Hk Hj. unfold backoff, py_min.
  set (x := (d * nearest (2 ^ Z.of_nat k) + j)%float).
  destruct (10 <? x)%float eqn:E; [reflexivity|].
  rewrite FloatAxioms.ltb_spec in E.
  apply (SFltb_under _ 5629499534213120 (-49)); auto; [|apply Prim2SF_valid].
  unfold x. rewrite FloatAxioms.add_spec, FloatAxioms.mul_spec.
  apply SFadd_nonneg; [|now apply jitter_positive_finite].
  apply SFmul_nonneg.
  - eapply under_finite. now apply leb_ten_under.
  - eapply under_finite. now apply powers_convert.
Qed.

Lemma pause_under (d : float) (k : nat) :
  (0 <=? d)%float = true -> (d <=? 10)%float = true ->
  k < 1024 ->
  under 16 (Prim2SF (pause d k)) = true.
Proof.
  intros H0 H10 Hk. unfold pause. rewrite FloatAxioms.mul_spec.
  apply (SFmul_under 4 11); try lia.
  - now apply leb_ten_under.
  - now apply counts_convert.
Qed.

Lemma ensures_time_sleep (x : float) (a : Z) (st : store)
      (P : res unit -> store -> Prop) :
  under a (Prim2SF x) = true -> (a <= 32)%Z ->
  P (Ok tt) (log (ESleep x) st) -> ensures (time_sleep x) st P.
Proof.
  intros Hx Ha HP. unfold Paced.ensures.
  rewrite time_sleep_accepts; [exact HP|].
  eapply under_mono; eauto.
Qed.

Lemma drawn_in_range (k : nat) (w : W) :
  uniform_in_range random_uniform -> jitter_ok (fst (drawn random_uniform k w)).
Proof.
  intros Huni. unfold drawn. destruct (0 <? k); [|split; reflexivity].
  apply Huni.
Qed.

(** One iteration, from a store whose delay is between 0 and 10: it
    ends without raising, leaves the delay alone and adds to the trace
    the backoff sleep (from attempt 1 on), the attempt and the recovery
    sleep. *)
Lemma attempt_body_paced (f : SE W (option str)) (k : nat) (st : store) :
  uniform_in_range random_uniform ->
  (0 <=? delay st)%float = true -> (delay st <=? 10)%float = true ->
  k < 1024 ->
  ensures (attempt_body random_uniform f k) st
          (fun r s =>
             let j := fst (drawn random_uniform k (world st)) in
             let o := fst (f (snd (drawn random_uniform k (world st)))) in
             r = Ok (hit o)
             /\ delay s = delay st
             /\ max_retries s = max_retries st
             /\ world s = snd (f (snd (drawn random_uniform k (world st))))
             /\ trace s =
                trace st
                ++ (if 0 <? k then [ESleep (backoff (delay st) k j)] else [])
                ++ [EAttempt k o]
                ++ recovery (delay st) (max_retries st) k o).
Proof.
  intros Huni H0 H10 Hk.
  set (d := delay st) in *. set (n := max_retries st).
  pose proof (drawn_in_range k (world st) Huni) as Hj.
  set (j := fst (drawn random_uniform k (world st))) in *.
  set (w0 := snd (drawn random_uniform k (world st))).
  set (pre := if 0 <? k then [ESleep (backoff d k j)] else []).
  cbn zeta.
  match goal with |- Paced.ensures _ _ ?P => set (Post := P) end.
  assert (Hend : forall (s : store),
             delay s = d -> max_retries s = n ->
             world s = snd (f w0) ->
             trace s = trace st ++ pre ++ [EAttempt k (fst (f w0))]
                       ++ recovery d n k (fst (f w0)) ->
             Post (Ok (hit (fst (f w0)))) s).
  { intros s Hb Hr Hw Ht. repeat split; auto. }
  unfold attempt_body. apply ensures_try. apply ensures_bind.
  apply ensures_mono with
    (Q := fun r s => r = Ok tt /\ delay s = d /\ max_retries s = n
                     /\ world s = w0 /\ trace s = trace st ++ pre).
  { unfold pre, j, w0, drawn. destruct (0 <? k) eqn:Ek.
    - apply ensures_bind, ensures_self_delay, ensures_bind.
      destruct (powers_convert k Hk) as [-> _]. apply ensures_lift.
      apply ensures_bind, ensures_uniform. fold d.
      apply (ensures_time_sleep _ 4); [|lia|].
      + apply backoff_under; auto; apply Huni.
      + cbn [delay max_retries world trace log set_world]. auto.
    - apply ensures_ret. rewrite app_nil_r. auto. }
  intros r s1 (-> & Hb1 & Hr1 & Hw1 & Ht1).
  apply ensures_bind, ensures_invoke. rewrite Hw1.
  destruct (f w0) as [[r|e] w] eqn:Ef; cbn [fst snd] in *.
  - assert (Hok : Post (Ok (hit (Ok r)))
                       (log (EAttempt k (Ok r)) (set_world s1 w))).
    { apply Hend; cbn [delay max_retries world trace log set_world]; auto.
      rewrite Ht1, <- app_assoc. reflexivity. }
    destruct r as [[|c u]|]; apply ensures_ret; exact Hok.
  - assert (Hquiet : recovery d n k (Raise e) = [] ->
                     Post (Ok None) (log (EAttempt k (Raise e)) (set_world s1 w))).
    { intros Hrec. refine (Hend _ _ _ _ _);
        cbn [delay max_retries world trace log set_world]; auto.
      rewrite Hrec, Ht1, <- app_assoc. reflexivity. }
    assert (Hother :
      recovery d n k (Raise e)
      = (if (Z.of_nat k <? n - 1)%Z then [ESleep (pause d k)] else []) ->
      ensures (max_retries ← self_max_retries;
               (if (Z.of_nat k <? max_retries - 1)%Z
                then d ← self_delay;
                     count ← lift (float_of_int (Z.of_nat k + 1));
                     time_sleep (d * count)
                else mret tt);;
               mret None : M (option str))
              (log (EAttempt k (Raise e)) (set_world s1 w)) Post).
    { intros Hrec. apply ensures_bind, ensures_self_max_retries.
      cbn [max_retries log set_world].
      rewrite Hr1. apply ensures_bind.
      destruct (Z.of_nat k <? n - 1)%Z eqn:Ek.
      - apply ensures_bind, ensures_self_delay. cbn [delay log set_world].
        rewrite Hb1. apply ensures_bind.
        destruct (counts_convert k Hk) as [-> _]. apply ensures_lift.
        apply (ensures_time_sleep _ 16); [|lia|].
        + now apply pause_under.
        + apply ensures_ret. refine (Hend _ _ _ _ _);
            cbn [delay max_retries world trace log set_world]; auto.
          rewrite Hrec, Ht1, <- !app_assoc. reflexivity.
      - apply ensures_ret, ensures_ret. now apply Hquiet. }
    destruct e; try (apply Hother; reflexivity).
    destruct response as [r|].
    + rewrite rate_limit_guard_false. apply ensures_ret. now apply Hquiet.
    + apply ensures_ret. now apply Hquiet.
Qed.

Lemma recovery_of_hit (d : float) (n : Z) (k : nat) (o : res (option str))
      (u : str) :
  hit o = Some u -> recovery d n k o = [].
Proof. destruct o as [r|e]; [reflexivity|discriminate]. Qed.

Lemma retry_loop_paced (f : SE W (option str)) (remaining : nat) :
  uniform_in_range random_uniform ->
  forall (k : nat) (st : store),
    (0 <=? delay st)%float = true -> (delay st <=? 10)%float = true ->
    k + remaining <= 1024 ->
    ensures (retry_loop random_uniform f k remaining) st
            (fun r s =>
               exists result runs,
                 r = Ok result
                 /\ delay s = delay st
                 /\ max_retries s = max_retries st
                 /\ trace s =
                    trace st
                    ++ expected_trace (delay st) (max_retries st) k runs
                 /\ Forall (fun run => jitter_ok (fst run)) runs
                 /\ ends_with remaining runs result).
Proof.
  intros Huni. induction remaining as [|rem IH]; intros k st H0 H10 Hk.
  - apply ensures_ret. exists None, []. cbn [expected_trace].
    rewrite app_nil_r. repeat split; auto. constructor.
  - cbn [retry_loop]. apply ensures_bind.
    eapply ensures_mono; [apply attempt_body_paced; auto; lia|].
    cbn zeta. intros r s (-> & Hb & Hr & Hw & Ht).
    set (j := fst (drawn random_uniform k (world st))) in *.
    set (o := fst (f (snd (drawn random_uniform k (world st))))) in *.
    destruct (hit o) as [u|] eqn:Eo.
    + apply ensures_ret. exists (Some u), [(j, o)]. cbn [expected_trace].
      rewrite (recovery_of_hit _ _ _ _ _ Eo) in *. rewrite app_nil_r.
      repeat split; auto.
      * constructor; [|constructor]. now apply drawn_in_range.
      * exists [], j, o. repeat split; auto; [constructor | simpl; lia].
    + eapply ensures_mono; [apply IH; rewrite ?Hb; auto; lia|].
      intros r' s' (result & runs & -> & Hb' & Hr' & Ht' & Hj' & Hend).
      exists result, ((j, o) :: runs). rewrite Hb, Hr in *.
      repeat split; auto; try congruence.
      * rewrite Ht', Ht. cbn [expected_trace]. now rewrite <- !app_assoc.
      * constructor; auto. now apply drawn_in_range.
      * destruct result as [u|]; cbn [ends_with] in *.
        -- destruct Hend as (init & j' & o' & -> & Ho' & Hinit & Hlen).
           exists ((j, o) :: init), j', o'. repeat split; auto.
           ++ constructor; auto.
           ++ simpl in *. lia.
        -- destruct Hend as [Hall Hlen]. split; [constructor; auto|].
           simpl. lia.
Qed.

(** C2, as the source has it.  The pauses are computed in binary64 and
    handed to [time.sleep], which refuses a negative length.  With a
    delay between 0 and 10 seconds and between 1 and 1024 retries
    allowed, [_search_with_retries] returns without raising whatever
    the search function does.  It makes between one and [max_retries]
    attempts, numbered from 0; attempt 0 has no sleep before it and
    every attempt [k >= 1] comes right after a sleep of
    [min(delay * 2^k + jitter, 10.0)], computed in binary64, with the
    jitter in [[0.1, 0.5]] ([expected_trace]).  The loop ends on the
    first attempt that brings a non-empty result, with that result;
    when every attempt raises or brings nothing, all [max_retries]
    attempts are made and the result is [None].  In particular a search
    function that brings nothing twice and then a result, with three
    retries allowed, gives that result after exactly two sleeps, both
    backoff sleeps. *)
Theorem search_with_retries_paced (f : SE W (option str)) (st : store) :
  uniform_in_range random_uniform ->
  (0 <=? delay st)%float = true ->
  (delay st <=? 10)%float = true ->
  (1 <= max_retries st <= 1024)%Z ->
  (exists result runs st',
      search_with_retries f st = (Ok result, st')
      /\ trace st' =
         trace st ++ expected_trace (delay st) (max_retries st) 0 runs
      /\ 1 <= length runs <= Z.to_nat (max_retries st)
      /\ Forall (fun run => jitter_ok (fst run)) runs
      /\ ends_with (Z.to_nat (max_retries st)) runs result)
  /\ (forall (e1 e2 : option str) (u : str) (w1 w1' w2 w2' w3 : W)
             (j1 j2 : float),
         max_retries st = 3%Z ->
         f (world st) = (Ok e1, w1) -> otruthy e1 = false ->
         random_uniform 0.1 0.5 w1 = (j1, w1') ->
         f w1' = (Ok e2, w2) -> otruthy e2 = false ->
         random_uniform 0.1 0.5 w2 = (j2, w2') ->
         f w2' = (Ok (Some u), w3) -> u <> [] ->
         exists st',
           search_with_retries f st = (Ok (Some u), st')
           /\ trace st' =
              trace st
              ++ [EAttempt 0 (Ok e1);
                  ESleep (backoff (delay st) 1 j1);
                  EAttempt 1 (Ok e2);
                  ESleep (backoff (delay st) 2 j2);
                  EAttempt 2 (Ok (Some u))]
           /\ sleeps_of (skipn (length (trace st)) (trace st'))
              = [backoff (delay st) 1 j1; backoff (delay st) 2 j2]).
Proof.
  intros Huni H0 H10 Hn. split.
  - assert (H : ensures (search_with_retries f) st
                  (fun r s =>
                     exists result runs,
                       r = Ok result
                       /\ delay s = delay st
                       /\ max_retries s = max_retries st
                       /\ trace s =
                          trace st
                          ++ expected_trace (delay st) (max_retries st) 0 runs
                       /\ Forall (fun run => jitter_ok (fst run)) runs
                       /\ ends_with (Z.to_nat (max_retries st)) runs result)).
    { unfold _search_with_retries. apply ensures_bind, ensures_self_max_retries.
      apply retry_loop_paced; auto. lia. }
    unfold Paced.ensures in H.
    destruct H as (result & runs & Hr & _ & _ & Ht & Hj & Hend).
    exists result, runs, (snd (search_with_retries f st)).
    split; [rewrite <- Hr; apply surjective_pairing|].
    repeat split; auto.
    + destruct result as [u|]; cbn [ends_with] in Hend.
      * destruct Hend as (init & j & o & -> & _). rewrite length_app. simpl. lia.
      * destruct Hend as [_ ->]. lia.
    + destruct result as [u|]; cbn [ends_with] in Hend.
      * now destruct Hend as (init & j & o & _ & _ & _ & Hlen).
      * destruct Hend as [_ ->]. lia.
  - intros e1 e2 u w1 w1' w2 w2' w3 j1 j2 Hmax Hf0 He1 Hu1 Hf1 He2 Hu2 Hf2 Hu.
    assert (Hmiss : forall e : option str, otruthy e = false -> hit (Ok e) = None).
    { intros [[|c x]|]; simpl; congruence. }
    assert (Hhit : hit (Ok (Some u)) = Some u).
    { destruct u; [congruence|reflexivity]. }
    assert (H : ensures (search_with_retries f) st
                  (fun r s =>
                     r = Ok (Some u)
                     /\ trace s =
                        trace st
                        ++ [EAttempt 0 (Ok e1);
                            ESleep (backoff (delay st) 1 j1);
                            EAttempt 1 (Ok e2);
                            ESleep (backoff (delay st) 2 j2);
                            EAttempt 2 (Ok (Some u))])).
    { unfold _search_with_retries. apply ensures_bind, ensures_self_max_retries.
      rewrite Hmax. change (Z.to_nat 3) with 3. cbn [retry_loop].
      apply ensures_bind.
      eapply ensures_mono; [apply attempt_body_paced; auto; lia|].
      cbn zeta. unfold drawn. cbn [Nat.ltb Nat.leb fst snd].
      rewrite Hf0. cbn [fst snd]. rewrite (Hmiss e1 He1).
      intros r s0 (-> & Hb0 & _ & Hw0 & Ht0).
      apply ensures_bind.
      eapply ensures_mono;
        [apply attempt_body_paced; rewrite ?Hb0; auto; lia|].
      cbn zeta. unfold drawn. cbn [Nat.ltb Nat.leb fst snd].
      rewrite Hw0, Hu1. cbn [fst snd]. rewrite Hf1. cbn [fst snd].
      rewrite (Hmiss e2 He2).
      intros r s1 (-> & Hb1 & _ & Hw1 & Ht1).
      apply ensures_bind.
      eapply ensures_mono;
        [apply attempt_body_paced; rewrite ?Hb1, ?Hb0; auto; lia|].
      cbn zeta. unfold drawn. cbn [Nat.ltb Nat.leb fst snd].
      rewrite Hw1, Hu2. cbn [fst snd]. rewrite Hf2. cbn [fst snd].
      rewrite Hhit.
      intros r s2 (-> & Hb2 & _ & Hw2 & Ht2).
      apply ensures_ret. split; auto.
      rewrite Ht2, Ht1, Ht0, Hb1, Hb0. cbn [recovery app].
      rewrite <- !app_assoc. reflexivity. }
    unfold Paced.ensures in H. destruct H as [Hr Ht].
    exists (snd (search_with_retries f st)).
    split; [rewrite <- Hr; apply surjective_pairing|].
    split; auto. rewrite Ht.
    rewrite drop_app_length. reflexivity.
Qed.

End PacedFacts.

(* ------------------------------------------------------------------ *)
(** ** Concrete runs *)




(* ------------------------------------------------------------------ *)
(** ** Relevance scoring *)

Section RelevanceFacts.
Context {U : Unicode}.

Lemma calculate_relevance_closed_form (title : str) (track_name artist_name : option str) :
  let title_normalized := normalize_text (Some title) in
  let track_normalized :=
    if otruthy track_name then normalize_text track_name else lit "" in
  let artist_normalized :=
    if otruthy artist_name then normalize_text artist_name else lit "" in
  let demoted (term : string) := contains (lit term) title_normalized in
  FourSharedScraper._calculate_relevance title track_name artist_name
  = if truthy title then
      py_fmax 0.0
        (bonus (truthy track_normalized
                && contains track_normalized title_normalized) 0.5
         + bonus (truthy artist_normalized
                  && contains artist_normalized title_normalized) 0.3
         + bonus (existsb (fun ext => contains ext title_normalized)
                          FourSharedScraper.audio_extensions) 0.2
         - bonus (demoted "remix"%string) 0.1
         - bonus (demoted "karaoke"%string) 0.1
         - bonus (demoted "instrumental"%string) 0.1
         - bonus (demoted "cover"%string) 0.1
         - bonus (demoted "live"%string) 0.1)%float
    else 0.0%float.
Proof.
  cbn zeta. unfold FourSharedScraper._calculate_relevance.
  destruct (truthy title); [|reflexivity]. cbn [negb].
  unfold FourSharedScraper.avoid_terms. cbn [map fold_left].
  set (T := normalize_text (Some title)).
  set (t := if otruthy track_name then normalize_text track_name else lit "").
  set (a := if otruthy artist_name then normalize_text artist_name else lit "").
  generalize (truthy t && contains t T), (truthy a && contains a T),
    (existsb (fun ext => contains ext T) FourSharedScraper.audio_extensions),
    (contains (lit "remix") T), (contains (lit "karaoke") T),
    (contains (lit "instrumental") T), (contains (lit "cover") T),
    (contains (lit "live") T).
  intros b1 b2 b3 d1 d2 d3 d4 d5.
  destruct b1, b2, b3, d1, d2, d3, d4, d5; vm_compute; reflexivity.
Qed.

(** The score lies between 0 and 1, also in binary64 arithmetic. *)
Lemma calculate_relevance_bounds (title : str) (track_name artist_name : option str) :
  PrimFloat.leb 0.0
    (FourSharedScraper._calculate_relevance title track_name artist_name) = true
  /\ PrimFloat.leb
       (FourSharedScraper._calculate_relevance title track_name artist_name)
       1.0 = true.
Proof.
  rewrite calculate_relevance_closed_form. cbn zeta.
  destruct (truthy title); [|vm_compute; auto].
  set (T := normalize_text (Some title)).
  set (t := if otruthy track_name then normalize_text track_name else lit "").
  set (a := if otruthy artist_name then normalize_text artist_name else lit "").
  generalize (truthy t && contains t T), (truthy a && contains a T),
    (existsb (fun ext => contains ext T) FourSharedScraper.audio_extensions),
    (contains (lit "remix") T), (contains (lit "karaoke") T),
    (contains (lit "instrumental") T), (contains (lit "cover") T),
    (contains (lit "live") T).
  intros b1 b2 b3 d1 d2 d3 d4 d5.
  destruct b1, b2, b3, d1, d2, d3, d4, d5; vm_compute; auto.
Qed.

End RelevanceFacts.

(** C4, as the source has it.  The score is 0 for an empty link text and
    otherwise [max(0, ...)] of: 0.5 when the normalised track is not
    empty and occurs in the normalised link text, plus 0.3 likewise for
    the artist, plus 0.2 when the text holds one of [.mp3 .m4a .wav .flac
    .aac], minus 0.1 for each of the five demotion terms that occurs in
    the text, however often it occurs.  It lies in [[0, 1]].  Of the
    candidates "Artist - Song.mp3" and "Artist - Song (Remix).mp3" the
    first scores 1.0, the second 0.9, and the first is selected in
    either order of encounter. *)
Theorem relevance_score_and_choice :
  (forall (U : Unicode) (title : str) (track_name artist_name : option str),
      let title_normalized := normalize_text (Some title) in
      let track_normalized :=
        if otruthy track_name then normalize_text track_name else lit "" in
      let artist_normalized :=
        if otruthy artist_name then normalize_text artist_name else lit "" in
      let demoted (term : string) := contains (lit term) title_normalized in
      FourSharedScraper._calculate_relevance title track_name artist_name
      = (if truthy title then
           py_fmax 0.0
             (bonus (truthy track_normalized
                     && contains track_normalized title_normalized) 0.5
              + bonus (truthy artist_normalized
                       && contains artist_normalized title_normalized) 0.3
              + bonus (existsb (fun ext => contains ext title_normalized)
                               FourSharedScraper.audio_extensions) 0.2
              - bonus (demoted "remix"%string) 0.1
              - bonus (demoted "karaoke"%string) 0.1
              - bonus (demoted "instrumental"%string) 0.1
              - bonus (demoted "cover"%string) 0.1
              - bonus (demoted "live"%string) 0.1)%float
         else 0.0%float)
      /\ PrimFloat.leb 0.0
           (FourSharedScraper._calculate_relevance title track_name artist_name)
         = true
      /\ PrimFloat.leb
           (FourSharedScraper._calculate_relevance title track_name artist_name)
           1.0 = true)
  /\ FourSharedScraper.relevance Candidates.plain = 1.0%float
  /\ FourSharedScraper.relevance Candidates.remix = 0.9%float
  /\ PrimFloat.ltb (FourSharedScraper.relevance Candidates.remix)
                   (FourSharedScraper.relevance Candidates.plain) = true
  /\ FourSharedScraper._select_best_link
       [Candidates.plain; Candidates.remix] Candidates.track Candidates.artist
     = Some (lit "/file/1")
  /\ FourSharedScraper._select_best_link
       [Candidates.remix; Candidates.plain] Candidates.track Candidates.artist
     = Some (lit "/file/1").
Proof.
  split.
  - intros U title track_name artist_name. cbn zeta. split.
    + apply calculate_relevance_closed_form.
    + apply calculate_relevance_bounds.
  - vm_compute. repeat split; reflexivity.
Qed.

(** C4 as stated fails in two ways.  A demotion term that occurs twice
    costs 0.1 once, not twice: the source scores 0.9 where the stated
    rule gives 0.8.  And an empty track or artist earns no bonus,
    although the empty string is a substring of every text: the source
    scores 0.2 where the stated rule gives 1.0. *)
Lemma relevance_differs_from_stated_rule :
  ~ (forall (title : str) (track_name artist_name : option str),
        FourSharedScraper._calculate_relevance (U := ascii_tables)
          title track_name artist_name
        = FourSharedScraper.relevance_as_specified (U := ascii_tables)
            title track_name artist_name)
  /\ FourSharedScraper._calculate_relevance (U := ascii_tables)
       (lit "Artist - Song (Remix) remix.mp3") Candidates.track Candidates.artist
     = 0.9%float
  /\ FourSharedScraper.relevance_as_specified (U := ascii_tables)
       (lit "Artist - Song (Remix) remix.mp3") Candidates.track Candidates.artist
     = 0.8%float
  /\ FourSharedScraper._calculate_relevance (U := ascii_tables)
       (lit "x.mp3") (Some (lit "")) (Some (lit ""))
     = 0.2%float
  /\ FourSharedScraper.relevance_as_specified (U := ascii_tables)
       (lit "x.mp3") (Some (lit "")) (Some (lit ""))
     = 1.0%float.
Proof.
  split.
  - intros H.
    specialize (H (lit "x.mp3") (Some (lit "")) (Some (lit ""))).
    apply (f_equal (fun x => PrimFloat.eqb x 1.0)) in H.
    vm_compute in H. discriminate.
  - vm_compute. repeat split; reflexivity.
Qed.

(* ------------------------------------------------------------------ *)
(** ** Primary catalog search *)

Section SearcherFacts.
Context {U : Unicode} {W : Type}.
Context (ytmusic_search : str -> option str -> Z -> SE W (list YouTubeMusicSearcher.entry)).

Import YouTubeMusicSearcher.

Lemma is_valid_music_result_accepts (r : entry) :
  textual r = true -> _is_valid_music_result r = Ok (accepts r).
Proof.
  unfold textual, _is_valid_music_result, accepts.
  destruct (field_truthy (videoId r)); [|reflexivity].
  destruct (title r) as [| |t], (resultType r) as [| |ty], (category r) as [| |c];
    try discriminate; intros _; cbn [negb andb get_lower field_text];
    cbn [mbind res_mbind res_bind];
    repeat match goal with
           | |- context [if ?b then _ else _] => destruct b eqn:?
           end; cbn [orb andb negb] in *; try reflexivity; try congruence.
Qed.

Lemma first_accepted_find (rs : list entry) :
  Forall (fun r => textual r = true) rs ->
  first_accepted rs = Ok (option_map watch_url (List.find accepts rs)).
Proof.
  induction 1 as [|r rs Hr Hrs IH]; [reflexivity|].
  cbn [first_accepted List.find]. rewrite (is_valid_music_result_accepts r Hr).
  cbn [mbind res_mbind res_bind].
  destruct (accepts r) eqn:Ea; [|exact IH].
  unfold accepts in Ea. apply andb_true_iff in Ea as [Ev _].
  cbn [option_map]. unfold watch_url.
  destruct (videoId r) as [| |v]; try discriminate.
  cbn [field_truthy] in Ev. rewrite Ev. reflexivity.
Qed.

(** The check on any entry: it raises on a malformed one and follows
    the acceptance rule on every other. *)
Lemma is_valid_music_result_rule (r : entry) :
  _is_valid_music_result r
  = if malformed r then Raise AttributeError else Ok (accepts r).
Proof.
  unfold malformed. destruct (textual r) eqn:Et.
  - rewrite andb_false_r. now apply is_valid_music_result_accepts.
  - rewrite andb_true_r. unfold _is_valid_music_result, accepts.
    destruct (field_truthy (videoId r)); [|reflexivity]. cbn [negb].
    unfold textual in Et.
    destruct (title r) as [| |t]; cbn [get_lower mbind res_mbind res_bind];
      [|reflexivity|];
      (destruct (resultType r) as [| |ty];
       cbn [get_lower mbind res_mbind res_bind]; [|reflexivity|];
       (destruct (category r) as [| |c];
        cbn [get_lower mbind res_mbind res_bind];
        [discriminate|reflexivity|discriminate])).
Qed.

(** One scan of a result list: it stops at the first entry that is
    malformed or accepted. *)
Lemma first_accepted_settles (rs : list entry) :
  first_accepted rs
  = match List.find settles rs with
    | Some r => if malformed r then Raise AttributeError
                else Ok (Some (watch_url r))
    | None => Ok None
    end.
Proof.
  induction rs as [|r rs IH]; [reflexivity|].
  cbn [first_accepted List.find]. rewrite is_valid_music_result_rule.
  unfold settles at 1. destruct (malformed r) eqn:Em.
  { cbn [orb mbind res_mbind res_bind]. now rewrite Em. }
  cbn [orb mbind res_mbind res_bind].
  destruct (accepts r) eqn:Ea; [|exact IH].
  rewrite Em. unfold accepts in Ea. apply andb_true_iff in Ea as [Ev _].
  unfold watch_url.
  destruct (videoId r) as [| |v]; try discriminate.
  cbn [field_truthy] in Ev. rewrite Ev. reflexivity.
Qed.

(** C3, as the source has it.  An entry without an identifier is
    refused.  On an entry with an identifier whose title, result type or
    category is [None] the check raises.  Any other entry is accepted
    exactly when its result type is song or video, or its category is
    songs or music, or else its result type names none of playlist,
    album, artist, interview, documentary and its title holds none of
    "interview", "documentary", "behind the scenes", "making of".
    [search] goes through the songs-filtered results in order and stops
    at the first entry that is accepted or on which the check raises:
    it returns the watch URL of the one and [None] at the other.  Only
    when the filtered results hold neither is the unfiltered search
    made, under the same rule; a provider failure gives [None]. *)
Theorem search_first_accepted (query : str) (max_results : Z) (w : W) :
  truthy query = true ->
  (forall r, _is_valid_music_result r
             = if malformed r then Raise AttributeError else Ok (accepts r))
  /\ search ytmusic_search true query max_results w =
     match ytmusic_search query (Some (lit "songs")) max_results w with
     | (Raise _, w1) => (Ok None, w1)
     | (Ok filtered, w1) =>
         match List.find settles filtered with
         | Some r => (Ok (settled r), w1)
         | None =>
             match ytmusic_search query None max_results w1 with
             | (Raise _, w2) => (Ok None, w2)
             | (Ok unfiltered, w2) =>
                 (Ok (List.find settles unfiltered ≫= settled), w2)
             end
         end
     end.
Proof.
  intros Hq. split; [apply is_valid_music_result_rule|].
  unfold search. rewrite Hq. cbn [negb orb]. se_unfold.
  destruct (ytmusic_search query (Some (lit "songs")) max_results w)
    as [[filtered|e] w1] eqn:E1; [|reflexivity].
  rewrite (first_accepted_settles filtered). unfold settled.
  destruct (List.find settles filtered) as [r|];
    [destruct (malformed r); reflexivity|].
  destruct (ytmusic_search query None max_results w1)
    as [[unfiltered|e] w2] eqn:E2; [|reflexivity].
  rewrite (first_accepted_settles unfiltered).
  destruct (List.find settles unfiltered) as [r|]; [|reflexivity].
  cbn. unfold settled. destruct (malformed r); reflexivity.
Qed.

End SearcherFacts.

(** The theorem at work: the playlist is passed over, the song is taken,
    and no unfiltered search is made; and the check raises on a song
    whose category is [None]. *)
Lemma search_first_accepted_witness :
  truthy (lit "song") = true
  /\ YouTubeMusicSearcher.search (U := ascii_tables) Entries.provider
       true (lit "song") 5 tt
     = (Ok (Some (watch_prefix ++ lit "abcdefghijk")), tt)
  /\ YouTubeMusicSearcher._is_valid_music_result (U := ascii_tables)
       Entries.no_category
     = Raise AttributeError.
Proof.
  assert (H1 : truthy (lit "song") = true) by reflexivity.
  split; [exact H1|].
  destruct (search_first_accepted (U := ascii_tables) Entries.provider
              (lit "song") 5 tt H1) as [Hrule H].
  split; [rewrite H; reflexivity|].
  rewrite Hrule. reflexivity.
Defined.

(** C3 as stated fails: the source accepts a song whose title contains
    "interview", and an entry whose type and category say nothing of
    song or video, where the stated rule refuses both. *)
Lemma accepted_against_stated_rule :
  ~ (forall r : YouTubeMusicSearcher.entry,
        YouTubeMusicSearcher._is_valid_music_result (U := ascii_tables) r
        = YouTubeMusicSearcher.accepted_as_specified (U := ascii_tables) r)
  /\ YouTubeMusicSearcher._is_valid_music_result (U := ascii_tables)
       Entries.interview_song = Ok true
  /\ YouTubeMusicSearcher.accepted_as_specified (U := ascii_tables)
       Entries.interview_song = Ok false
  /\ YouTubeMusicSearcher._is_valid_music_result (U := ascii_tables)
       Entries.untyped = Ok true
  /\ YouTubeMusicSearcher.accepted_as_specified (U := ascii_tables)
       Entries.untyped = Ok false.
Proof.
  split.
  - intros H. specialize (H Entries.interview_song).
    vm_compute in H. discriminate.
  - vm_compute. repeat split; reflexivity.
Qed.

(** The theorem at work on [Scripted.third_time_lucky], with a delay of
    0.1 s: the first backoff sleep is [0.1 * 2 + 0.1], which binary64
    rounds to 0.30000000000000004. *)
Lemma search_with_retries_paced_witness :
  Paced.uniform_in_range (W := nat) Timed.lowest
  /\ (0 <=? Binary64.delay (Timed.store0 0))%float = true
  /\ (Binary64.delay (Timed.store0 0) <=? 10)%float = true
  /\ (1 <= Binary64.max_retries (Timed.store0 0) <= 1024)%Z
  /\ (exists st',
         Binary64._search_with_retries (U := ascii_tables) Timed.lowest
           (Scripted.third_time_lucky (lit "url")) (Timed.store0 0)
         = (Ok (Some (lit "url")), st')
         /\ Binary64.trace st' =
            [] ++ [Binary64.EAttempt 0 (Ok None);
                   Binary64.ESleep (Paced.backoff 0.1 1 0.1);
                   Binary64.EAttempt 1 (Ok None);
                   Binary64.ESleep (Paced.backoff 0.1 2 0.1);
                   Binary64.EAttempt 2 (Ok (Some (lit "url")))]
         /\ Paced.sleeps_of (skipn 0 (Binary64.trace st'))
            = [Paced.backoff 0.1 1 0.1; Paced.backoff 0.1 2 0.1])
  /\ Paced.backoff 0.1 1 0.1 = 0x1.3333333333334p-2%float
  /\ Paced.backoff 0.1 2 0.1 = 0.5%float.
Proof.
  assert (H1 : Paced.uniform_in_range (W := nat) Timed.lowest).
  { intros w. split; reflexivity. }
  assert (H2 : (0 <=? Binary64.delay (Timed.store0 0))%float = true)
    by reflexivity.
  assert (H3 : (Binary64.delay (Timed.store0 0) <=? 10)%float = true)
    by reflexivity.
  assert (H4 : (1 <= Binary64.max_retries (Timed.store0 0) <= 1024)%Z)
    by (cbn; lia).
  split; [exact H1|]. split; [exact H2|]. split; [exact H3|].
  split; [exact H4|]. split; [|split; reflexivity].
  destruct (search_with_retries_paced (U := ascii_tables) Timed.lowest
              (Scripted.third_time_lucky (lit "url")) (Timed.store0 0)
              H1 H2 H3 H4) as [_ Hs].
  refine (Hs None None (lit "url") 1 1 2 2 3 0.1%float 0.1%float
             eq_refl eq_refl eq_refl eq_refl eq_refl eq_refl eq_refl eq_refl _).
  discriminate.
Defined.

(** C2 as stated fails: nothing in it keeps the delay from being
    negative, and with a delay of minus one second the search function
    that brings nothing twice and then a result, three retries allowed,
    is called once.  The first backoff is [-1 * 2 + 0.1], which
    [time.sleep] refuses with a [ValueError]; the handler of the loop
    catches it and asks for a sleep of [-1 * 2] seconds, and that
    [ValueError] leaves [_search_with_retries]: no result and no
    sleep. *)
Lemma search_with_retries_negative_delay :
  let out :=
    Binary64._search_with_retries (U := ascii_tables) Timed.lowest
      (Scripted.third_time_lucky (lit "url")) (Timed.backwards 0) in
  Binary64.max_retries (Timed.backwards 0) = 3%Z
  /\ Paced.uniform_in_range (W := nat) Timed.lowest
  /\ fst out = Raise ValueError
  /\ Binary64.trace (snd out) = [Binary64.EAttempt 0 (Ok None)]
  /\ Paced.sleeps_of (Binary64.trace (snd out)) = [].
Proof.
  cbn zeta. split; [reflexivity|]. split; [intros w; split; reflexivity|].
  vm_compute. repeat split; reflexivity.
Qed.

(* ------------------------------------------------------------------ *)
(** ** Web result scraper *)

Section ScraperFacts.
Context {W : Type}.
Context (quote_plus : str -> str)
        (json_loads : str -> res YouTubeScraper.json)
        (session_get : str -> Z -> SE W Response)
        (time_sleep : Q -> SE W unit).

Import YouTubeScraper.

Lemma first_result_some {A} (f : A -> option str) (l : list A) (r : str) :
  first_result f l = Some r -> exists x, In x l /\ f x = Some r.
Proof.
  induction l as [|x l IH]; [discriminate|]. cbn [first_result].
  destruct (f x) as [r'|] eqn:Ef.
  - destruct (truthy r').
    + intros [= <-]. exists x. split; [now left | exact Ef].
    + intros H. destruct (IH H) as (y & Hy & Hfy). exists y. split; [now right|auto].
  - intros H. destruct (IH H) as (y & Hy & Hfy). exists y. split; [now right|auto].
Qed.

Lemma recursive_search_valid (depth : nat) :
  forall (data : json) (video_id : str),
    _recursive_search_video_id depth data = Some video_id ->
    _is_valid_video_id (JString video_id) = true.
Proof.
  induction depth as [|depth IH]; intros data video_id; [discriminate|].
  cbn [_recursive_search_video_id].
  destruct data as [| | | |items|members]; try discriminate.
  - intros H. apply first_result_some in H as (x & _ & Hx). eauto.
  - destruct (dict_get (lit "videoId") members) as [[| | |s| |]|] eqn:Eg;
      try (intros H; apply first_result_some in H as (x & _ & Hx); eauto).
    destruct (_is_valid_video_id (JString s)) eqn:Ev.
    + now intros [= <-].
    + intros H. apply first_result_some in H as (x & _ & Hx). eauto.
Qed.

Lemma search_attempt_shape (timeout : Z) (query : str) (w : W) (url : str) :
  fst (_search_attempt quote_plus json_loads session_get timeout query w)
  = Ok (Some url) ->
  id_shaped url.
Proof.
  unfold _search_attempt, raise_for_status. se_unfold.
  destruct (session_get _ timeout w) as [[response|e] w1]; [|discriminate].
  destruct (Response_ok response); [|discriminate].
  destruct (_extract_yt_initial_data json_loads (text response)) as [data|];
    [|discriminate].
  destruct (json_truthy data); [|discriminate]. cbn [negb].
  destruct (_find_first_video_id data) as [video_id|] eqn:Ef; [|discriminate].
  destruct (truthy video_id); [|discriminate].
  cbn [fst]. intros [= <-].
  apply recursive_search_valid in Ef. exists video_id. split; [reflexivity|].
  unfold _is_valid_video_id in Ef.
  destruct (truthy video_id); [|discriminate]. cbn [negb] in Ef.
  apply andb_true_iff in Ef as [Hlen Hpat].
  apply Nat.eqb_eq in Hlen. auto.
Qed.

Lemma search_loop_shape (timeout : Z) (query : str) (max_retries : Z)
      (remaining : nat) :
  forall (attempt : Z) (w : W) (url : str),
    fst (search_loop quote_plus json_loads session_get time_sleep
                     timeout query max_retries attempt remaining w)
    = Ok (Some url) ->
    id_shaped url.
Proof.
  induction remaining as [|n IH]; intros attempt w url; [discriminate|].
  cbn [search_loop]. se_unfold.
  pose proof (search_attempt_shape timeout query w) as Hshape.
  destruct (_search_attempt quote_plus json_loads session_get timeout query w)
    as [[found|e] w1]; cbn [fst] in Hshape.
  - destruct (otruthy found) eqn:Et.
    + destruct found as [u|]; [|discriminate]. intros [= <-]. now apply Hshape.
    + destruct ((if (attempt <? max_retries - 1)%Z
                 then time_sleep (1 * inject_Z (attempt + 1))
                 else fun s => (Ok tt, s)) w1) as [[[]|e] w2].
      * apply IH.
      * destruct ((if (attempt <? max_retries - 1)%Z
                   then time_sleep (2 * inject_Z (attempt + 1))
                   else fun s => (Ok tt, s)) w2) as [[[]|e'] w3];
          [apply IH | discriminate].
  - destruct ((if (attempt <? max_retries - 1)%Z
               then time_sleep (2 * inject_Z (attempt + 1))
               else fun s => (Ok tt, s)) w1) as [[[]|e'] w3];
      [apply IH | discriminate].
Qed.

(** Every URL [search] returns is the watch prefix followed by eleven
    characters that the identifier pattern admits. *)
Lemma search_shape (timeout : Z) (query : str) (max_retries : Z) (w : W)
      (url : str) :
  fst (search quote_plus json_loads session_get time_sleep
              timeout query max_retries w)
  = Ok (Some url) ->
  id_shaped url.
Proof.
  unfold search. destruct (truthy query); [|discriminate]. cbn [negb].
  apply search_loop_shape.
Qed.

End ScraperFacts.

(** What the identifier pattern admits: characters of the alphabet
    only, or such characters followed by one final newline. *)
Lemma id_pattern_admits (s : str) :
  forall some : bool,
    YouTubeScraper.id_pattern some s = true ->
    forallb YouTubeScraper.id_char s = true
    \/ exists body, s = body ++ [10%N]
                    /\ forallb YouTubeScraper.id_char body = true.
Proof.
  induction s as [|c s IH]; intros some H; [now left|].
  cbn [YouTubeScraper.id_pattern] in H.
  destruct (N.eqb c 10 && negb (truthy s)) eqn:E.
  - apply andb_true_iff in E as [Ec Es]. apply N.eqb_eq in Ec. subst c.
    destruct s; [|discriminate]. right. exists []. auto.
  - apply andb_true_iff in H as [Hc Hs].
    destruct (IH true Hs) as [Hall|(body & -> & Hbody)].
    + left. cbn [forallb]. now rewrite Hc.
    + right. exists (c :: body). split; [reflexivity|].
      cbn [forallb]. now rewrite Hc.
Qed.

Lemma dots_id_chars (s : str) :
  forallb YouTubeScraper.id_char s = true -> dots (length s) s = true.
Proof.
  induction s as [|c s IH]; [reflexivity|]. cbn [forallb length dots].
  intros H. apply andb_true_iff in H as [Hc Hs]. rewrite (IH Hs), andb_true_r.
  destruct (N.eqb c 10) eqn:E; [|reflexivity].
  apply N.eqb_eq in E. subst c. discriminate.
Qed.

Lemma startswith_app (p s : str) : startswith p (p ++ s) = true.
Proof.
  induction p as [|a p IH]; [reflexivity|].
  cbn [app startswith]. now rewrite N.eqb_refl, IH.
Qed.

(** A watch URL whose identifier has eleven characters of the alphabet
    passes [is_valid_youtube_url]. *)
Lemma watch_url_valid (video_id : str) :
  length video_id = 11 ->
  forallb YouTubeScraper.id_char video_id = true ->
  is_valid_youtube_url (Some (watch_prefix ++ video_id)) = true.
Proof.
  intros Hlen Hall. unfold is_valid_youtube_url.
  destruct (watch_prefix ++ video_id) as [|c u] eqn:E.
  - apply (f_equal length) in E. rewrite length_app in E.
    cbn [length] in E. lia.
  - rewrite <- E, startswith_app, drop_app_length. cbn [andb].
    rewrite <- Hlen. now apply dots_id_chars.
Qed.

(* ------------------------------------------------------------------ *)
(** ** Run orchestrator *)

Section OrchestratorFacts.
Context {U : Unicode} {W : Type}.
Context (random_uniform : Q -> Q -> W -> Q * W)
        (youtube_music_available : bool)
        (youtube_music_search youtube_scraper_search : str -> SE W (option str))
        (fourshared_scraper_search :
           str -> option str -> option str -> SE W (option str))
        (progress_callback : Z -> Z -> Stats.t -> str -> SE W unit).

Local Abbreviation store := (@store W).
Local Abbreviation M := (@M W).
Local Abbreviation resolve :=
  (search_single_track random_uniform youtube_music_available
                       youtube_music_search youtube_scraper_search
                       fourshared_scraper_search).
Local Abbreviation loop :=
  (tracks_loop random_uniform youtube_music_available
               youtube_music_search youtube_scraper_search
               fourshared_scraper_search progress_callback).

(** With a progress sink that does not raise and a delay that is not
    negative, the track loop adds exactly one entry per track, in order,
    each keyed by its track's index. *)
Lemma tracks_loop_one_entry_each (delay : Q) (total : Z)
      (tracks_data : list TrackData.t) :
  (0 <= delay)%Q ->
  (forall c t snapshot label w,
      fst (progress_callback c t snapshot label w) = Ok tt) ->
  forall (i : Z) (st : store),
    after (loop delay total i tracks_data) st
          (fun r s =>
             r = Ok tt
             /\ exists entries,
                 results s = results st ++ entries
                 /\ map Result.index entries
                    = map (fun t => Some (TrackData.index t)) tracks_data).
Proof.
  intros Hd Hsink.
  induction tracks_data as [|track_data rest IH]; intros i st.
  - apply after_ret. split; auto. exists []. now rewrite app_nil_r.
  - cbn [tracks_loop]. apply after_bind.
    apply after_mono with
      (Q := fun r s =>
              r = Ok tt
              /\ exists entry,
                  results s = results st ++ [entry]
                  /\ Result.index entry = Some (TrackData.index track_data)).
    + apply after_try. apply after_bind.
      destruct (resolve_outcome random_uniform youtube_music_available
                  youtube_music_search youtube_scraper_search
                  fourshared_scraper_search
                  (Some (TrackData.track_name track_data))
                  (Some (TrackData.artist_name track_data)) st)
        as (c & found & st1 & Hrun & _ & _ & Hres).
      unfold after. rewrite Hrun. cbn [fst snd].
      apply after_bind, after_modify, after_bind, after_get, after_bind.
      unfold after, in_world.
      cbn [bot world results trace append_result].
      pose proof (Hsink (i + 1)%Z total (Bot.stats (bot st1))
                        (TrackData.track_name track_data ++ lit " - "
                         ++ TrackData.artist_name track_data)
                        (world st1)) as Hs.
      destruct (progress_callback _ _ _ _ (world st1)) as [r w1].
      cbn [fst] in Hs. subst r. cbn [fst snd].
      apply after_bind, after_modify.
      assert (Hdone :
                exists entry,
                  results st1 ++ [Result.set_index found (TrackData.index track_data)]
                  = results st ++ [entry]
                  /\ Result.index entry = Some (TrackData.index track_data)).
      { eexists. rewrite Hres. split; reflexivity. }
      destruct (i <? total - 1)%Z.
      * unfold after, time_sleep.
        assert (Hq : Qltb delay 0 = false).
        { unfold Qltb. apply negb_false_iff. now apply Qle_bool_iff. }
        rewrite Hq. cbn. auto.
      * apply after_ret. cbn. auto.
    + intros r s1 (-> & entry & Hres1 & Hidx).
      eapply after_mono; [apply IH|].
      intros r s2 (-> & entries & Hres2 & Hidxs). split; auto.
      exists (entry :: entries). rewrite Hres2, Hres1, <- app_assoc.
      split; [reflexivity|]. cbn [map]. now rewrite Hidx, Hidxs.
Qed.

End OrchestratorFacts.

(* ------------------------------------------------------------------ *)
(** ** Where the source departs from the specification *)

(** C5 (the source does otherwise).  [_search_with_retries] never changes
    the bot, whatever the search function raises: a response with status
    429 is falsy, so the guard of the rate-limit branch fails.  On a
    search function that always raises the [HTTPError] of a 429 response
    with [Retry-After: 5], from delay 1.5 and three retries, the delay is
    still 1.5 afterwards and the only sleeps are the two backoff sleeps
    of 3.1 and 6.1 seconds.  The body of the branch, had it run, would
    have set the delay to 2.25 and slept the 5 seconds asked for. *)
Theorem rate_limit_branch_is_dead :
  (forall (U : Unicode) (W : Type) (random_uniform : Q -> Q -> W -> Q * W)
          (f : SE W (option str)) (st : @store W),
      bot (snd (_search_with_retries random_uniform f st)) = bot st)
  /\ (let out := _search_with_retries (U := ascii_tables) Scripted.lowest
                   Scripted.rate_limited (Scripted.store0 tt) in
      fst out = Ok None
      /\ Bot.delay (bot (snd out)) = 3 # 2
      /\ map Qred (sleeps_of (trace (snd out))) = [31 # 10; 61 # 10]
      /\ Response_bool Scripted.too_many_requests = false)
  /\ (let out := on_rate_limit (U := ascii_tables) Scripted.too_many_requests
                   (Scripted.store0 tt) in
      fst out = Ok tt
      /\ Qred (Bot.delay (bot (snd out))) = 9 # 4
      /\ map Qred (sleeps_of (trace (snd out))) = [5 # 1]).
Proof.
  split; [|split].
  - intros U W random_uniform f st.
    apply (keeps_search_with_retries random_uniform f st).
  - vm_compute. repeat split; reflexivity.
  - vm_compute. repeat split; reflexivity.
Qed.

(** C8 (the source does otherwise).  On a one-row playlist whose track
    the scraper finds, with a progress sink that raises, [run_playlist]
    records two entries for row 0, the found one and then an error one,
    and the frame it writes has row 0 as an error with both links
    empty. *)
Theorem run_playlist_duplicates_on_sink_failure :
  let out := Scripted.run_one_row in
  fst out = Ok {| Stats.total_songs := 1; Stats.youtube_found := 1;
                  Stats.fourshared_found := 0; Stats.not_found := 0;
                  Stats.errors := 0 |}
  /\ map Result.index (results (snd out)) = [Some 0%Z; Some 0%Z]
  /\ map Result.status_of (results (snd out)) = [Found; Error]
  /\ map Result.youtube_url (results (snd out)) = [Scripted.found_url; lit ""]
  /\ (df ← world (snd out); df !! 0%Z) = Some (lit "", lit "", Error).
Proof. vm_compute. repeat split; reflexivity. Qed.

(** C9 (the source does otherwise).  On a results page whose data holds
    the identifier ["abcdefghij\n"], [YouTubeScraper.search] returns the
    watch URL built from it: the identifier passes [_is_valid_video_id],
    because [$] matches before a final newline, yet its last character is
    outside the identifier alphabet and [is_valid_youtube_url] rejects
    the URL. *)
Theorem scraper_url_with_newline :
  YouTubeScraper.search id Scripted.loads Scripted.get_page Scripted.no_sleep
                        10 (lit "song") 2 tt
  = (Ok (Some (watch_prefix ++ Scripted.padded_id)), tt)
  /\ YouTubeScraper._is_valid_video_id
       (YouTubeScraper.JString Scripted.padded_id) = true
  /\ length Scripted.padded_id = 11
  /\ forallb YouTubeScraper.id_char Scripted.padded_id = false
  /\ is_valid_youtube_url (Some (watch_prefix ++ Scripted.padded_id)) = false.
Proof. vm_compute. repeat split; reflexivity. Qed.

(* ================================================================== *)
(** * Further properties of the code *)

(* ------------------------------------------------------------------ *)
(** ** Addresses *)

(** X1.  [_normalize_4shared_url] is idempotent: a normalised address
    is left as it is. *)
Theorem normalize_4shared_url_idempotent (url : str) :
  FourSharedScraper._normalize_4shared_url
    (FourSharedScraper._normalize_4shared_url url)
  = FourSharedScraper._normalize_4shared_url url.
Proof.
  unfold FourSharedScraper._normalize_4shared_url.
  destruct (truthy url) eqn:Et; [|reflexivity]. cbn [negb].
  destruct (startswith (lit "http") url) eqn:E1.
  { now rewrite Et, E1. }
  destruct (startswith (lit "//") url) eqn:E2; [reflexivity|].
  destruct (startswith (lit "/") url) eqn:E3; [reflexivity|].
  now rewrite Et, E1, E2, E3.
Qed.


Lemma startswith_split (p s : str) :
  startswith p s = true <-> exists rest, s = p ++ rest.
Proof.
  revert s. induction p as [|a p IH]; intros s; cbn [startswith].
  - split; [exists s; reflexivity|auto].
  - destruct s as [|b s].
    + split; [discriminate|]. intros [rest H]. discriminate.
    + rewrite andb_true_iff, N.eqb_eq, IH. split.
      * intros [-> [rest ->]]. now exists rest.
      * intros [rest [= -> ->]]. split; [reflexivity|now exists rest].
Qed.

Lemma dots_split (n : nat) (s : str) :
  dots n s = true <->
  exists body rest, s = body ++ rest /\ length body = n
                    /\ Forall (fun c => c <> 10%N) body.
Proof.
  revert s. induction n as [|n IH]; intros s; cbn [dots].
  - split; [|auto]. intros _. exists [], s. repeat split. constructor.
  - destruct s as [|x s].
    + split; [discriminate|]. intros (body & rest & H & Hlen & _).
      destruct body; discriminate.
    + rewrite andb_true_iff, negb_true_iff, N.eqb_neq, IH. split.
      * intros [Hx (body & rest & -> & Hlen & Hall)].
        exists (x :: body), rest. cbn [length]. repeat split; auto.
      * intros (body & rest & H & Hlen & Hall).
        destruct body as [|y body]; [discriminate|].
        injection H as -> ->. inversion Hall; subst.
        split; [assumption|]. exists body, rest. cbn [length] in Hlen.
        repeat split; auto.
Qed.

(** X3.  [is_valid_youtube_url] accepts exactly the texts that begin
    with the watch prefix followed by eleven characters other than a
    newline; what comes after them is not looked at. *)
Theorem is_valid_youtube_url_iff (url : str) :
  is_valid_youtube_url (Some url) = true <->
  exists video_id rest,
    url = watch_prefix ++ video_id ++ rest
    /\ length video_id = 11
    /\ Forall (fun c => c <> 10%N) video_id.
Proof.
  unfold is_valid_youtube_url. destruct url as [|c u].
  - split; [discriminate|]. intros (v & rest & H & _). discriminate.
  - rewrite andb_true_iff, startswith_split. split.
    + intros [[tail Htail] Hdots]. rewrite Htail, drop_app_length in Hdots.
      apply dots_split in Hdots as (body & rest & -> & Hlen & Hall).
      exists body, rest. auto.
    + intros (v & rest & -> & Hlen & Hall). split; [eauto|].
      rewrite drop_app_length. apply dots_split. eauto.
Qed.

(* ---------- _recursive_search_video_id ---------- *)

(* ------------------------------------------------------------------ *)
(** ** What the web scraper returns and parses *)

Lemma pause_returns {W : Type} (time_sleep : Q -> SE W unit)
      (c : Q) (attempt max_retries : Z) (w : W) :
  (forall x w, (0 < x)%Q -> fst (time_sleep x w) = Ok tt) ->
  (0 < c)%Q -> (0 <= attempt)%Z ->
  fst ((if (attempt <? max_retries - 1)%Z
        then time_sleep (c * inject_Z (attempt + 1))%Q
        else mret tt) w) = Ok tt.
Proof.
  intros Hs Hc Ha. destruct (attempt <? max_retries - 1)%Z; [|reflexivity].
  apply Hs. apply Qmult_lt_0_compat; [exact Hc|].
  unfold Qlt. simpl. lia.
Qed.

Section ScraperReturns.
Context {W : Type}.
Context (quote_plus : str -> str)
        (json_loads : str -> res YouTubeScraper.json)
        (session_get : str -> Z -> SE W Response)
        (time_sleep : Q -> SE W unit).

Import YouTubeScraper.

Lemma youtube_search_loop_returns (timeout : Z) (query : str) (max_retries : Z)
      (remaining : nat) :
  (forall x w, (0 < x)%Q -> fst (time_sleep x w) = Ok tt) ->
  forall (attempt : Z) (w : W),
    (0 <= attempt)%Z ->
    exists found,
      fst (search_loop quote_plus json_loads session_get time_sleep
                       timeout query max_retries attempt remaining w)
      = Ok found.
Proof.
  intros Hs. induction remaining as [|n IH]; intros attempt w Ha.
  - exists None. reflexivity.
  - cbn [search_loop]. se_unfold.
    destruct (_search_attempt quote_plus json_loads session_get timeout query w)
      as [[found|e] w1].
    + destruct (otruthy found) eqn:Et.
      * destruct found as [u|]; [|discriminate]. exists (Some u). reflexivity.
      * pose proof (pause_returns time_sleep 1 attempt max_retries w1 Hs
                      ltac:(reflexivity) Ha) as Hp.
        unfold mret, SE_ret, SE.ret in Hp.
        destruct ((if (attempt <? max_retries - 1)%Z
                   then time_sleep (1 * inject_Z (attempt + 1))
                   else fun s => (Ok tt, s)) w1) as [[[]|e] w2];
          [|discriminate].
        apply IH. lia.
    + pose proof (pause_returns time_sleep 2 attempt max_retries w1 Hs
                    ltac:(reflexivity) Ha) as Hp.
      unfold mret, SE_ret, SE.ret in Hp.
      destruct ((if (attempt <? max_retries - 1)%Z
                 then time_sleep (2 * inject_Z (attempt + 1))
                 else fun s => (Ok tt, s)) w1) as [[[]|e'] w2];
        [|discriminate].
      apply IH. lia.
Qed.

(** X4.  [YouTubeScraper.search] lets no exception escape: whatever
    the request, the parser or the page do, it returns a URL or [None],
    given that [time.sleep] accepts a positive length.  With an empty
    query or no retry allowed it returns [None] without a request. *)
Theorem youtube_scraper_search_returns (timeout : Z) (query : str)
        (max_retries : Z) (w : W) :
  (forall x w, (0 < x)%Q -> fst (time_sleep x w) = Ok tt) ->
  (exists found,
      fst (search quote_plus json_loads session_get time_sleep
                  timeout query max_retries w) = Ok found)
  /\ (query = [] \/ (max_retries <= 0)%Z ->
      search quote_plus json_loads session_get time_sleep
             timeout query max_retries w = (Ok None, w)).
Proof.
  intros Hs. unfold search. split.
  - destruct (truthy query); [|exists None; reflexivity]. cbn [negb].
    apply youtube_search_loop_returns; [exact Hs|lia].
  - intros [->|Hn]; [reflexivity|].
    destruct (truthy query); [|reflexivity]. cbn [negb].
    replace (Z.to_nat max_retries) with 0 by lia. reflexivity.
Qed.

(** X5.  A URL that [YouTubeScraper.search] returns is the watch
    prefix and an eleven-character identifier.  Either every character
    of the identifier is in the alphabet and the URL passes
    [is_valid_youtube_url], or the identifier is ten such characters
    and a final newline and the URL fails it. *)
Theorem youtube_scraper_url_passes_unless_newline (timeout : Z) (query : str)
        (max_retries : Z) (w : W) (url : str) :
  fst (search quote_plus json_loads session_get time_sleep
              timeout query max_retries w) = Ok (Some url) ->
  exists video_id,
    url = watch_prefix ++ video_id
    /\ length video_id = 11
    /\ ((forallb id_char video_id = true
         /\ is_valid_youtube_url (Some url) = true)
        \/ (exists body, video_id = body ++ [10%N]
                         /\ forallb id_char body = true
                         /\ is_valid_youtube_url (Some url) = false)).
Proof.
  intros H. apply search_shape in H as (video_id & -> & Hlen & Hpat).
  exists video_id. split; [reflexivity|]. split; [exact Hlen|].
  apply id_pattern_admits in Hpat as [Hall|(body & -> & Hbody)].
  - left. split; [exact Hall|]. now apply watch_url_valid.
  - right. exists body. split; [reflexivity|]. split; [exact Hbody|].
    unfold is_valid_youtube_url.
    destruct (watch_prefix ++ body ++ [10%N]) as [|c u] eqn:E; [reflexivity|].
    rewrite <- E, startswith_app, drop_app_length. cbn [andb].
    destruct (dots 11 (body ++ [10%N])) eqn:Ed; [|reflexivity].
    apply dots_split in Ed as (b & rest & Hsplit & Hb & Hnl).
    assert (rest = []).
    { apply (f_equal length) in Hsplit. rewrite !length_app in Hsplit.
      rewrite length_app in Hlen.
      destruct rest; [reflexivity|]. cbn [length] in *. lia. }
    subst rest. rewrite app_nil_r in Hsplit. subst b.
    apply Forall_app in Hnl as [_ Hnl]. inversion Hnl; subst. congruence.
Qed.

End ScraperReturns.

Section DocumentFacts.
Import YouTubeScraper.

Lemma first_result_found {A} (f : A -> option str) (l : list A) (x : A) (r : str) :
  In x l -> f x = Some r -> truthy r = true ->
  exists r', first_result f l = Some r'.
Proof.
  induction l as [|y l IH]; [intros []|]. intros [->|Hin] Hf Hr; cbn [first_result].
  - rewrite Hf, Hr. eauto.
  - destruct (f y) as [r0|]; [destruct (truthy r0); eauto|]; eauto.
Qed.

Lemma valid_video_id_truthy (s : str) :
  _is_valid_video_id (JString s) = true -> truthy s = true.
Proof. unfold _is_valid_video_id. destruct (truthy s); [auto|discriminate]. Qed.

Lemma recursive_search_sound (max_depth : nat) :
  forall (data : json) (video_id : str),
    _recursive_search_video_id max_depth data = Some video_id ->
    _is_valid_video_id (JString video_id) = true
    /\ exists depth, depth < max_depth /\ id_at depth data video_id.
Proof.
  induction max_depth as [|m IH]; intros data video_id; [discriminate|].
  cbn [_recursive_search_video_id].
  assert (Hitems : forall items,
             first_result (_recursive_search_video_id m) items = Some video_id ->
             _is_valid_video_id (JString video_id) = true
             /\ exists depth, depth < S m /\ id_at depth (JArray items) video_id).
  { intros items H. apply first_result_some in H as (x & Hin & Hx).
    destruct (IH _ _ Hx) as [Hv (d & Hd & Hat)]. split; [exact Hv|].
    exists (S d). split; [lia|]. econstructor; eauto. }
  assert (Hmembers : forall members,
             first_result (fun kv => _recursive_search_video_id m (snd kv)) members
             = Some video_id ->
             _is_valid_video_id (JString video_id) = true
             /\ exists depth, depth < S m /\ id_at depth (JObject members) video_id).
  { intros members H. apply first_result_some in H as ([k v] & Hin & Hx).
    destruct (IH _ _ Hx) as [Hv (d & Hd & Hat)]. split; [exact Hv|].
    exists (S d). split; [lia|]. econstructor; eauto. }
  destruct data as [| | | |items|members]; try discriminate; [apply Hitems|].
  destruct (dict_get (lit "videoId") members) as [[| | |s| |]|] eqn:Eg;
    try apply Hmembers.
  destruct (_is_valid_video_id (JString s)) eqn:Ev; [|apply Hmembers].
  intros [= <-]. split; [exact Ev|]. exists 0. split; [lia|]. now constructor.
Qed.

Lemma recursive_search_complete (max_depth : nat) :
  forall (data : json) (video_id : str) (depth : nat),
    depth < max_depth -> id_at depth data video_id ->
    _is_valid_video_id (JString video_id) = true ->
    exists found, _recursive_search_video_id max_depth data = Some found.
Proof.
  induction max_depth as [|m IH]; intros data video_id depth Hd Hat Hv; [lia|].
  cbn [_recursive_search_video_id].
  inversion Hat as [members id Hget|members key value d id Hin Hsub
                    |items item d id Hin Hsub]; subst.
  - rewrite Hget, Hv. eauto.
  - destruct (IH value video_id d ltac:(lia) Hsub Hv) as [found Hfound].
    destruct (match dict_get (lit "videoId") members with
              | Some (JString v) =>
                  if _is_valid_video_id (JString v) then Some v else None
              | _ => None
              end) as [here|]; [eauto|].
    eapply (first_result_found (fun kv => _recursive_search_video_id m (snd kv))
                               members (key, value)); eauto.
    apply recursive_search_sound in Hfound as [Hf _].
    now apply valid_video_id_truthy.
  - destruct (IH item video_id d ltac:(lia) Hsub Hv) as [found Hfound].
    eapply first_result_found; eauto.
    apply recursive_search_sound in Hfound as [Hf _].
    now apply valid_video_id_truthy.
Qed.

(** X6.  [_find_first_video_id] finds an identifier exactly when the
    document holds a valid one under a [videoId] key fewer than ten
    containers deep, and what it returns is such an identifier. *)
Theorem find_first_video_id_within_depth (yt_data : json) :
  (forall video_id,
      _find_first_video_id yt_data = Some video_id ->
      _is_valid_video_id (JString video_id) = true
      /\ exists depth, depth < 10 /\ id_at depth yt_data video_id)
  /\ ((exists video_id, _find_first_video_id yt_data = Some video_id)
      <-> exists video_id depth,
            depth < 10 /\ id_at depth yt_data video_id
            /\ _is_valid_video_id (JString video_id) = true).
Proof.
  unfold _find_first_video_id. split; [apply recursive_search_sound|]. split.
  - intros [video_id H]. apply recursive_search_sound in H as [Hv (d & Hd & Hat)].
    eauto.
  - intros (video_id & d & Hd & Hat & Hv).
    eapply recursive_search_complete; eauto.
Qed.

End DocumentFacts.

Section ExtractionFacts.
Import YouTubeScraper.

Lemma after_prefix_spec (p s r : str) :
  after_prefix p s = Some r -> s = p ++ r.
Proof.
  revert s. induction p as [|a p IH]; intros s; cbn [after_prefix].
  - now intros [= ->].
  - destruct s as [|b s]; [discriminate|].
    destruct (N.eqb a b) eqn:E; [|discriminate].
    apply N.eqb_eq in E. subst b. intros H. now rewrite (IH _ H).
Qed.

Lemma lazy_body_spec (s : str) :
  forall body,
    lazy_body s = Some body ->
    exists post,
      s = body ++ lit "};" ++ post
      /\ (10%N ∉ body)
      /\ contains (lit "};") (body ++ lit "}") = false.
Proof.
  induction s as [|c s IH]; intros body; [discriminate|].
  cbn [lazy_body].
  destruct (startswith (lit "};") (c :: s)) eqn:Es.
  - intros [= <-]. apply startswith_split in Es as [post Hpost].
    exists post. split; [exact Hpost|]. split; [apply not_elem_of_nil|reflexivity].
  - destruct (N.eqb c 10) eqn:Ec; [discriminate|]. apply N.eqb_neq in Ec.
    destruct (lazy_body s) as [b|]; [|discriminate]. cbn [option_map].
    intros [= <-]. destruct (IH b eq_refl) as (post & -> & Hnl & Hno).
    exists post. split; [reflexivity|]. split.
    + intros Hin. apply elem_of_cons in Hin as [Hin|Hin]; auto.
    + cbn [app contains]. rewrite Hno, orb_false_r.
      change (lit "};") with [125%N; 59%N] in *.
      cbn [startswith] in *. destruct (N.eqb 125 c); [|reflexivity].
      cbn [andb] in *. destruct b as [|y b]; [reflexivity|exact Es].
Qed.

Lemma assigned_here (lhs html rest body : str) :
  after_prefix (lhs ++ lit "{") html = Some rest ->
  lazy_body rest = Some body ->
  assigned_object lhs html (lit "{" ++ body ++ lit "}").
Proof.
  intros Hp Hb. apply after_prefix_spec in Hp.
  apply lazy_body_spec in Hb as (post & Hrest & Hnl & Hno).
  exists [], body, post. split; [|auto].
  cbn [app]. rewrite Hp, Hrest. now rewrite <- app_assoc.
Qed.

Lemma search_assignment_spec (lhs html group : str) :
  search_assignment lhs html = Some group -> assigned_object lhs html group.
Proof.
  induction html as [|c html IH].
  - cbn [search_assignment].
    destruct (after_prefix (lhs ++ lit "{") []) as [rest|] eqn:Ep;
      [|discriminate].
    destruct (lazy_body rest) as [body|] eqn:Eb; [|discriminate].
    cbn [option_map]. intros [= <-]. eapply assigned_here; eauto.
  - cbn [search_assignment].
    assert (Hlater : search_assignment lhs html = Some group ->
                     assigned_object lhs (c :: html) group).
    { intros H. destruct (IH H) as (pre & body & post & -> & Hrest).
      exists (c :: pre), body, post. auto. }
    destruct (after_prefix (lhs ++ lit "{") (c :: html)) as [rest|] eqn:Ep;
      [|exact Hlater].
    destruct (lazy_body rest) as [body|] eqn:Eb; cbn [option_map];
      [|exact Hlater].
    intros [= <-]. eapply assigned_here; eauto.
Qed.

(** X7.  The data [_extract_yt_initial_data] returns was parsed from
    a segment of the page that follows one of the two assignment texts,
    opens with a brace, has no newline, and ends at the first closing
    brace that a semicolon follows. *)
Theorem extract_yt_initial_data_segment (json_loads : str -> res json)
        (html : str) (data : json) :
  _extract_yt_initial_data json_loads html = Some data ->
  exists lhs group,
    (lhs = lit "var ytInitialData = "
     \/ lhs = lit "window[" ++ quote ++ lit "ytInitialData" ++ quote ++ lit "] = ")
    /\ assigned_object lhs html group
    /\ json_loads group = Ok data.
Proof.
  unfold _extract_yt_initial_data.
  destruct (search_assignment (lit "var ytInitialData = ") html)
    as [group|] eqn:E1.
  - destruct (json_loads group) as [d|e] eqn:El; [|discriminate].
    intros [= <-]. exists (lit "var ytInitialData = "), group.
    split; [now left|]. split; [now apply search_assignment_spec|exact El].
  - destruct (search_assignment
                (lit "window[" ++ quote ++ lit "ytInitialData" ++ quote
                 ++ lit "] = ") html) as [group|] eqn:E2; [|discriminate].
    destruct (json_loads group) as [d|e] eqn:El; [|discriminate].
    intros [= <-]. eexists _, group.
    split; [now right|]. split; [now apply search_assignment_spec|exact El].
Qed.

End ExtractionFacts.

(* ------------------------------------------------------------------ *)
(** ** Links of a file-host page *)

Section PageFacts.
Context {U : Unicode} {Soup Item : Type}
        (select : Soup -> str -> list Item)
        (select_one : Item -> str -> option FourSharedScraper.anchor)
        (item_find_all : Item -> list FourSharedScraper.anchor)
        (soup_find_all : Soup -> list FourSharedScraper.anchor).
Import FourSharedScraper.

Lemma audio_link_of_mono t a (pool pool' : list anchor) (l : link) :
  (forall x, In x pool -> In x pool') ->
  audio_link_of t a pool l -> audio_link_of t a pool' l.
Proof. intros Hsub (x & Hin & Hl & ->). exists x. auto. Qed.

Lemma first_selected_sound (item : Item) t a (sels : list str) (l : link) :
  first_selected select_one item t a sels = Some l ->
  audio_link_of t a (omap (select_one item) sels) l.
Proof.
  induction sels as [|sel sels IH]; [discriminate|].
  cbn [first_selected omap list_omap].
  destruct (select_one item sel) as [x|] eqn:Ex.
  - destruct (truthy (href x) && _looks_like_audio_link (href x) (get_text x))
      eqn:E.
    + intros [= <-]. apply andb_true_iff in E as [_ E].
      exists x. split; [now left|auto].
    + intros H. eapply audio_link_of_mono; [|apply IH, H].
      intros y Hy. now right.
  - exact IH.
Qed.

Lemma first_audio_link_sound t a (links : list anchor) (l : link) :
  first_audio_link t a links = Some l -> audio_link_of t a links l.
Proof.
  induction links as [|x links IH]; [discriminate|]. cbn [first_audio_link].
  destruct (_looks_like_audio_link (href x) (get_text x)) eqn:E.
  - intros [= <-]. exists x. split; [now left|auto].
  - intros H. eapply audio_link_of_mono; [|apply IH, H].
    intros y Hy. now right.
Qed.

Lemma extract_link_from_item_sound (item : Item) t a (l : link) :
  _extract_link_from_item select_one item_find_all item t a = Some l ->
  audio_link_of t a (item_anchors select_one item_find_all item) l.
Proof.
  unfold _extract_link_from_item, item_anchors.
  destruct (first_selected select_one item t a link_selectors) as [l'|] eqn:E.
  - intros [= <-]. eapply audio_link_of_mono; [|eapply first_selected_sound, E].
    intros y Hy. apply in_or_app. now left.
  - intros H. eapply audio_link_of_mono; [|eapply first_audio_link_sound, H].
    intros y Hy. apply in_or_app. now right.
Qed.

Lemma links_of_items_sound (soup : Soup) t a (sels : list str) :
  Forall (audio_link_of t a
            (flat_map (fun selector =>
                         flat_map (item_anchors select_one item_find_all)
                                  (select soup selector)) sels))
         (links_of_items select select_one item_find_all soup t a sels).
Proof.
  induction sels as [|sel sels IH]; [constructor|].
  cbn [links_of_items flat_map].
  destruct (select soup sel) as [|item items] eqn:Es.
  - cbn [flat_map app]. exact IH.
  - apply Forall_forall. intros l Hl.
    apply list_elem_of_omap in Hl as (it & Hit & Hl).
    apply extract_link_from_item_sound in Hl.
    eapply audio_link_of_mono; [|exact Hl].
    intros y Hy. apply in_or_app. left.
    apply in_flat_map. exists it. split; [now apply (proj1 (list_elem_of_In _ _))|exact Hy].
Qed.

Lemma audio_link_of_scored t a (pool : list anchor) (l : link) :
  audio_link_of t a pool l ->
  url l <> [] /\ relevance l = _calculate_relevance (title l) t a.
Proof.
  intros (x & _ & Hl & ->). cbn [url title relevance link_data].
  split; [|reflexivity]. unfold _looks_like_audio_link in Hl.
  destruct (href x); [discriminate|discriminate].
Qed.

Lemma find_audio_links_of_page (soup : Soup) (t a : option str) :
  Forall (audio_link_of t a
            (page_anchors select select_one item_find_all soup_find_all soup))
         (_find_audio_links select select_one item_find_all soup_find_all
                            soup t a).
Proof.
  unfold _find_audio_links.
  pose proof (links_of_items_sound soup t a selectors) as H.
  destruct (links_of_items select select_one item_find_all soup t a selectors)
    as [|l ls].
  - apply Forall_forall. intros l Hl. apply list_elem_of_In in Hl.
    apply in_map_iff in Hl as (x & <- & Hx).
    apply filter_In in Hx as [Hx Hlooks].
    exists x. split; [|auto]. apply in_or_app. now right.
  - eapply Forall_impl; [exact H|]. intros l0 Hl0. cbn beta.
    eapply audio_link_of_mono; [|exact Hl0].
    intros y Hy. apply in_or_app. now left.
Qed.

(** X8.  Every link [_find_audio_links] returns was built from a
    hyperlink of the page that [_looks_like_audio_link] accepts, so its
    URL is not empty, and carries the relevance [_calculate_relevance]
    gives its text. *)
Theorem find_audio_links_sound (soup : Soup) (track_name artist_name : option str) :
  Forall (fun link =>
            audio_link_of track_name artist_name
              (page_anchors select select_one item_find_all soup_find_all soup)
              link
            /\ url link <> []
            /\ relevance link
               = _calculate_relevance (title link) track_name artist_name)
         (_find_audio_links select select_one item_find_all soup_find_all
                            soup track_name artist_name).
Proof.
  eapply Forall_impl; [apply find_audio_links_of_page|].
  intros l Hl. cbn beta. split; [exact Hl|].
  eapply audio_link_of_scored, Hl.
Qed.

End PageFacts.

Lemma score_in (b1 b2 b3 d1 d2 d3 d4 d5 : bool) :
  In (score b1 b2 b3 d1 d2 d3 d4 d5) scores.
Proof.
  destruct b1, b2, b3, d1, d2, d3, d4, d5; vm_compute;
    repeat (first [left; reflexivity | right]).
Qed.

Lemma scores_ordered (x y z : float) :
  In x scores -> In y scores -> In z scores ->
  (PrimFloat.ltb x y = true -> PrimFloat.ltb y z = true ->
   PrimFloat.ltb x z = true)
  /\ (PrimFloat.ltb x y = false -> PrimFloat.ltb y z = false ->
      PrimFloat.ltb x z = false).
Proof.
  assert (H : forallb (fun x => forallb (fun y => forallb (fun z =>
                implb (PrimFloat.ltb x y && PrimFloat.ltb y z)
                      (PrimFloat.ltb x z)
                && implb (negb (PrimFloat.ltb x y) && negb (PrimFloat.ltb y z))
                         (negb (PrimFloat.ltb x z)))
              scores) scores) scores = true) by (vm_compute; reflexivity).
  intros Hx Hy Hz.
  rewrite forallb_forall in H. specialize (H x Hx).
  rewrite forallb_forall in H. specialize (H y Hy).
  rewrite forallb_forall in H. specialize (H z Hz).
  apply andb_true_iff in H as [H1 H2].
  destruct (PrimFloat.ltb x y), (PrimFloat.ltb y z), (PrimFloat.ltb x z);
    cbn in H1, H2; split; congruence.
Qed.

Section SelectionFacts.
Context {U : Unicode}.
Import FourSharedScraper.

Lemma calculate_relevance_in_scores (title : str) (t a : option str) :
  In (_calculate_relevance title t a) scores.
Proof.
  rewrite calculate_relevance_closed_form. cbn zeta.
  destruct (truthy title).
  - apply score_in.
  - apply (score_in false false false false false false false false).
Qed.

Lemma head_sorted_desc_cons (x : link) (links : list link) :
  head (sorted_desc (x :: links))
  = match head (sorted_desc links) with
    | Some h => if PrimFloat.ltb (relevance x) (relevance h)
                then Some h else Some x
    | None => Some x
    end.
Proof.
  cbn [sorted_desc fold_right]. fold (sorted_desc links).
  destruct (sorted_desc links) as [|h rest]; [reflexivity|].
  cbn [insert_desc head]. now destruct (PrimFloat.ltb (relevance x) (relevance h)).
Qed.

Lemma head_sorted_desc_first_of_highest (links : list link) :
  Forall (fun l => In (relevance l) scores) links ->
  match head (sorted_desc links) with
  | Some best =>
      exists pre post, links = pre ++ best :: post
                       /\ first_of_highest pre best post
  | None => links = []
  end.
Proof.
  induction 1 as [|x links Hx Hall IH]; [reflexivity|].
  rewrite head_sorted_desc_cons.
  destruct (head (sorted_desc links)) as [h|].
  - destruct IH as (pre & post & -> & Hpre & Hpost).
    assert (Hh : In (relevance h) scores).
    { apply Forall_app in Hall as [_ Hall]. now inversion Hall. }
    destruct (PrimFloat.ltb (relevance x) (relevance h)) eqn:E.
    + exists (x :: pre), post. split; [reflexivity|].
      split; [constructor; assumption|assumption].
    + exists [], (pre ++ h :: post). split; [reflexivity|].
      split; [constructor|]. apply Forall_app. split; [|constructor].
      * apply Forall_app in Hall as [Hall _].
        apply Forall_forall. intros q Hq.
        pose proof (proj1 (Forall_forall _ _) Hall q Hq) as Hqs.
        pose proof (proj1 (Forall_forall _ _) Hpre q Hq) as Hqh. cbn beta in *.
        destruct (PrimFloat.ltb (relevance x) (relevance q)) eqn:Exq;
          [|reflexivity].
        destruct (scores_ordered _ _ _ Hx Hqs Hh) as [Ht _].
        rewrite (Ht Exq Hqh) in E. discriminate.
      * exact E.
      * apply Forall_app in Hall as [_ Hall]. inversion Hall as [|? ? _ Hpost']; subst.
        apply Forall_forall. intros q Hq.
        pose proof (proj1 (Forall_forall _ _) Hpost' q Hq) as Hqs.
        pose proof (proj1 (Forall_forall _ _) Hpost q Hq) as Hhq. cbn beta in *.
        destruct (scores_ordered _ _ _ Hx Hh Hqs) as [_ Hn]. auto.
  - subst links. exists [], []. split; [reflexivity|]. split; constructor.
Qed.

Lemma select_best_link_among_scores (links : list link) (t a : option str) :
  Forall (fun l => In (relevance l) scores) links ->
  match _select_best_link links t a with
  | Some best_link =>
      exists pre best post,
        links = pre ++ best :: post
        /\ best_link = url best
        /\ first_of_highest pre best post
  | None => links = []
  end.
Proof.
  intros Hin. apply head_sorted_desc_first_of_highest in Hin.
  unfold _select_best_link. destruct links as [|x rest]; [reflexivity|].
  destruct (head (sorted_desc (x :: rest))) as [best|]; [|discriminate].
  destruct Hin as (pre & post & Hsplit & Hbest).
  cbn [option_map]. exists pre, best, post. auto.
Qed.

(** X9.  Among links that carry the relevance [_calculate_relevance]
    gives them, [_select_best_link] returns the URL of the first link of
    the highest relevance: every link before it scores strictly lower
    and no link after it scores higher.  It returns [None] only for no
    links. *)
Theorem select_best_link_first_of_highest (links : list link)
        (track_name artist_name : option str) :
  Forall (fun l => exists title t a,
              relevance l = _calculate_relevance title t a) links ->
  match _select_best_link links track_name artist_name with
  | Some best_link =>
      exists pre best post,
        links = pre ++ best :: post
        /\ best_link = url best
        /\ first_of_highest pre best post
  | None => links = []
  end.
Proof.
  intros Hscored. apply select_best_link_among_scores.
  eapply Forall_impl; [exact Hscored|]. intros l (title & t & a & ->).
  apply calculate_relevance_in_scores.
Qed.

End SelectionFacts.

Lemma normalize_4shared_url_truthy (url : str) :
  truthy url = true ->
  truthy (FourSharedScraper._normalize_4shared_url url) = true.
Proof.
  intros Hu. unfold FourSharedScraper._normalize_4shared_url.
  rewrite Hu. cbn [negb].
  destruct (startswith (lit "http") url); [exact Hu|].
  destruct (startswith (lit "//") url); [reflexivity|].
  destruct (startswith (lit "/") url); [reflexivity|exact Hu].
Qed.

Section FourSharedSearchFacts.
Context {U : Unicode} {Soup Item W : Type}
        (select : Soup -> str -> list Item)
        (select_one : Item -> str -> option FourSharedScraper.anchor)
        (item_find_all : Item -> list FourSharedScraper.anchor)
        (soup_find_all : Soup -> list FourSharedScraper.anchor)
        (quote_plus : str -> str)
        (session_get : str -> Z -> SE W Response)
        (BeautifulSoup : Response -> Soup)
        (time_sleep : Q -> SE W unit).
Import FourSharedScraper.

Local Abbreviation find_audio_links :=
  (_find_audio_links select select_one item_find_all soup_find_all).
Local Abbreviation search_attempt :=
  (_search_attempt select select_one item_find_all soup_find_all
                   quote_plus session_get BeautifulSoup).
Local Abbreviation loop :=
  (search_loop select select_one item_find_all soup_find_all
               quote_plus session_get BeautifulSoup time_sleep).
Local Abbreviation chosen :=
  (chosen_from_page select select_one item_find_all soup_find_all
                    quote_plus session_get BeautifulSoup).
Local Abbreviation fourshared_search :=
  (search select select_one item_find_all soup_find_all
          quote_plus session_get BeautifulSoup time_sleep).

Lemma fourshared_search_attempt_sound (timeout : Z) (query : str)
      (t a : option str) (w : W) (found : str) :
  fst (search_attempt timeout query t a w) = Ok (Some found) ->
  found <> [] /\ chosen timeout query t a found.
Proof.
  unfold _search_attempt, YouTubeScraper.raise_for_status. se_unfold.
  destruct (session_get _ timeout w) as [[response|e] w1] eqn:Eget;
    [|discriminate].
  destruct (Response_ok response) eqn:Eok; [|discriminate].
  pose proof (find_audio_links_of_page select select_one item_find_all
                soup_find_all (BeautifulSoup response) t a) as Hsound.
  pose proof (select_best_link_among_scores
                (find_audio_links (BeautifulSoup response) t a) t a) as Hbest.
  destruct (find_audio_links (BeautifulSoup response) t a) as [|l ls] eqn:El;
    [discriminate|].
  destruct (_select_best_link (l :: ls) t a) as [best_link|]; [|discriminate].
  destruct Hbest as (pre & best & post & Hsplit & -> & Hfirst).
  { eapply Forall_impl; [exact Hsound|]. intros x Hx.
    apply audio_link_of_scored in Hx as [_ ->].
    apply calculate_relevance_in_scores. }
  destruct (truthy (url best)) eqn:Et; [|discriminate].
  cbn [fst]. intros [= <-]. split.
  - apply truthy_nonempty. now apply normalize_4shared_url_truthy.
  - exists w, w1, response, pre, best, post.
    split; [exact Eget|]. split; [exact Eok|]. split; [now rewrite El|].
    split; [exact Hfirst|]. split; [|reflexivity].
    rewrite Hsplit in Hsound. apply Forall_app in Hsound as [_ Hsound].
    inversion Hsound as [|? ? Hof _]; subst. exact Hof.
Qed.

Lemma fourshared_search_loop_sound (timeout : Z) (query : str)
      (t a : option str) (max_retries : Z) (remaining : nat) :
  forall (attempt : Z) (w : W) (found : str),
    fst (loop timeout query t a max_retries attempt remaining w)
    = Ok (Some found) ->
    found <> [] /\ chosen timeout query t a found.
Proof.
  induction remaining as [|n IH]; intros attempt w found; [discriminate|].
  cbn [search_loop]. se_unfold.
  pose proof (fourshared_search_attempt_sound timeout query t a w) as Hsound.
  destruct (search_attempt timeout query t a w) as [[hit|e] w1];
    cbn [fst] in Hsound.
  - destruct (otruthy hit) eqn:Et.
    + destruct hit as [u|]; [|discriminate]. intros [= <-]. now apply Hsound.
    + destruct ((if (attempt <? max_retries - 1)%Z
                 then time_sleep ((3 # 2) * inject_Z (attempt + 1))
                 else fun s => (Ok tt, s)) w1) as [[[]|e] w2].
      * apply IH.
      * destruct ((if (attempt <? max_retries - 1)%Z
                   then time_sleep (2 * inject_Z (attempt + 1))
                   else fun s => (Ok tt, s)) w2) as [[[]|e'] w3];
          [apply IH | discriminate].
  - destruct ((if (attempt <? max_retries - 1)%Z
               then time_sleep (2 * inject_Z (attempt + 1))
               else fun s => (Ok tt, s)) w1) as [[[]|e'] w3];
      [apply IH | discriminate].
Qed.

(** X10.  A URL that [FourSharedScraper.search] returns is not empty
    and is the normalised address of a hyperlink of a results page it
    fetched: one that [_looks_like_audio_link] accepts and that is the
    first of the highest relevance among the links found on that
    page. *)
Theorem fourshared_search_sound (timeout : Z) (query : str)
        (track_name artist_name : option str) (max_retries : Z) (w : W)
        (found : str) :
  fst (fourshared_search timeout query track_name artist_name max_retries w)
  = Ok (Some found) ->
  found <> [] /\ chosen timeout query track_name artist_name found.
Proof.
  unfold search. destruct (truthy query); [|discriminate]. cbn [negb].
  apply fourshared_search_loop_sound.
Qed.

Lemma fourshared_search_loop_returns (timeout : Z) (query : str)
      (t a : option str) (max_retries : Z) (remaining : nat) :
  (forall x w, (0 < x)%Q -> fst (time_sleep x w) = Ok tt) ->
  forall (attempt : Z) (w : W),
    (0 <= attempt)%Z ->
    exists found,
      fst (loop timeout query t a max_retries attempt remaining w) = Ok found.
Proof.
  intros Hs. induction remaining as [|n IH]; intros attempt w Ha.
  - exists None. reflexivity.
  - cbn [search_loop]. se_unfold.
    destruct (search_attempt timeout query t a w) as [[found|e] w1].
    + destruct (otruthy found) eqn:Et.
      * destruct found as [u|]; [|discriminate]. exists (Some u). reflexivity.
      * pose proof (pause_returns time_sleep (3 # 2) attempt max_retries w1 Hs
                      ltac:(reflexivity) Ha) as Hp.
        unfold mret, SE_ret, SE.ret in Hp.
        destruct ((if (attempt <? max_retries - 1)%Z
                   then time_sleep ((3 # 2) * inject_Z (attempt + 1))
                   else fun s => (Ok tt, s)) w1) as [[[]|e] w2];
          [|discriminate].
        apply IH. lia.
    + pose proof (pause_returns time_sleep 2 attempt max_retries w1 Hs
                    ltac:(reflexivity) Ha) as Hp.
      unfold mret, SE_ret, SE.ret in Hp.
      destruct ((if (attempt <? max_retries - 1)%Z
                 then time_sleep (2 * inject_Z (attempt + 1))
                 else fun s => (Ok tt, s)) w1) as [[[]|e'] w2];
        [|discriminate].
      apply IH. lia.
Qed.

(** X11.  [FourSharedScraper.search] lets no exception escape, given
    that [time.sleep] accepts a positive length; with an empty query or
    no retry allowed it returns [None] without a request. *)
Theorem fourshared_search_returns (timeout : Z) (query : str)
        (track_name artist_name : option str) (max_retries : Z) (w : W) :
  (forall x w, (0 < x)%Q -> fst (time_sleep x w) = Ok tt) ->
  (exists found,
      fst (fourshared_search timeout query track_name artist_name
                             max_retries w) = Ok found)
  /\ (query = [] \/ (max_retries <= 0)%Z ->
      fourshared_search timeout query track_name artist_name max_retries w
      = (Ok None, w)).
Proof.
  intros Hs. unfold search. split.
  - destruct (truthy query); [|exists None; reflexivity]. cbn [negb].
    apply fourshared_search_loop_returns; [exact Hs|lia].
  - intros [->|Hn]; [reflexivity|].
    destruct (truthy query); [|reflexivity]. cbn [negb].
    replace (Z.to_nat max_retries) with 0 by lia. reflexivity.
Qed.

End FourSharedSearchFacts.

(* ------------------------------------------------------------------ *)
(** ** Catalog search *)

Section CatalogFacts.
Context {U : Unicode} {W : Type}.
Context (ytmusic_search : str -> option str -> Z -> SE W (list YouTubeMusicSearcher.entry)).
Import YouTubeMusicSearcher.

Lemma first_accepted_sound (results : list entry) (url : str) :
  first_accepted results = Ok (Some url) -> watch_url_of_accepted results url.
Proof.
  induction results as [|r rs IH]; [discriminate|]. cbn [first_accepted].
  assert (Hrest : first_accepted rs = Ok (Some url) ->
                  watch_url_of_accepted (r :: rs) url).
  { intros H. destruct (IH H) as (x & v & Hin & Hrest').
    exists x, v. split; [now right|exact Hrest']. }
  destruct (_is_valid_music_result r) as [[|]|e] eqn:Ev;
    cbn [mbind res_mbind res_bind]; [|exact Hrest|discriminate].
  destruct (videoId r) as [| |v] eqn:Eid; try exact Hrest.
  destruct (truthy v) eqn:Et; [|exact Hrest].
  intros [= <-]. exists r, v. split; [now left|].
  repeat split; auto. now apply truthy_nonempty.
Qed.

(** X12.  [YouTubeMusicSearcher.search] lets no exception escape,
    whatever the provider raises and whatever its entries hold.  A URL
    it returns is the watch URL of an accepted entry, with a non-empty
    identifier, of a result list the provider returned for the query.
    Without a client or with an empty query it returns [None] and asks
    nothing. *)
Theorem catalog_search_returns (available : bool) (query : str)
        (max_results : Z) (w : W) :
  (exists found,
      fst (search ytmusic_search available query max_results w) = Ok found
      /\ match found with
         | Some url =>
             exists filter w0 results w1,
               ytmusic_search query filter max_results w0 = (Ok results, w1)
               /\ watch_url_of_accepted results url
         | None => True
         end)
  /\ (available = false \/ query = [] ->
      search ytmusic_search available query max_results w = (Ok None, w)).
Proof.
  unfold search. split.
  - destruct (negb available || negb (truthy query)); [exists None; auto|].
    se_unfold.
    destruct (ytmusic_search query (Some (lit "songs")) max_results w)
      as [[filtered|e] w1] eqn:E1; [|exists None; auto].
    destruct (first_accepted filtered) as [[url|]|e] eqn:F1;
      [| |exists None; auto].
    + exists (Some url). split; [reflexivity|].
      exists (Some (lit "songs")), w, filtered, w1.
      split; [exact E1|now apply first_accepted_sound].
    + destruct (ytmusic_search query None max_results w1)
        as [[unfiltered|e] w2] eqn:E2; [|exists None; auto].
      destruct (first_accepted unfiltered) as [[url|]|e] eqn:F2;
        [| exists None; auto |exists None; auto].
      exists (Some url). split; [reflexivity|].
      exists None, w1, unfiltered, w2.
      split; [exact E2|now apply first_accepted_sound].
  - intros [-> | ->]; [reflexivity|]. now rewrite orb_true_r.
Qed.

Lemma first_accepted_malformed (rejected : list entry) (bad : entry)
      (rest : list entry) :
  Forall (fun r => _is_valid_music_result r = Ok false) rejected ->
  field_truthy (videoId bad) = true ->
  textual bad = false ->
  exists e, first_accepted (rejected ++ bad :: rest) = Raise e.
Proof.
  intros Hrej Hid Htext. induction Hrej as [|r rs Hr _ IH].
  - cbn [app first_accepted]. unfold _is_valid_music_result.
    rewrite Hid. cbn [negb]. unfold textual in Htext.
    destruct (title bad) as [| |t]; cbn [get_lower mbind res_mbind res_bind];
      [|eauto|];
      (destruct (resultType bad) as [| |ty];
       cbn [get_lower mbind res_mbind res_bind]; [|eauto|];
       (destruct (category bad) as [| |c];
        cbn [get_lower mbind res_mbind res_bind]; [discriminate|eauto|discriminate])).
  - cbn [app first_accepted]. rewrite Hr. cbn [mbind res_mbind res_bind].
    exact IH.
Qed.

(** X13.  An entry with an identifier whose title, result type or
    category is [None] stops the search: when every entry before it in
    the filtered results is refused, [search] returns [None] at once,
    whatever comes after it, and the unfiltered search is not made. *)
Theorem catalog_search_stops_at_malformed (query : str) (max_results : Z)
        (w w1 : W) (rejected : list entry) (bad : entry) (rest : list entry) :
  truthy query = true ->
  ytmusic_search query (Some (lit "songs")) max_results w
  = (Ok (rejected ++ bad :: rest), w1) ->
  Forall (fun r => _is_valid_music_result r = Ok false) rejected ->
  field_truthy (videoId bad) = true ->
  textual bad = false ->
  search ytmusic_search true query max_results w = (Ok None, w1).
Proof.
  intros Hq Hget Hrej Hid Htext. unfold search. rewrite Hq. cbn [negb orb].
  se_unfold. rewrite Hget.
  destruct (first_accepted_malformed rejected bad rest Hrej Hid Htext) as [e ->].
  reflexivity.
Qed.

End CatalogFacts.

(* ------------------------------------------------------------------ *)
(** ** Bounds of the retry controller *)

Lemma slept_app (a b : list event) : (slept (a ++ b) == slept a + slept b)%Q.
Proof.
  unfold slept, sleeps_of. rewrite flat_map_app.
  induction (flat_map _ a) as [|x l IH]; cbn [app fold_right]; [lra|].
  rewrite IH. lra.
Qed.

Lemma attempts_of_app (a b : list event) :
  attempts_of (a ++ b) = attempts_of a + attempts_of b.
Proof. unfold attempts_of. now rewrite List.filter_app, length_app. Qed.

Lemma py_min_le_r (a b : Q) : (py_min a b <= b)%Q.
Proof.
  unfold py_min, Qltb. destruct (Qle_bool a b) eqn:E; cbn [negb].
  - now apply Qle_bool_iff.
  - apply Qle_refl.
Qed.

Lemma recovery_slept (d : Q) (n : Z) (k : nat) (o : res (option str)) :
  (0 <= d)%Q ->
  (0 <= slept (recovery d n k o) <= d * inject_Z (Z.max 0 (n - 1)))%Q.
Proof.
  intros Hd.
  assert (H0 : (0 <= d * inject_Z (Z.max 0 (n - 1)))%Q).
  { apply Qmult_le_0_compat; [exact Hd|]. apply inject_Z_nonneg. lia. }
  assert (Hnone : (0 <= slept [] <= d * inject_Z (Z.max 0 (n - 1)))%Q).
  { unfold slept. cbn. split; [lra|exact H0]. }
  assert (Hsome : (0 <= slept (if (Z.of_nat k <? n - 1)%Z
                               then [ESleep (d * inject_Z (Z.of_nat k + 1))]
                               else [])
                   <= d * inject_Z (Z.max 0 (n - 1)))%Q).
  { destruct (Z.of_nat k <? n - 1)%Z eqn:E; [|exact Hnone].
    apply Z.ltb_lt in E. unfold slept. cbn [sleeps_of flat_map app fold_right].
    assert (H1 : (0 <= inject_Z (Z.of_nat k + 1))%Q)
      by (apply inject_Z_nonneg; lia).
    assert (H2 : (inject_Z (Z.of_nat k + 1) <= inject_Z (Z.max 0 (n - 1)))%Q)
      by (rewrite <- Zle_Qle; lia).
    split; [nra|nra]. }
  destruct o as [r|e]; [exact Hnone|]. destruct e; try exact Hsome; exact Hnone.
Qed.

Lemma expected_trace_attempts (d : Q) (n : Z) (runs : list (Q * res (option str))) :
  forall k, attempts_of (expected_trace d n k runs) = length runs.
Proof.
  induction runs as [|[j o] runs IH]; intros k; [reflexivity|].
  cbn [expected_trace]. rewrite !attempts_of_app, IH.
  assert (H1 : attempts_of (if 0 <? k then [ESleep (backoff d k j)] else []) = 0)
    by now destruct (0 <? k).
  assert (H2 : attempts_of (recovery d n k o) = 0).
  { destruct o as [r|e]; [reflexivity|].
    destruct e; try reflexivity;
      cbn [recovery]; now destruct (Z.of_nat k <? n - 1)%Z. }
  rewrite H1, H2. cbn. lia.
Qed.

Lemma expected_trace_slept_later (d : Q) (n : Z)
      (runs : list (Q * res (option str))) :
  (0 <= d)%Q ->
  Forall (fun run => jitter_ok (fst run)) runs ->
  forall k,
    (0 <= slept (expected_trace d n k runs)
     <= inject_Z (Z.of_nat (length runs))
        * (10 + d * inject_Z (Z.max 0 (n - 1))))%Q.
Proof.
  intros Hd Hj. induction Hj as [|[j o] runs Hjo _ IH]; intros k.
  - unfold slept. cbn [length sleeps_of flat_map fold_right expected_trace]. change (inject_Z (Z.of_nat 0)) with 0%Q. split; [lra|nra].
  - cbn [expected_trace length]. rewrite !slept_app.
    pose proof (recovery_slept d n k o Hd) as Hrec.
    specialize (IH (S k)).
    assert (Hpre : (0 <= slept (if 0 <? k then [ESleep (backoff d k j)] else [])
                    <= 10)%Q).
    { destruct (0 <? k).
      - unfold slept. cbn [sleeps_of flat_map app fold_right].
        pose proof (backoff_nonneg d k j Hd Hjo).
        pose proof (py_min_le_r (d * inject_Z (2 ^ Z.of_nat k) + j) 10) as Hle.
        fold (backoff d k j) in Hle. lra.
      - unfold slept. cbn. lra. }
    assert (Hatt : (slept [EAttempt k o] == 0)%Q) by (unfold slept; cbn; lra).
    rewrite Hatt. rewrite Nat2Z.inj_succ, <- Z.add_1_r, inject_Z_plus.
    change (inject_Z 1) with 1%Q.
    set (B := (d * inject_Z (Z.max 0 (n - 1)))%Q) in *.
    set (L := inject_Z (Z.of_nat (length runs))) in *.
    split; [lra|nra].
Qed.

Section ControllerBounds.
Context {U : Unicode} {W : Type}.
Context (random_uniform : Q -> Q -> W -> Q * W).

(** X14.  One call of [_search_with_retries], from a delay that is
    not negative and with at least one retry allowed, calls the search
    function at most [max_retries] times and sleeps at most
    [(max_retries - 1) * (10 + delay * max_retries)] seconds in all,
    whatever the search function returns or raises. *)
Theorem search_with_retries_bounded (f : SE W (option str)) (st : @store W) :
  uniform_in_range random_uniform ->
  (0 <= Bot.delay (bot st))%Q ->
  (1 <= Bot.max_retries (bot st))%Z ->
  exists new,
    trace (snd (_search_with_retries random_uniform f st)) = trace st ++ new
    /\ 1 <= attempts_of new <= Z.to_nat (Bot.max_retries (bot st))
    /\ (0 <= slept new
        <= inject_Z (Bot.max_retries (bot st) - 1)
           * (10 + Bot.delay (bot st) * inject_Z (Bot.max_retries (bot st))))%Q.
Proof.
  intros Huni Hd Hn.
  set (d := Bot.delay (bot st)) in *. set (n := Bot.max_retries (bot st)) in *.
  assert (H : after (_search_with_retries random_uniform f) st
                (fun r s =>
                   exists result runs,
                     r = Ok result
                     /\ bot s = bot st /\ results s = results st
                     /\ trace s = trace st ++ expected_trace d n 0 runs
                     /\ Forall (fun run => jitter_ok (fst run)) runs
                     /\ ends_with (Z.to_nat n) runs result)).
  { unfold _search_with_retries. apply after_bind, after_self_max_retries.
    now apply retry_loop_runs. }
  unfold after in H. destruct H as (result & runs & _ & _ & _ & Ht & Hj & Hend).
  exists (expected_trace d n 0 runs). split; [exact Ht|].
  assert (Hlen : 1 <= length runs <= Z.to_nat n).
  { destruct result as [u|]; cbn [ends_with] in Hend.
    - destruct Hend as (init & j & o & -> & _ & _ & Hlen).
      rewrite length_app in *. cbn [length] in *. lia.
    - destruct Hend as [_ ->]. lia. }
  rewrite expected_trace_attempts. split; [exact Hlen|].
  destruct runs as [|[j o] runs]; [cbn [length] in Hlen; lia|].
  cbn [expected_trace Nat.ltb Nat.leb app]. inversion Hj as [|? ? _ Hj']; subst.
  change (EAttempt 0 o :: recovery d n 0 o ++ expected_trace d n 1 runs)
    with ([EAttempt 0 o] ++ recovery d n 0 o ++ expected_trace d n 1 runs).
  rewrite !slept_app.
  assert (Hatt : (slept [EAttempt 0 o] == 0)%Q) by (unfold slept; cbn; lra).
  rewrite Hatt.
  pose proof (recovery_slept d n 0 o Hd) as Hrec.
  pose proof (expected_trace_slept_later d n runs Hd Hj' 1) as Hrest.
  cbn [length] in Hlen.
  assert (HL : (inject_Z (Z.of_nat (length runs)) <= inject_Z (n - 1))%Q)
    by (rewrite <- Zle_Qle; lia).
  assert (HL0 : (0 <= inject_Z (Z.of_nat (length runs)))%Q)
    by (apply inject_Z_nonneg; lia).
  replace (Z.max 0 (n - 1)) with (n - 1)%Z in * by lia.
  assert (Hn1 : (inject_Z n == inject_Z (n - 1) + 1)%Q).
  { change 1%Q with (inject_Z 1). rewrite <- inject_Z_plus.
    now replace (n - 1 + 1)%Z with n by lia. }
  assert (H0 : (0 <= inject_Z (n - 1))%Q) by (apply inject_Z_nonneg; lia).
  rewrite Hn1.
  set (N := inject_Z (n - 1)) in *.
  set (L := inject_Z (Z.of_nat (length runs))) in *.
  split; [lra|nra].
Qed.

End ControllerBounds.

(* ------------------------------------------------------------------ *)
(** ** Where a found URL comes from *)

Section ProvenanceFacts.
Context {U : Unicode} {W : Type}.
Context (random_uniform : Q -> Q -> W -> Q * W)
        (youtube_music_available : bool)
        (youtube_music_search youtube_scraper_search : str -> SE W (option str))
        (fourshared_scraper_search :
           str -> option str -> option str -> SE W (option str)).

Local Abbreviation store := (@store W).
Local Abbreviation M := (@M W).
Local Abbreviation after := (after (W := W)).
Local Abbreviation resolve :=
  (search_single_track random_uniform youtube_music_available
                       youtube_music_search youtube_scraper_search
                       fourshared_scraper_search).

Lemma attempt_body_fresh_hit (f : SE W (option str)) (k : nat) (st : store) :
  after (attempt_body random_uniform f k) st fresh_hit.
Proof.
  assert (Hnone : forall (r : res (option str)) (s : store),
             (forall u, r <> Ok (Some u)) -> fresh_hit r s).
  { intros [[u|]|e] s H; cbn; auto. now destruct (H u). }
  unfold attempt_body. apply after_try, after_bind, after_any.
  intros [[]|e] s.
  - apply after_bind, after_invoke.
    destruct (f (world s)) as [[[[|c u]|]|e] w]; cbn [fst snd otruthy truthy];
      try (apply after_ret; exact I).
    + apply after_ret. cbn. split; [discriminate|].
      exists (trace s), k. reflexivity.
    + cbn beta iota.
      destruct e; try (eapply after_mono; [apply after_then_none|auto]).
      destruct response as [r|]; [|apply after_ret; exact I].
      rewrite rate_limit_guard_false. apply after_ret. exact I.
  - destruct e; try (eapply after_mono; [apply after_then_none|auto]).
    destruct response as [r|]; [|apply after_ret; exact I].
    rewrite rate_limit_guard_false. apply after_ret. exact I.
Qed.

Lemma retry_loop_fresh_hit (f : SE W (option str)) (remaining : nat) :
  forall (k : nat) (st : store),
    after (retry_loop random_uniform f k remaining) st fresh_hit.
Proof.
  induction remaining as [|n IH]; intros k st; [apply after_ret; exact I|].
  cbn [retry_loop]. apply after_bind.
  eapply after_mono; [apply attempt_body_fresh_hit|].
  intros [[u|]|e] s H; cbn beta iota; [apply after_ret; exact H|apply IH|exact I].
Qed.

Lemma search_with_retries_fresh_hit (f : SE W (option str)) (st : store) :
  after (_search_with_retries random_uniform f) st fresh_hit.
Proof.
  unfold _search_with_retries. apply after_bind, after_self_max_retries.
  apply retry_loop_fresh_hit.
Qed.

Lemma checked_fresh_hit (url : option str) (s : store) :
  fresh_hit (Ok url) s ->
  after (if otruthy url && is_valid_youtube_url url
         then mret url else mret None : M (option str)) s fresh_hit.
Proof.
  intros H. destruct (otruthy url && is_valid_youtube_url url);
    apply after_ret; [exact H|exact I].
Qed.

Lemma search_youtube_fresh_hit (query : str) (st : store) :
  after (_search_youtube random_uniform youtube_music_available
                         youtube_music_search youtube_scraper_search query)
        st fresh_hit.
Proof.
  assert (Hscraper : forall s,
    after (url ← _search_with_retries random_uniform
                   (youtube_scraper_search query);
           if otruthy url && is_valid_youtube_url url
           then mret url else mret None : M (option str)) s fresh_hit).
  { intros s. apply after_bind.
    eapply after_mono; [apply search_with_retries_fresh_hit|].
    intros [url|e] s1 H; [now apply checked_fresh_hit|exact I]. }
  unfold _search_youtube. apply after_bind.
  destruct youtube_music_available.
  - apply after_bind.
    eapply after_mono; [apply search_with_retries_fresh_hit|].
    intros [url|e] s1 H; cbn beta iota; [|exact I].
    eapply after_mono; [apply (checked_fresh_hit url s1 H)|].
    intros [[u|]|e] s2 H2; cbn beta iota; [apply after_ret; exact H2| |exact I].
    apply Hscraper.
  - apply after_ret. apply Hscraper.
Qed.

Lemma variants_loop_fresh_hit (t a : option str) (final : option str)
      (variants : list str) :
  forall st,
    after (variants_loop random_uniform youtube_music_available
                         youtube_music_search youtube_scraper_search
                         fourshared_scraper_search
                         t a (blank_result t a) final variants)
          st (fun r s =>
                match r with
                | Ok (Some found) =>
                    Result.status_of found = Found /\ found_by_last_call found s
                | _ => True
                end).
Proof.
  induction variants as [|v rest IH]; intros st; [apply after_ret; exact I|].
  cbn [variants_loop]. apply after_bind.
  eapply after_mono; [apply search_youtube_fresh_hit|].
  intros r s1 H1.
  assert (Hrest :
    after (fourshared_url ← _search_fourshared random_uniform
                              fourshared_scraper_search v t a;
           match fourshared_url with
           | Some (c :: u) =>
               update_stats (Stats.bump Stats.FoursharedFound);;
               mret (Some (Result.set_fourshared (blank_result t a) (c :: u)))
           | _ =>
               (if negb (bool_decide (Some v = final))
                then d ← self_delay; time_sleep (d * (1 # 2))
                else mret tt);;
               variants_loop random_uniform youtube_music_available
                 youtube_music_search youtube_scraper_search
                 fourshared_scraper_search t a (blank_result t a) final rest
           end) s1
          (fun r s =>
             match r with
             | Ok (Some found) =>
                 Result.status_of found = Found /\ found_by_last_call found s
             | _ => True
             end)).
  { apply after_bind. unfold _search_fourshared.
    eapply after_mono; [apply search_with_retries_fresh_hit|].
    intros [fs|e] s2 H2; cbn beta iota; [|exact I].
    assert (Hnext :
      after ((if negb (bool_decide (Some v = final))
              then d ← self_delay; time_sleep (d * (1 # 2))
              else mret tt);;
             variants_loop random_uniform youtube_music_available
               youtube_music_search youtube_scraper_search
               fourshared_scraper_search t a (blank_result t a) final rest)
            s2
            (fun r s =>
               match r with
               | Ok (Some found) =>
                   Result.status_of found = Found /\ found_by_last_call found s
               | _ => True
               end)).
    { apply after_bind, after_any. intros [[]|e] s3; [apply IH|exact I]. }
    destruct fs as [[|c u]|]; try exact Hnext.
    apply after_bind, after_modify, after_ret. split; [reflexivity|].
    destruct H2 as [Hu Hend]. exists (c :: u). split; [exact Hu|].
    split; [exact Hend|]. right. split; reflexivity. }
  destruct r as [[[|c u]|]|e]; try exact Hrest; [|exact I].
  apply after_bind, after_modify, after_ret. split; [reflexivity|].
  destruct H1 as [Hu Hend]. exists (c :: u). split; [exact Hu|].
  split; [exact Hend|]. left. split; reflexivity.
Qed.

(** X15.  A result with status [found] carries the URL that the last
    call of a search function returned: after the call that brought it
    nothing is searched and nothing is slept. *)
Theorem search_single_track_found_by_last_call (t a : option str) (st : store) :
  exists r st',
    resolve t a st = (Ok r, st')
    /\ (Result.status_of r = Found -> found_by_last_call r st').
Proof.
  assert (H : after (resolve t a) st
                    (fun r s =>
                       match r with
                       | Ok found =>
                           Result.status_of found = Found ->
                           found_by_last_call found s
                       | Raise _ => True
                       end)).
  { unfold search_single_track. fold (blank_result t a).
    apply after_bind, after_modify.
    assert (Herr : forall s,
      after (update_stats (Stats.bump Stats.Errors);;
             mret (Result.set_status (blank_result t a) Error) : M Result.t) s
            (fun r s =>
               match r with
               | Ok found =>
                   Result.status_of found = Found -> found_by_last_call found s
               | Raise _ => True
               end)).
    { intros s. apply after_bind, after_modify, after_ret. discriminate. }
    apply after_try, after_bind, after_lift.
    destruct (generate_search_variants t a) as [[|v vs]|e]; try apply Herr.
    apply after_bind.
    eapply after_mono; [apply variants_loop_fresh_hit|].
    intros [[found|]|e] s Hs; cbn beta iota.
    - apply after_ret. intros _. apply Hs.
    - apply after_bind, after_modify, after_ret. discriminate.
    - apply Herr. }
  destruct (resolve_outcome random_uniform youtube_music_available
              youtube_music_search youtube_scraper_search
              fourshared_scraper_search t a st) as (c & r & st' & Hrun & _).
  exists r, st'. split; [exact Hrun|].
  unfold after in H. rewrite Hrun in H. exact H.
Qed.

(** X16.  Without a search variant, which is the case when the track
    or the artist is [None], [search_single_track] reports an error at
    once: no search function is called and nothing is slept, and only
    the two counters [total_songs] and [errors] change. *)
Theorem search_single_track_without_variants (t a : option str) (st : store) :
  (forall v vs, generate_search_variants t a <> Ok (v :: vs)) ->
  resolve t a st
  = (Ok (Result.set_status (blank_result t a) Error),
     set_bot st (Bot.set_stats (bot st)
                   (Stats.bump Stats.Errors
                      (Stats.bump_total (Bot.stats (bot st)))))).
Proof.
  intros Hnone. unfold search_single_track. se_unfold. unfold update_stats.
  se_unfold.
  destruct (generate_search_variants t a) as [[|v vs]|e]; try reflexivity.
  now destruct (Hnone v vs).
Qed.

End ProvenanceFacts.

(* ------------------------------------------------------------------ *)
(** ** Runs *)

Section QuietFacts.
Context {U : Unicode} {W : Type}.
Context (random_uniform : Q -> Q -> W -> Q * W)
        (youtube_music_available : bool)
        (youtube_music_search youtube_scraper_search : str -> SE W (option str))
        (fourshared_scraper_search :
           str -> option str -> option str -> SE W (option str)).

Local Abbreviation store := (@store W).
Local Abbreviation M := (@M W).
Local Abbreviation quiet := (quiet (W := W)).
Local Abbreviation search_with_retries := (_search_with_retries random_uniform).
Local Abbreviation resolve :=
  (search_single_track random_uniform youtube_music_available
                       youtube_music_search youtube_scraper_search
                       fourshared_scraper_search).

Lemma quiet_ret {A} (a : A) : quiet (mret a : M A).
Proof. now intros st. Qed.

Lemma quiet_throw {A} (e : exn) : quiet (mthrow e : M A).
Proof. now intros st. Qed.

Lemma quiet_bind {A B} (m : M A) (f : A -> M B) :
  quiet m -> (forall a, quiet (f a)) -> quiet (m ≫= f).
Proof.
  intros Hm Hf st. se_unfold. specialize (Hm st).
  destruct (m st) as [[a|e] st1]; cbn [snd] in *; [|exact Hm].
  now rewrite Hf.
Qed.

Lemma quiet_try {A} (m : M A) (h : exn -> M A) :
  quiet m -> (forall e, quiet (h e)) -> quiet (try_except m h).
Proof.
  intros Hm Hh st. se_unfold. specialize (Hm st).
  destruct (m st) as [[a|e] st1]; cbn [snd] in *; [exact Hm|].
  now rewrite Hh.
Qed.

Lemma quiet_if {A} (b : bool) (m1 m2 : M A) :
  quiet m1 -> quiet m2 -> quiet (if b then m1 else m2).
Proof. now destruct b. Qed.

Lemma quiet_lift {A} (r : res A) : quiet (lift r : M A).
Proof. now intros st. Qed.

Lemma quiet_time_sleep (seconds : Q) : quiet (time_sleep seconds).
Proof.
  intros st. unfold time_sleep. destruct (Qltb seconds 0); [reflexivity|].
  se_unfold. cbn [snd trace log]. unfold reports_of.
  rewrite omap_app. cbn. apply app_nil_r.
Qed.

Lemma quiet_uniform (a b : Q) : quiet (uniform random_uniform a b).
Proof. intros st. unfold uniform. now destruct (random_uniform a b (world st)). Qed.

Lemma quiet_self_delay : quiet (@self_delay W).
Proof. now intros st. Qed.

Lemma quiet_self_max_retries : quiet (@self_max_retries W).
Proof. now intros st. Qed.

Lemma quiet_update_stats (f : Stats.t -> Stats.t) : quiet (update_stats f).
Proof. now intros st. Qed.

Lemma quiet_invoke (f : SE W (option str)) (k : nat) : quiet (invoke f k).
Proof.
  intros st. unfold invoke. destruct (f (world st)) as [r w].
  cbn [snd trace log set_world]. unfold reports_of.
  rewrite omap_app. cbn. apply app_nil_r.
Qed.

Lemma quiet_attempt_body (f : SE W (option str)) (k : nat) :
  quiet (attempt_body random_uniform f k).
Proof.
  unfold attempt_body. apply quiet_try.
  - apply quiet_bind.
    + apply quiet_if; [|apply quiet_ret].
      apply quiet_bind; [apply quiet_self_delay|]. intros d.
      apply quiet_bind; [apply quiet_uniform|]. intros j.
      apply quiet_time_sleep.
    + intros _. apply quiet_bind; [apply quiet_invoke|].
      intros r. apply quiet_if; apply quiet_ret.
  - intros e.
    assert (Hother : quiet
      (max_retries ← self_max_retries;
       (if (Z.of_nat k <? max_retries - 1)%Z
        then d ← self_delay; time_sleep (d * inject_Z (Z.of_nat k + 1))
        else mret tt);; mret None : M (option str))).
    { apply quiet_bind; [apply quiet_self_max_retries|]. intros n.
      apply quiet_bind; [|intros; apply quiet_ret].
      apply quiet_if; [|apply quiet_ret].
      apply quiet_bind; [apply quiet_self_delay|]. intros d.
      apply quiet_time_sleep. }
    destruct e; try exact Hother.
    destruct response as [r|]; [|apply quiet_ret].
    rewrite rate_limit_guard_false. apply quiet_ret.
Qed.

Lemma quiet_retry_loop (f : SE W (option str)) (remaining : nat) :
  forall k, quiet (retry_loop random_uniform f k remaining).
Proof.
  induction remaining as [|n IH]; intros k; cbn [retry_loop].
  - apply quiet_ret.
  - apply quiet_bind; [apply quiet_attempt_body|].
    intros [u|]; [apply quiet_ret | apply IH].
Qed.

Lemma quiet_search_with_retries (f : SE W (option str)) :
  quiet (search_with_retries f).
Proof.
  unfold _search_with_retries.
  apply quiet_bind; [apply quiet_self_max_retries|].
  intros n. apply quiet_retry_loop.
Qed.

Lemma quiet_search_youtube (query : str) :
  quiet (_search_youtube random_uniform youtube_music_available
                         youtube_music_search youtube_scraper_search query).
Proof.
  unfold _search_youtube. apply quiet_bind.
  - apply quiet_if; [|apply quiet_ret].
    apply quiet_bind; [apply quiet_search_with_retries|].
    intros url. apply quiet_if; apply quiet_ret.
  - intros [url|]; [apply quiet_ret|].
    apply quiet_bind; [apply quiet_search_with_retries|].
    intros url. apply quiet_if; apply quiet_ret.
Qed.

Lemma quiet_variants_loop (t a : option str) (result : Result.t)
      (final : option str) (variants : list str) :
  quiet (variants_loop random_uniform youtube_music_available
                       youtube_music_search youtube_scraper_search
                       fourshared_scraper_search t a result final variants).
Proof.
  induction variants as [|v rest IH]; cbn [variants_loop]; [apply quiet_ret|].
  assert (Hfound : forall (c : Stats.counter) (r : Result.t),
             quiet (update_stats (Stats.bump c);; mret (Some r)
                    : M (option Result.t))).
  { intros c r. apply quiet_bind; [apply quiet_update_stats|].
    intros _. apply quiet_ret. }
  assert (Hnext : quiet
    ((if negb (bool_decide (Some v = final))
      then d ← self_delay; time_sleep (d * (1 # 2))
      else mret tt);;
     variants_loop random_uniform youtube_music_available
       youtube_music_search youtube_scraper_search
       fourshared_scraper_search t a result final rest)).
  { apply quiet_bind; [|intros _; exact IH].
    apply quiet_if; [|apply quiet_ret].
    apply quiet_bind; [apply quiet_self_delay|]. intros d.
    apply quiet_time_sleep. }
  assert (Hfs : quiet
    (fourshared_url ← _search_fourshared random_uniform
                        fourshared_scraper_search v t a;
     match fourshared_url with
     | Some (c :: u) =>
         update_stats (Stats.bump Stats.FoursharedFound);;
         mret (Some (Result.set_fourshared result (c :: u)))
     | _ =>
         (if negb (bool_decide (Some v = final))
          then d ← self_delay; time_sleep (d * (1 # 2))
          else mret tt);;
         variants_loop random_uniform youtube_music_available
           youtube_music_search youtube_scraper_search
           fourshared_scraper_search t a result final rest
     end)).
  { apply quiet_bind; [apply quiet_search_with_retries|].
    intros [[|c u]|]; [exact Hnext|apply Hfound|exact Hnext]. }
  apply quiet_bind; [apply quiet_search_youtube|].
  intros [[|c u]|]; [exact Hfs|apply Hfound|exact Hfs].
Qed.

Lemma quiet_resolve (t a : option str) : quiet (resolve t a).
Proof.
  unfold search_single_track.
  apply quiet_bind; [apply quiet_update_stats|]. intros _.
  assert (Herr : forall r : Result.t,
             quiet (update_stats (Stats.bump Stats.Errors);; mret r : M Result.t)).
  { intros r. apply quiet_bind; [apply quiet_update_stats|].
    intros _. apply quiet_ret. }
  apply quiet_try; [|intros _; apply Herr].
  apply quiet_bind; [apply quiet_lift|].
  intros [|v vs]; [apply Herr|].
  apply quiet_bind; [apply quiet_variants_loop|].
  intros [r|]; [apply quiet_ret|].
  apply quiet_bind; [apply quiet_update_stats|]. intros _. apply quiet_ret.
Qed.

End QuietFacts.

Lemma result_for_names (c : Stats.counter) (t a : option str) (r : Result.t) :
  result_for c t a r ->
  Result.track_name r = t /\ Result.artist_name r = a /\ Result.index r = None.
Proof.
  destruct c; cbn [result_for].
  - intros (u & _ & _ & ->). auto.
  - intros (u & _ & ->). auto.
  - intros ->. auto.
  - intros ->. auto.
Qed.

Lemma bump_counts (c : Stats.counter) (s : Stats.t) :
  Stats.total_songs (Stats.bump c (Stats.bump_total s))
  = (Stats.total_songs s + 1)%Z
  /\ terminal_sum (Stats.bump c (Stats.bump_total s)) = (terminal_sum s + 1)%Z.
Proof. unfold terminal_sum. destruct c; cbn; split; lia. Qed.

Lemma reports_from_succ (i total t0 s0 : Z) (n : nat) :
  reports_from i total t0 s0 (S n)
  = (i + 1, total, t0 + 1, s0 + 1)%Z
    :: reports_from (i + 1) total (t0 + 1) (s0 + 1) n.
Proof.
  unfold reports_from. cbn [seq map]. f_equal.
  rewrite <- seq_shift, map_map. apply map_ext. intros k.
  replace (Z.of_nat (S k)) with (1 + Z.of_nat k)%Z by lia.
  now rewrite !Z.add_assoc.
Qed.

Section RunFacts.
Context {U : Unicode} {W : Type}.
Context (random_uniform : Q -> Q -> W -> Q * W)
        (youtube_music_available : bool)
        (youtube_music_search youtube_scraper_search : str -> SE W (option str))
        (fourshared_scraper_search :
           str -> option str -> option str -> SE W (option str))
        (progress_callback : Z -> Z -> Stats.t -> str -> SE W unit)
        (save_outputs : frame -> SE W unit).

Local Abbreviation store := (@store W).
Local Abbreviation M := (@M W).
Local Abbreviation after := (after (W := W)).
Local Abbreviation resolve :=
  (search_single_track random_uniform youtube_music_available
                       youtube_music_search youtube_scraper_search
                       fourshared_scraper_search).
Local Abbreviation loop :=
  (tracks_loop random_uniform youtube_music_available
               youtube_music_search youtube_scraper_search
               fourshared_scraper_search progress_callback).
Local Abbreviation run :=
  (run_playlist random_uniform youtube_music_available
                youtube_music_search youtube_scraper_search
                fourshared_scraper_search progress_callback save_outputs).

(** One call of the resolver inside the track loop. *)
Lemma resolve_step (t a : option str) (st : store) :
  exists c r st1,
    resolve t a st = (Ok r, st1)
    /\ Result.track_name r = t /\ Result.artist_name r = a
    /\ bot st1 = Bot.set_stats (bot st)
                   (Stats.bump c (Stats.bump_total (Bot.stats (bot st))))
    /\ results st1 = results st
    /\ reports_of (trace st1) = reports_of (trace st).
Proof.
  destruct (resolve_outcome random_uniform youtube_music_available
              youtube_music_search youtube_scraper_search
              fourshared_scraper_search t a st)
    as (c & r & st1 & Hrun & Hres & Hb & Hr).
  exists c, r, st1. split; [exact Hrun|].
  destruct (result_for_names _ _ _ _ Hres) as (Ht & Ha & _).
  repeat split; auto.
  pose proof (quiet_resolve random_uniform youtube_music_available
                youtube_music_search youtube_scraper_search
                fourshared_scraper_search t a st) as Hq.
  now rewrite Hrun in Hq.
Qed.

(** Whatever the progress sink and the sleep do, the track loop ends,
    counts every track once, and adds one or two entries per track. *)
Lemma tracks_loop_accounts (delay : Q) (total : Z)
      (tracks_data : list TrackData.t) :
  forall (i : Z) (st : store),
    after (loop delay total i tracks_data) st
          (fun r s =>
             r = Ok tt
             /\ (exists stats,
                    bot s = Bot.set_stats (bot st) stats
                    /\ Stats.total_songs stats
                       = (Stats.total_songs (Bot.stats (bot st))
                          + Z.of_nat (length tracks_data))%Z
                    /\ terminal_sum stats
                       = (terminal_sum (Bot.stats (bot st))
                          + Z.of_nat (length tracks_data))%Z)
             /\ exists entries,
                 results s = results st ++ entries
                 /\ length tracks_data <= length entries
                    <= 2 * length tracks_data).
Proof.
  induction tracks_data as [|track_data rest IH]; intros i st.
  - apply after_ret. split; [reflexivity|]. split.
    + exists (Bot.stats (bot st)). split; [now destruct (bot st)|].
      cbn [length]. split; lia.
    + exists []. rewrite app_nil_r. cbn. split; [reflexivity|lia].
  - cbn [tracks_loop]. apply after_bind.
    apply after_mono with
      (Q := fun r s =>
              r = Ok tt
              /\ (exists c,
                     bot s = Bot.set_stats (bot st)
                               (Stats.bump c
                                  (Stats.bump_total (Bot.stats (bot st)))))
              /\ exists extra,
                  results s = results st ++ extra
                  /\ 1 <= length extra <= 2).
    + apply after_try, after_bind.
      destruct (resolve_step (Some (TrackData.track_name track_data))
                             (Some (TrackData.artist_name track_data)) st)
        as (c & found & st1 & Hrun & _ & _ & Hb & Hres & _).
      unfold after at 1. rewrite Hrun. cbn [fst snd].
      apply after_bind, after_modify, after_bind, after_get, after_bind.
      set (entry := Result.set_index found (TrackData.index track_data)).
      assert (Hfail : forall (s : store),
                 bot s = bot st1 -> results s = results st1 ++ [entry] ->
                 after (modify (append_result (error_entry track_data)) : M unit)
                       s
                       (fun r s' =>
                          r = Ok tt
                          /\ (exists c,
                                 bot s' = Bot.set_stats (bot st)
                                            (Stats.bump c
                                               (Stats.bump_total
                                                  (Bot.stats (bot st)))))
                          /\ exists extra,
                              results s' = results st ++ extra
                              /\ 1 <= length extra <= 2)).
      { intros s Hbs Hrs. apply after_modify. split; [reflexivity|]. split.
        - exists c. cbn [bot append_result]. now rewrite Hbs.
        - exists [entry; error_entry track_data].
          cbn [results append_result]. rewrite Hrs, Hres, <- app_assoc.
          cbn. split; [reflexivity|lia]. }
      assert (Hok : forall (s : store),
                 bot s = bot st1 -> results s = results st1 ++ [entry] ->
                 Ok tt = Ok tt
                 /\ (exists c,
                        bot s = Bot.set_stats (bot st)
                                  (Stats.bump c
                                     (Stats.bump_total (Bot.stats (bot st)))))
                 /\ exists extra,
                     results s = results st ++ extra /\ 1 <= length extra <= 2).
      { intros s Hbs Hrs. split; [reflexivity|]. split.
        - exists c. now rewrite Hbs.
        - exists [entry]. rewrite Hrs, Hres. cbn. split; [reflexivity|lia]. }
      unfold after at 1, in_world.
      cbn [bot world results trace append_result].
      destruct (progress_callback _ _ _ _ (world st1)) as [[[]|e] w1];
        cbn [fst snd].
      * apply after_bind, after_modify.
        destruct (i <? total - 1)%Z.
        -- unfold after, time_sleep. destruct (Qltb delay 0).
           ++ apply Hfail; reflexivity.
           ++ apply Hok; reflexivity.
        -- apply after_ret. apply Hok; reflexivity.
      * apply Hfail; reflexivity.
    + intros r s1 (-> & (c & Hb1) & extra & Hres1 & Hlen1).
      eapply after_mono; [apply IH|].
      intros r s2 (-> & (stats & Hb2 & Htot & Hsum) & entries & Hres2 & Hlen2).
      split; [reflexivity|]. split.
      * exists stats. rewrite Hb2, Hb1. split; [reflexivity|].
        rewrite Hb1 in Htot, Hsum. cbn [Bot.stats Bot.set_stats] in Htot, Hsum.
        destruct (bump_counts c (Bot.stats (bot st))) as [H1 H2].
        rewrite H1 in Htot. rewrite H2 in Hsum. cbn [length]. lia.
      * exists (extra ++ entries). rewrite Hres2, Hres1, <- app_assoc.
        split; [reflexivity|]. rewrite length_app. cbn [length]. lia.
Qed.

(** With a progress sink that does not raise and a delay that is not
    negative, the track loop adds one entry per track, in order, and
    reports once per track. *)
Lemma tracks_loop_reports (delay : Q) (total : Z)
      (tracks_data : list TrackData.t) :
  (0 <= delay)%Q ->
  (forall c t snapshot label w,
      fst (progress_callback c t snapshot label w) = Ok tt) ->
  forall (i : Z) (st : store),
    after (loop delay total i tracks_data) st
          (fun r s =>
             r = Ok tt
             /\ (exists entries,
                    results s = results st ++ entries
                    /\ Forall2 entry_of tracks_data entries)
             /\ reports_of (trace s)
                = reports_of (trace st)
                  ++ reports_from i total
                       (Stats.total_songs (Bot.stats (bot st)))
                       (terminal_sum (Bot.stats (bot st)))
                       (length tracks_data)).
Proof.
  intros Hd Hsink.
  induction tracks_data as [|track_data rest IH]; intros i st.
  - apply after_ret. split; [reflexivity|]. split.
    + exists []. rewrite app_nil_r. split; [reflexivity|constructor].
    + cbn. now rewrite app_nil_r.
  - cbn [tracks_loop]. apply after_bind.
    set (T0 := Stats.total_songs (Bot.stats (bot st))).
    set (S0 := terminal_sum (Bot.stats (bot st))).
    apply after_mono with
      (Q := fun r s =>
              r = Ok tt
              /\ (exists c,
                     bot s = Bot.set_stats (bot st)
                               (Stats.bump c
                                  (Stats.bump_total (Bot.stats (bot st)))))
              /\ (exists entry,
                     results s = results st ++ [entry]
                     /\ entry_of track_data entry)
              /\ reports_of (trace s)
                 = reports_of (trace st)
                   ++ [(i + 1, total, T0 + 1, S0 + 1)%Z]).
    + apply after_try, after_bind.
      destruct (resolve_step (Some (TrackData.track_name track_data))
                             (Some (TrackData.artist_name track_data)) st)
        as (c & found & st1 & Hrun & Hname & Hartist & Hb & Hres & Hquiet).
      unfold after at 1. rewrite Hrun. cbn [fst snd].
      apply after_bind, after_modify, after_bind, after_get, after_bind.
      set (entry := Result.set_index found (TrackData.index track_data)).
      unfold after at 1, in_world.
      cbn [bot world results trace append_result].
      pose proof (Hsink (i + 1)%Z total (Bot.stats (bot st1))
                        (TrackData.track_name track_data ++ lit " - "
                         ++ TrackData.artist_name track_data)
                        (world st1)) as Hs.
      destruct (progress_callback _ _ _ _ (world st1)) as [r w1].
      cbn [fst] in Hs. subst r. cbn [fst snd].
      apply after_bind, after_modify.
      assert (Hview :
                reports_of (trace st1
                            ++ [EProgress (i + 1) total (Bot.stats (bot st1))
                                  (TrackData.track_name track_data ++ lit " - "
                                   ++ TrackData.artist_name track_data)])
                = reports_of (trace st) ++ [(i + 1, total, T0 + 1, S0 + 1)%Z]).
      { unfold reports_of. rewrite omap_app. fold (reports_of (trace st1)).
        rewrite Hquiet. cbn [omap list_omap report_view]. rewrite Hb.
        cbn [Bot.stats Bot.set_stats].
        destruct (bump_counts c (Bot.stats (bot st))) as [-> ->]. reflexivity. }
      assert (Hentry : entry_of track_data entry).
      { unfold entry_of, entry. cbn [Result.set_index Result.index
                                       Result.track_name Result.artist_name].
        auto. }
      destruct (i <? total - 1)%Z.
      * unfold after, time_sleep. rewrite (Qltb_0_false _ Hd).
        cbn [fst snd modify]. se_unfold.
        cbn [fst snd bot results trace log set_world append_result].
        split; [reflexivity|]. split; [exists c; exact Hb|]. split.
        -- exists entry. rewrite Hres. auto.
        -- unfold reports_of in *. rewrite omap_app, Hview. cbn. apply app_nil_r.
      * apply after_ret. cbn [bot results trace log set_world append_result].
        split; [reflexivity|]. split; [exists c; exact Hb|]. split.
        -- exists entry. rewrite Hres. auto.
        -- exact Hview.
    + intros r s1 (-> & (c & Hb1) & (entry & Hres1 & Hentry) & Hrep1).
      eapply after_mono; [apply IH|].
      intros r s2 (-> & (entries & Hres2 & Hentries) & Hrep2).
      split; [reflexivity|]. split.
      * exists (entry :: entries). rewrite Hres2, Hres1, <- app_assoc.
        split; [reflexivity|]. now constructor.
      * rewrite Hrep2, Hrep1, Hb1. cbn [Bot.stats Bot.set_stats length].
        destruct (bump_counts c (Bot.stats (bot st))) as [-> ->].
        rewrite reports_from_succ, <- app_assoc. reflexivity.
Qed.

End RunFacts.

Section ApartFacts.
Context {U : Unicode} {W : Type}.
Context (random_uniform : Q -> Q -> W -> Q * W)
        (youtube_music_available : bool)
        (youtube_music_search youtube_scraper_search : str -> SE W (option str))
        (fourshared_scraper_search :
           str -> option str -> option str -> SE W (option str)).

Local Abbreviation store := (@store (W * list call)).
Local Abbreviation M := (@M (W * list call)).
Local Abbreviation apart := (apart (W := W)).
Local Abbreviation watched_uniform := (aside_uniform random_uniform).
Local Abbreviation search_with_retries :=
  (_search_with_retries (aside_uniform random_uniform)).
Local Abbreviation watched_variants_loop :=
  (variants_loop (aside_uniform random_uniform) youtube_music_available
                 (fun query => aside (youtube_music_search query))
                 (fun query => aside (youtube_scraper_search query))
                 (fun query t a => aside (fourshared_scraper_search query t a))).
Local Abbreviation resolve :=
  (search_single_track (aside_uniform random_uniform) youtube_music_available
                       (fun query => aside (youtube_music_search query))
                       (fun query => aside (youtube_scraper_search query))
                       (fun query t a =>
                          aside (fourshared_scraper_search query t a))).

Lemma apart_ret {A} (a : A) : apart (mret a : M A).
Proof. now intros st. Qed.

Lemma apart_throw {A} (e : exn) : apart (mthrow e : M A).
Proof. now intros st. Qed.

Lemma apart_bind {A B} (m : M A) (f : A -> M B) :
  apart m -> (forall a, apart (f a)) -> apart (m ≫= f).
Proof.
  intros Hm Hf st. se_unfold. specialize (Hm st).
  destruct (m st) as [[a|e] st1]; cbn [snd] in *; [|exact Hm].
  now rewrite Hf.
Qed.

Lemma apart_try {A} (m : M A) (h : exn -> M A) :
  apart m -> (forall e, apart (h e)) -> apart (try_except m h).
Proof.
  intros Hm Hh st. se_unfold. specialize (Hm st).
  destruct (m st) as [[a|e] st1]; cbn [snd] in *; [exact Hm|].
  now rewrite Hh.
Qed.

Lemma apart_if {A} (b : bool) (m1 m2 : M A) :
  apart m1 -> apart m2 -> apart (if b then m1 else m2).
Proof. now destruct b. Qed.

Lemma apart_lift {A} (r : res A) : apart (lift r : M A).
Proof. now intros st. Qed.

Lemma apart_time_sleep (seconds : Q) : apart (time_sleep seconds).
Proof. intros st. unfold time_sleep. now destruct (Qltb seconds 0). Qed.

Lemma apart_uniform (a b : Q) : apart (uniform watched_uniform a b).
Proof.
  intros st. unfold uniform, aside_uniform.
  now destruct (random_uniform a b (fst (world st))).
Qed.

Lemma apart_self_delay : apart (@self_delay (W * list call)).
Proof. now intros st. Qed.

Lemma apart_self_max_retries : apart (@self_max_retries (W * list call)).
Proof. now intros st. Qed.

Lemma apart_update_stats (f : Stats.t -> Stats.t) : apart (update_stats f).
Proof. now intros st. Qed.

Lemma apart_invoke (f : SE W (option str)) (k : nat) :
  apart (invoke (aside f) k).
Proof.
  intros st. unfold invoke, aside. now destruct (f (fst (world st))).
Qed.

Lemma apart_attempt_body (f : SE W (option str)) (k : nat) :
  apart (attempt_body watched_uniform (aside f) k).
Proof.
  unfold attempt_body. apply apart_try.
  - apply apart_bind.
    + apply apart_if; [|apply apart_ret].
      apply apart_bind; [apply apart_self_delay|]. intros d.
      apply apart_bind; [apply apart_uniform|]. intros j.
      apply apart_time_sleep.
    + intros _. apply apart_bind; [apply apart_invoke|].
      intros r. apply apart_if; apply apart_ret.
  - intros e.
    assert (Hother : apart
      (max_retries ← self_max_retries;
       (if (Z.of_nat k <? max_retries - 1)%Z
        then d ← self_delay; time_sleep (d * inject_Z (Z.of_nat k + 1))
        else mret tt);; mret None : M (option str))).
    { apply apart_bind; [apply apart_self_max_retries|]. intros n.
      apply apart_bind; [|intros; apply apart_ret].
      apply apart_if; [|apply apart_ret].
      apply apart_bind; [apply apart_self_delay|]. intros d.
      apply apart_time_sleep. }
    destruct e; try exact Hother.
    destruct response as [r|]; [|apply apart_ret].
    rewrite rate_limit_guard_false. apply apart_ret.
Qed.

Lemma apart_retry_loop (f : SE W (option str)) (remaining : nat) :
  forall k, apart (retry_loop watched_uniform (aside f) k remaining).
Proof.
  induction remaining as [|n IH]; intros k; cbn [retry_loop].
  - apply apart_ret.
  - apply apart_bind; [apply apart_attempt_body|].
    intros [u|]; [apply apart_ret | apply IH].
Qed.

Lemma apart_search_with_retries (f : SE W (option str)) :
  apart (search_with_retries (aside f)).
Proof.
  unfold _search_with_retries.
  apply apart_bind; [apply apart_self_max_retries|].
  intros n. apply apart_retry_loop.
Qed.

Lemma apart_search_youtube (query : str) :
  apart (_search_youtube watched_uniform youtube_music_available
                         (fun query => aside (youtube_music_search query))
                         (fun query => aside (youtube_scraper_search query))
                         query).
Proof.
  unfold _search_youtube. apply apart_bind.
  - apply apart_if; [|apply apart_ret].
    apply apart_bind; [apply apart_search_with_retries|].
    intros url. apply apart_if; apply apart_ret.
  - intros [url|]; [apply apart_ret|].
    apply apart_bind; [apply apart_search_with_retries|].
    intros url. apply apart_if; apply apart_ret.
Qed.

Lemma apart_variants_loop (t a : option str) (result : Result.t)
      (final : option str) (variants : list str) :
  apart (watched_variants_loop t a result final variants).
Proof.
  induction variants as [|v rest IH]; cbn [variants_loop]; [apply apart_ret|].
  assert (Hfound : forall (c : Stats.counter) (r : Result.t),
             apart (update_stats (Stats.bump c);; mret (Some r)
                    : M (option Result.t))).
  { intros c r. apply apart_bind; [apply apart_update_stats|].
    intros _. apply apart_ret. }
  assert (Hnext : apart
    ((if negb (bool_decide (Some v = final))
      then d ← self_delay; time_sleep (d * (1 # 2))
      else mret tt);;
     watched_variants_loop t a result final rest)).
  { apply apart_bind; [|intros _; exact IH].
    apply apart_if; [|apply apart_ret].
    apply apart_bind; [apply apart_self_delay|]. intros d.
    apply apart_time_sleep. }
  assert (Hfs : apart
    (fourshared_url ← _search_fourshared watched_uniform
                        (fun query t a =>
                           aside (fourshared_scraper_search query t a)) v t a;
     match fourshared_url with
     | Some (c :: u) =>
         update_stats (Stats.bump Stats.FoursharedFound);;
         mret (Some (Result.set_fourshared result (c :: u)))
     | _ =>
         (if negb (bool_decide (Some v = final))
          then d ← self_delay; time_sleep (d * (1 # 2))
          else mret tt);;
         watched_variants_loop t a result final rest
     end)).
  { apply apart_bind; [apply apart_search_with_retries|].
    intros [[|c u]|]; [exact Hnext|apply Hfound|exact Hnext]. }
  apply apart_bind; [apply apart_search_youtube|].
  intros [[|c u]|]; [exact Hfs|apply Hfound|exact Hfs].
Qed.

Lemma apart_resolve (t a : option str) : apart (resolve t a).
Proof.
  unfold search_single_track.
  apply apart_bind; [apply apart_update_stats|]. intros _.
  assert (Herr : forall r : Result.t,
             apart (update_stats (Stats.bump Stats.Errors);; mret r : M Result.t)).
  { intros r. apply apart_bind; [apply apart_update_stats|].
    intros _. apply apart_ret. }
  apply apart_try; [|intros _; apply Herr].
  apply apart_bind; [apply apart_lift|].
  intros [|v vs]; [apply Herr|].
  apply apart_bind; [apply apart_variants_loop|].
  intros [r|]; [apply apart_ret|].
  apply apart_bind; [apply apart_update_stats|]. intros _. apply apart_ret.
Qed.


End ApartFacts.


Section WatchedRunFacts.
Context {U : Unicode} {W : Type}.
Context (random_uniform : Q -> Q -> W -> Q * W)
        (youtube_music_available : bool)
        (youtube_music_search youtube_scraper_search : str -> SE W (option str))
        (fourshared_scraper_search :
           str -> option str -> option str -> SE W (option str))
        (progress_callback : Z -> Z -> Stats.t -> str -> SE W unit)
        (save_outputs : frame -> SE W unit).

Local Abbreviation after := (after (W := W * list call)).
Local Abbreviation watched_resolve :=
  (search_single_track (aside_uniform random_uniform) youtube_music_available
                       (fun query => aside (youtube_music_search query))
                       (fun query => aside (youtube_scraper_search query))
                       (fun query t a =>
                          aside (fourshared_scraper_search query t a))).
Local Abbreviation watched_loop :=
  (tracks_loop (aside_uniform random_uniform) youtube_music_available
               (fun query => aside (youtube_music_search query))
               (fun query => aside (youtube_scraper_search query))
               (fun query t a => aside (fourshared_scraper_search query t a))
               (recording progress_callback)).
Local Abbreviation watched_run :=
  (run_playlist (aside_uniform random_uniform) youtube_music_available
                (fun query => aside (youtube_music_search query))
                (fun query => aside (youtube_scraper_search query))
                (fun query t a => aside (fourshared_scraper_search query t a))
                (recording progress_callback)
                (fun df => aside (save_outputs df))).

(** With a sink that does not raise and a delay that is not negative,
    the track loop calls the sink once per track, in order, with the
    count, the total, the bot's statistics at that moment and the
    label of the track. *)
Lemma tracks_loop_tells (delay : Q) (total : Z)
      (tracks_data : list TrackData.t) :
  (0 <= delay)%Q ->
  (forall c t snapshot label w,
      fst (progress_callback c t snapshot label w) = Ok tt) ->
  forall (i : Z) (st : @store (W * list call)),
    after (watched_loop delay total i tracks_data) st
          (fun r s =>
             r = Ok tt
             /\ exists calls,
                 snd (world s) = snd (world st) ++ calls
                 /\ told total i
                         (Stats.total_songs (Bot.stats (bot st)))
                         (terminal_sum (Bot.stats (bot st)))
                         tracks_data calls).
Proof.
  intros Hd Hsink.
  induction tracks_data as [|track_data rest IH]; intros i st.
  - apply after_ret. split; [reflexivity|]. exists [].
    rewrite app_nil_r. split; reflexivity.
  - cbn [tracks_loop]. apply after_bind.
    set (T0 := Stats.total_songs (Bot.stats (bot st))).
    set (S0 := terminal_sum (Bot.stats (bot st))).
    set (label := TrackData.track_name track_data ++ lit " - "
                  ++ TrackData.artist_name track_data).
    apply after_mono with
      (Q := fun r s =>
              r = Ok tt
              /\ Stats.total_songs (Bot.stats (bot s)) = (T0 + 1)%Z
              /\ terminal_sum (Bot.stats (bot s)) = (S0 + 1)%Z
              /\ snd (world s)
                 = snd (world st)
                   ++ [(i + 1, total, Bot.stats (bot s), label)%Z]).
    + apply after_try, after_bind.
      destruct (resolve_step (aside_uniform random_uniform)
                  youtube_music_available
                  (fun query => aside (youtube_music_search query))
                  (fun query => aside (youtube_scraper_search query))
                  (fun query t a => aside (fourshared_scraper_search query t a))
                  (Some (TrackData.track_name track_data))
                  (Some (TrackData.artist_name track_data)) st)
        as (c & found & st1 & Hrun & _ & _ & Hb & _ & _).
      pose proof (apart_resolve random_uniform youtube_music_available
                    youtube_music_search youtube_scraper_search
                    fourshared_scraper_search
                    (Some (TrackData.track_name track_data))
                    (Some (TrackData.artist_name track_data)) st) as Hcalls.
      rewrite Hrun in Hcalls. cbn [snd] in Hcalls.
      unfold after at 1. rewrite Hrun. cbn [fst snd].
      apply after_bind, after_modify, after_bind, after_get, after_bind.
      unfold after at 1, in_world, recording.
      cbn [bot world results trace append_result].
      pose proof (Hsink (i + 1)%Z total (Bot.stats (bot st1)) label
                        (fst (world st1))) as Hs.
      fold label.
      destruct (progress_callback _ _ _ _ (fst (world st1))) as [r w1].
      cbn [fst] in Hs. subst r. cbn [fst snd].
      apply after_bind, after_modify.
      destruct (bump_counts c (Bot.stats (bot st))) as [Htot Hsum].
      assert (Hdone : forall s : @store (W * list call),
                 bot s = bot st1 ->
                 world s = (w1, snd (world st1)
                                ++ [(i + 1, total, Bot.stats (bot st1), label)%Z]) ->
                 Ok tt = Ok tt
                 /\ Stats.total_songs (Bot.stats (bot s)) = (T0 + 1)%Z
                 /\ terminal_sum (Bot.stats (bot s)) = (S0 + 1)%Z
                 /\ snd (world s)
                    = snd (world st)
                      ++ [(i + 1, total, Bot.stats (bot s), label)%Z]).
      { intros s Hbs Hws. rewrite Hws, Hbs, Hcalls. cbn [snd].
        rewrite Hb. cbn [Bot.stats Bot.set_stats]. auto. }
      destruct (i <? total - 1)%Z.
      * unfold after, time_sleep. rewrite (Qltb_0_false _ Hd).
        cbn [fst snd modify]. se_unfold. cbn [fst snd].
        apply Hdone; reflexivity.
      * apply after_ret. apply Hdone; reflexivity.
    + intros r s1 (-> & Htot1 & Hsum1 & Hcalls1).
      eapply after_mono; [apply IH|].
      intros r s2 (-> & calls & Hcalls2 & Htold).
      split; [reflexivity|].
      exists ((i + 1, total, Bot.stats (bot s1), label)%Z :: calls).
      split.
      * rewrite Hcalls2, Hcalls1, <- app_assoc. reflexivity.
      * cbn [told]. rewrite Htot1, Hsum1 in Htold. auto 10.
Qed.

Lemma run_playlist_tells (rows : list row) (delay : Q)
      (max_retries concurrency : Z) (st : @store (W * list call)) :
  (0 <= delay)%Q ->
  (forall c t snapshot label w,
      fst (progress_callback c t snapshot label w) = Ok tt) ->
  (forall df w, fst (save_outputs df w) = Ok tt) ->
  collect_tracks rows <> [] ->
  exists stats st' calls,
    watched_run rows delay max_retries concurrency st = (Ok stats, st')
    /\ snd (world st') = snd (world st) ++ calls
    /\ told (Z.of_nat (length (collect_tracks rows))) 0 0 0
            (collect_tracks rows) calls.
Proof.
  intros Hd Hsink Hsave Hsome.
  assert (H : after (watched_run rows delay max_retries concurrency) st
                (fun r s =>
                   (exists stats, r = Ok stats)
                   /\ exists calls,
                       snd (world s) = snd (world st) ++ calls
                       /\ told (Z.of_nat (length (collect_tracks rows))) 0 0 0
                               (collect_tracks rows) calls)).
  { unfold run_playlist. apply after_try.
    destruct (collect_tracks rows) as [|t ts] eqn:Et; [congruence|].
    apply after_bind, after_modify, after_bind, after_modify, after_bind.
    eapply after_mono; [now apply tracks_loop_tells|].
    intros r s (-> & calls & Hcalls & Htold).
    cbn [bot world set_bot Bot.init Bot.stats] in Hcalls, Htold.
    apply after_bind, after_get, after_bind.
    unfold after at 1, in_world, aside.
    pose proof (Hsave (write_back (blank_frame rows) (results s))
                      (fst (world s))) as Hs.
    destruct (save_outputs _ (fst (world s))) as [r w1]. cbn [fst] in Hs.
    subst r. cbn [fst snd]. apply after_ret. cbn [world set_world snd].
    split; [eauto|]. exists calls. split; [exact Hcalls|exact Htold]. }
  unfold after in H. destruct H as ((stats & Hr) & calls & Hcalls & Htold).
  exists stats, (snd (watched_run rows delay max_retries concurrency st)), calls.
  split; [rewrite <- Hr; apply surjective_pairing|]. auto.
Qed.

End WatchedRunFacts.


Section RunProperties.
Context {U : Unicode} {W : Type}.
Context (random_uniform : Q -> Q -> W -> Q * W)
        (youtube_music_available : bool)
        (youtube_music_search youtube_scraper_search : str -> SE W (option str))
        (fourshared_scraper_search :
           str -> option str -> option str -> SE W (option str))
        (progress_callback : Z -> Z -> Stats.t -> str -> SE W unit)
        (save_outputs : frame -> SE W unit).

Local Abbreviation store := (@store W).
Local Abbreviation M := (@M W).
Local Abbreviation after := (after (W := W)).
Local Abbreviation resolve :=
  (search_single_track random_uniform youtube_music_available
                       youtube_music_search youtube_scraper_search
                       fourshared_scraper_search).
Local Abbreviation loop :=
  (tracks_loop random_uniform youtube_music_available
               youtube_music_search youtube_scraper_search
               fourshared_scraper_search progress_callback).
Local Abbreviation run :=
  (run_playlist random_uniform youtube_music_available
                youtube_music_search youtube_scraper_search
                fourshared_scraper_search progress_callback save_outputs).
Local Abbreviation watched_run :=
  (run_playlist (aside_uniform random_uniform) youtube_music_available
                (fun query => aside (youtube_music_search query))
                (fun query => aside (youtube_scraper_search query))
                (fun query t a => aside (fourshared_scraper_search query t a))
                (recording progress_callback)
                (fun df => aside (save_outputs df))).

Lemma error_entry_for (track_data : TrackData.t) :
  error_for track_data (error_entry track_data).
Proof. repeat split. Qed.

(** Whatever the progress sink and the sleep do, every track leaves in
    [results] the resolver's entry for it, followed by an error entry
    for it when the sink or the sleep raised. *)
Lemma tracks_loop_entries (delay : Q) (total : Z)
      (tracks_data : list TrackData.t) :
  forall (i : Z) (st : store),
    after (loop delay total i tracks_data) st
          (fun r s =>
             r = Ok tt
             /\ exists entries,
                 results s = results st ++ entries
                 /\ accounted tracks_data entries).
Proof.
  induction tracks_data as [|track_data rest IH]; intros i st.
  - apply after_ret. split; [reflexivity|]. exists [].
    rewrite app_nil_r. split; [reflexivity|]. exists []. split; [constructor|reflexivity].
  - cbn [tracks_loop]. apply after_bind.
    apply after_mono with
      (Q := fun r s =>
              r = Ok tt
              /\ exists extra,
                  results s = results st ++ extra
                  /\ left_by track_data extra).
    + apply after_try, after_bind.
      destruct (resolve_step random_uniform youtube_music_available
                  youtube_music_search youtube_scraper_search
                  fourshared_scraper_search
                  (Some (TrackData.track_name track_data))
                  (Some (TrackData.artist_name track_data)) st)
        as (c & found & st1 & Hrun & Hname & Hartist & _ & Hres & _).
      unfold after at 1. rewrite Hrun. cbn [fst snd].
      apply after_bind, after_modify, after_bind, after_get, after_bind.
      set (entry := Result.set_index found (TrackData.index track_data)).
      assert (Hentry : entry_of track_data entry).
      { unfold entry_of, entry. cbn [Result.set_index Result.index
                                       Result.track_name Result.artist_name].
        auto. }
      assert (Hfail : forall (s : store),
                 results s = results st1 ++ [entry] ->
                 after (modify (append_result (error_entry track_data)) : M unit)
                       s
                       (fun r s' =>
                          r = Ok tt
                          /\ exists extra,
                              results s' = results st ++ extra
                              /\ left_by track_data extra)).
      { intros s Hrs. apply after_modify. split; [reflexivity|].
        exists [entry; error_entry track_data].
        cbn [results append_result]. rewrite Hrs, Hres, <- app_assoc.
        split; [reflexivity|].
        apply left_two; [exact Hentry|apply error_entry_for]. }
      assert (Hok : forall (s : store),
                 results s = results st1 ++ [entry] ->
                 Ok tt = Ok tt
                 /\ exists extra,
                     results s = results st ++ extra /\ left_by track_data extra).
      { intros s Hrs. split; [reflexivity|].
        exists [entry]. rewrite Hrs, Hres. split; [reflexivity|].
        now apply left_one. }
      unfold after at 1, in_world.
      cbn [bot world results trace append_result].
      destruct (progress_callback _ _ _ _ (world st1)) as [[[]|e] w1];
        cbn [fst snd].
      * apply after_bind, after_modify.
        destruct (i <? total - 1)%Z.
        -- unfold after, time_sleep. destruct (Qltb delay 0).
           ++ apply Hfail; reflexivity.
           ++ apply Hok; reflexivity.
        -- apply after_ret. apply Hok; reflexivity.
      * apply Hfail; reflexivity.
    + intros r s1 (-> & extra & Hres1 & Hleft).
      eapply after_mono; [apply IH|].
      intros r s2 (-> & entries & Hres2 & groups & Hgroups & ->).
      split; [reflexivity|].
      exists (extra ++ concat groups). rewrite Hres2, Hres1, <- app_assoc.
      split; [reflexivity|]. exists (extra :: groups).
      split; [now constructor|reflexivity].
Qed.

(** X17.  [run_playlist] either returns the statistics or raises the
    one exception it wraps every failure in.  The statistics it returns
    count every valid track exactly once, in [total_songs] and in the
    sum of the terminal counters, whatever the progress sink and the
    sleeps between tracks do, and [results] holds, track by track and
    in order, the resolver's entry for the track, with the track's
    index and names, followed by at most one error entry with the same
    index and names: at least one and at most two entries per valid
    track. *)
Theorem run_playlist_accounts (rows : list row) (delay : Q)
        (max_retries concurrency : Z) (st : store) :
  let n := length (collect_tracks rows) in
  let out := run rows delay max_retries concurrency st in
  match fst out with
  | Ok stats =>
      1 <= n
      /\ Stats.total_songs stats = Z.of_nat n
      /\ terminal_sum stats = Z.of_nat n
      /\ bot (snd out)
         = Bot.set_stats (Bot.init delay max_retries concurrency 10) stats
      /\ n <= length (results (snd out)) <= 2 * n
      /\ accounted (collect_tracks rows) (results (snd out))
  | Raise e => e = PlainException
  end.
Proof.
  cbn zeta.
  change (after (run rows delay max_retries concurrency) st
            (fun r s =>
               match r with
               | Ok stats =>
                   1 <= length (collect_tracks rows)
                   /\ Stats.total_songs stats
                      = Z.of_nat (length (collect_tracks rows))
                   /\ terminal_sum stats
                      = Z.of_nat (length (collect_tracks rows))
                   /\ bot s = Bot.set_stats
                                (Bot.init delay max_retries concurrency 10) stats
                   /\ length (collect_tracks rows) <= length (results s)
                      <= 2 * length (collect_tracks rows)
                   /\ accounted (collect_tracks rows) (results s)
               | Raise e => e = PlainException
               end)).
  unfold run_playlist. apply after_try.
  destruct (collect_tracks rows) as [|t ts] eqn:Et.
  { apply after_throw. apply after_throw. reflexivity. }
  apply after_bind, after_modify, after_bind, after_modify, after_bind.
  eapply after_mono;
    [apply after_both; [apply tracks_loop_accounts|apply tracks_loop_entries]|].
  intros r s [(-> & (stats & Hb & Htot & Hsum) & entries & Hres & Hlen)
              (_ & entries' & Hres' & Hacc)].
  cbn [bot results set_bot] in Hb, Htot, Hsum, Hres, Hres'.
  apply after_bind, after_get, after_bind.
  unfold after at 1, in_world.
  destruct (save_outputs _ (world s)) as [[[]|e] w1]; cbn [fst snd].
  - apply after_ret. cbn [bot results set_world].
    rewrite Hb. cbn [Bot.stats Bot.set_stats].
    cbn [Bot.init Bot.stats terminal_sum Stats.zero Stats.total_songs
         Stats.youtube_found Stats.fourshared_found Stats.not_found
         Stats.errors] in Htot, Hsum.
    unfold terminal_sum in *. cbn in Hsum.
    split; [cbn [length]; lia|]. split; [lia|]. split; [exact Hsum|].
    split; [reflexivity|]. split; [rewrite Hres; exact Hlen|].
    rewrite Hres'. exact Hacc.
  - apply after_throw. reflexivity.
Qed.


End RunProperties.

(* ------------------------------------------------------------------ *)
(** ** Trimmed and normal text *)

Section StripFacts.
Context {U : Unicode}.

Lemma lstrip_by_length (f : N -> bool) (s : str) :
  length (lstrip_by f s) <= length s.
Proof.
  induction s as [|c s IH]; [reflexivity|]. cbn [lstrip_by].
  destruct (f c); cbn [length]; lia.
Qed.

Lemma lstrip_fixed_head (c : N) (s : str) :
  lstrip (c :: s) = c :: s -> isspace c = false.
Proof.
  unfold lstrip. cbn [lstrip_by]. destruct (isspace c); [|reflexivity].
  intros H. pose proof (lstrip_by_length isspace s) as Hl.
  rewrite H in Hl. cbn [length] in Hl. lia.
Qed.

Lemma lstrip_idem (s : str) : lstrip (lstrip s) = lstrip s.
Proof.
  unfold lstrip. induction s as [|c s IH]; [reflexivity|]. cbn [lstrip_by].
  destruct (isspace c) eqn:E; [exact IH|]. cbn [lstrip_by]. now rewrite E.
Qed.

Lemma lstrip_app_fixed (s x : str) :
  s <> [] -> lstrip s = s -> lstrip (s ++ x) = s ++ x.
Proof.
  destruct s as [|c s]; [congruence|]. intros _ H.
  apply lstrip_fixed_head in H. unfold lstrip. cbn [app lstrip_by].
  now rewrite H.
Qed.

Lemma trimmed_strip_fixed (s : str) : trimmed s -> strip s = s.
Proof.
  intros [H1 H2]. unfold strip, rstrip. rewrite H1, H2. apply rev_involutive.
Qed.

Lemma strip_trimmed (s : str) : trimmed (strip s).
Proof.
  unfold trimmed, strip, rstrip. rewrite rev_involutive, lstrip_idem.
  split; [|reflexivity].
  destruct (lstrip s) as [|c x] eqn:E; [reflexivity|].
  assert (Hc : isspace c = false).
  { apply (lstrip_fixed_head c x). rewrite <- E. apply lstrip_idem. }
  cbn [rev].
  assert (Hsnoc : forall l, lstrip (l ++ [c]) = lstrip l ++ [c]).
  { unfold lstrip. induction l as [|y l IH]; cbn [app lstrip_by].
    - now rewrite Hc.
    - destruct (isspace y); [exact IH|reflexivity]. }
  rewrite Hsnoc, rev_app_distr. cbn [rev app].
  unfold lstrip at 1. cbn [lstrip_by]. now rewrite Hc.
Qed.

Lemma strip_idem (s : str) : strip (strip s) = strip s.
Proof. apply trimmed_strip_fixed, strip_trimmed. Qed.

Lemma trimmed_nil : trimmed [].
Proof. split; reflexivity. Qed.

Lemma trimmed_join (a m t : str) :
  a <> [] -> t <> [] -> trimmed a -> trimmed t -> trimmed (a ++ m ++ t).
Proof.
  intros Ha Ht [Ha1 _] [_ Ht2]. split.
  - now apply lstrip_app_fixed.
  - rewrite !rev_app_distr, <- app_assoc. apply lstrip_app_fixed; [|exact Ht2].
    intros H. apply (f_equal (@rev N)) in H. rewrite rev_involutive in H.
    now apply Ht.
Qed.

Lemma normalize_text_trimmed (x : option str) : trimmed (normalize_text x).
Proof.
  destruct x as [[|c s]|]; cbn [normalize_text];
    [apply trimmed_nil|apply strip_trimmed|apply trimmed_nil].
Qed.

Lemma clean_query_trimmed (t a : option str) : trimmed (clean_query t a).
Proof.
  unfold clean_query. destruct t as [t|], a as [a|]; try apply trimmed_nil.
  destruct (negb (truthy t) || negb (truthy a));
    [apply trimmed_nil|apply strip_trimmed].
Qed.

(** X19.  Every search variant is a non-empty text without white
    space at either end. *)
Theorem search_variants_trimmed (track_name artist_name : option str) :
  match generate_search_variants track_name artist_name with
  | Ok variants =>
      Forall (fun variant => variant <> [] /\ strip variant = variant) variants
  | Raise _ => True
  end.
Proof.
  destruct track_name as [t|], artist_name as [a|];
    [|unfold generate_search_variants, attr_strip;
      cbn [mbind res_mbind res_bind]; exact I..].
  rewrite generate_search_variants_strings.
  assert (Hcand : Forall (fun v => v <> [] /\ strip v = v) (candidates t a)).
  { pose proof (candidates_truthy t a) as Htruthy.
    assert (Htrim : Forall trimmed (candidates t a)).
    { unfold candidates.
      set (main_query := clean_query (Some t) (Some a)).
      set (clean_track := normalize_text (Some (strip t))).
      set (clean_artist := normalize_text (Some (strip a))).
      assert (Hq : trimmed main_query) by apply clean_query_trimmed.
      assert (Ht : trimmed clean_track) by apply normalize_text_trimmed.
      assert (Ha : trimmed clean_artist) by apply normalize_text_trimmed.
      repeat apply Forall_app_2.
      - destruct (truthy main_query); [|constructor].
        constructor; [exact Hq|constructor].
      - destruct (truthy clean_artist) eqn:Ea, (truthy clean_track) eqn:Et;
          cbn [andb]; try constructor; [|constructor].
        apply trimmed_join; auto; now apply truthy_nonempty.
      - destruct (3 <? length clean_track); [|constructor].
        constructor; [exact Ht|constructor]. }
    apply Forall_forall. intros v Hv.
    split.
    - apply truthy_nonempty. exact (proj1 (Forall_forall _ _) Htruthy v Hv).
    - apply trimmed_strip_fixed. exact (proj1 (Forall_forall _ _) Htrim v Hv). }
  apply Forall_forall. intros v Hv. unfold first_seen in Hv.
  apply first_seen_from_elem in Hv as [Hv _].
  exact (proj1 (Forall_forall _ _) Hcand v Hv).
Qed.

(** X20.  [collect_tracks] keeps the rows in their order, and only
    rows whose track and artist are both present and not blank; the
    names it hands on are trimmed. *)
Theorem collect_tracks_valid (rows : list row) :
  Forall (fun track_data =>
            TrackData.track_name track_data <> []
            /\ TrackData.artist_name track_data <> []
            /\ strip (TrackData.track_name track_data)
               = TrackData.track_name track_data
            /\ strip (TrackData.artist_name track_data)
               = TrackData.artist_name track_data
            /\ exists r,
                In r rows
                /\ TrackData.index track_data = row_index r
                /\ track_cell r <> None /\ artist_cell r <> None)
         (collect_tracks rows)
  /\ sublist (map TrackData.index (collect_tracks rows)) (map row_index rows).
Proof.
  assert (Hcell : forall cell, trimmed (read_cell cell)).
  { intros [s|]; [apply strip_trimmed|apply trimmed_nil]. }
  assert (Hsome : forall cell, truthy (read_cell cell) = true -> cell <> None).
  { intros [s|]; [discriminate|discriminate]. }
  induction rows as [|r rows [IH1 IH2]]; [split; constructor|].
  assert (IH1' : Forall (fun track_data =>
            TrackData.track_name track_data <> []
            /\ TrackData.artist_name track_data <> []
            /\ strip (TrackData.track_name track_data)
               = TrackData.track_name track_data
            /\ strip (TrackData.artist_name track_data)
               = TrackData.artist_name track_data
            /\ exists r0,
                In r0 (r :: rows)
                /\ TrackData.index track_data = row_index r0
                /\ track_cell r0 <> None /\ artist_cell r0 <> None)
         (collect_tracks rows)).
  { eapply Forall_impl; [exact IH1|].
    intros t (H1 & H2 & H3 & H4 & r0 & Hin & Hr0). repeat split; auto.
    exists r0. split; [now right|exact Hr0]. }
  cbn [collect_tracks map].
  destruct (truthy (read_cell (track_cell r))
            && truthy (read_cell (artist_cell r))) eqn:E.
  - apply andb_true_iff in E as [Et Ea]. split.
    + constructor; [|exact IH1'].
      cbn [TrackData.track_name TrackData.artist_name TrackData.index].
      split; [now apply truthy_nonempty|]. split; [now apply truthy_nonempty|].
      split; [apply trimmed_strip_fixed, Hcell|].
      split; [apply trimmed_strip_fixed, Hcell|].
      exists r. split; [now left|]. split; [reflexivity|]. split; auto.
    + cbn [map TrackData.index]. now apply sublist_skip.
  - split; [exact IH1'|now apply sublist_cons].
Qed.

End StripFacts.

Section NormalForm.

#[local] Existing Instance ascii_tables.

Lemma single_spaced_app (p q : str) :
  forall b,
    single_spaced b (p ++ q)
    = single_spaced b p && single_spaced (ends_in_space b p) q.
Proof.
  induction p as [|c p IH]; intros b; [reflexivity|].
  cbn [app single_spaced]. unfold ends_in_space. rewrite last_cons.
  destruct (Ascii_tables.isspace c) eqn:Ec; rewrite IH; unfold ends_in_space;
    destruct (last p) as [y|]; rewrite ?Ec; try reflexivity;
    now rewrite <- !andb_assoc.
Qed.

Lemma single_spaced_weaken (s : str) :
  single_spaced true s = true -> single_spaced false s = true.
Proof.
  destruct s as [|c s]; [reflexivity|]. cbn [single_spaced].
  destruct (Ascii_tables.isspace c); [|auto].
  rewrite andb_false_r. discriminate.
Qed.

Lemma lstrip_suffix (s : str) : exists dropped, s = dropped ++ lstrip s.
Proof.
  unfold lstrip. induction s as [|c s [d IH]]; [now exists []|].
  cbn [lstrip_by]. destruct (isspace c).
  - exists (c :: d). cbn [app]. now rewrite <- IH.
  - now exists [].
Qed.

Lemma strip_segment (s : str) : exists pre post, s = pre ++ strip s ++ post.
Proof.
  unfold strip, rstrip.
  destruct (lstrip_suffix s) as [pre Hpre].
  destruct (lstrip_suffix (rev (lstrip s))) as [d Hd].
  exists pre, (rev d). rewrite <- rev_app_distr.
  fold lstrip in Hd. rewrite <- Hd, rev_involutive. exact Hpre.
Qed.

Lemma trimmed_ends (s : str) :
  trimmed s ->
  match s with
  | [] => True
  | c :: _ => Ascii_tables.isspace c = false
  end
  /\ ends_in_space false s = false.
Proof.
  intros [H1 H2]. split.
  - destruct s as [|c s]; [exact I|]. exact (lstrip_fixed_head c s H1).
  - unfold ends_in_space. destruct (last s) as [y|] eqn:El; [|reflexivity].
    apply last_Some in El as [l' ->]. rewrite rev_app_distr in H2.
    cbn [rev app] in H2. exact (lstrip_fixed_head y (rev l') H2).
Qed.

Lemma single_spaced_strip (b : bool) (s : str) :
  single_spaced b s = true -> single_spaced true (strip s) = true.
Proof.
  intros H. destruct (strip_segment s) as (pre & post & Hs).
  rewrite Hs, !single_spaced_app in H.
  apply andb_true_iff in H as [_ H]. apply andb_true_iff in H as [H _].
  destruct (trimmed_ends (strip s) (strip_trimmed s)) as [Hhead _].
  destruct (strip s) as [|c x]; [reflexivity|].
  cbn [single_spaced] in *. now rewrite Hhead in *.
Qed.

Lemma collapse_spaces_single (s : str) :
  forall in_run,
    single_spaced in_run (collapse_spaces (U := ascii_tables) in_run s) = true.
Proof.
  induction s as [|c s IH]; intros in_run; [reflexivity|].
  cbn [collapse_spaces]. change (isspace c) with (Ascii_tables.isspace c).
  destruct (Ascii_tables.isspace c) eqn:Ec.
  - destruct in_run; [apply IH|]. cbn [single_spaced].
    change (Ascii_tables.isspace 32) with true. cbn. apply IH.
  - cbn [single_spaced]. rewrite Ec. apply IH.
Qed.

Lemma lower_char_space (c : N) :
  Ascii_tables.isspace (Ascii_tables.lower_char c) = Ascii_tables.isspace c
  /\ N.eqb (Ascii_tables.lower_char c) 32 = N.eqb c 32
  /\ Ascii_tables.is_upper (Ascii_tables.lower_char c) = false.
Proof.
  unfold Ascii_tables.lower_char, Ascii_tables.isspace, Ascii_tables.is_upper,
    Ascii_tables.between.
  destruct ((65 <=? c)%N && (c <=? 90)%N) eqn:E.
  - apply andb_true_iff in E as [E1 E2].
    apply N.leb_le in E1, E2. repeat split.
    + repeat match goal with
             | |- context [(?x <=? ?y)%N] =>
                 destruct (N.leb_spec x y)
             end; cbn; try reflexivity; lia.
    + destruct (N.eqb_spec (c + 32) 32), (N.eqb_spec c 32); try reflexivity; lia.
    + repeat match goal with
             | |- context [(?x <=? ?y)%N] =>
                 destruct (N.leb_spec x y)
             end; cbn; try reflexivity; lia.
  - repeat split. exact E.
Qed.

Lemma lower_single_spaced (s : str) :
  forall b,
    single_spaced b (lower (Unicode := ascii_tables) s) = single_spaced b s.
Proof.
  change (lower (Unicode := ascii_tables)) with (map Ascii_tables.lower_char).
  induction s as [|c s IH]; intros b; [reflexivity|].
  cbn [map single_spaced].
  destruct (lower_char_space c) as (-> & -> & _). now rewrite !IH.
Qed.

Lemma lower_lower_case (s : str) :
  lower_case (lower (Unicode := ascii_tables) s) = true.
Proof.
  change (lower (Unicode := ascii_tables)) with (map Ascii_tables.lower_char).
  unfold lower_case. induction s as [|c s IH]; [reflexivity|].
  cbn [map forallb]. destruct (lower_char_space c) as (_ & _ & ->). exact IH.
Qed.

Lemma lower_case_app (p q : str) :
  lower_case (p ++ q) = lower_case p && lower_case q.
Proof. unfold lower_case. apply forallb_app. Qed.

Lemma lower_case_strip (s : str) :
  lower_case s = true -> lower_case (strip s) = true.
Proof.
  intros H. destruct (strip_segment s) as (pre & post & Hs).
  rewrite Hs, !lower_case_app in H.
  apply andb_true_iff in H as [_ H]. now apply andb_true_iff in H as [H _].
Qed.

Lemma normalize_text_normal (s : str) :
  single_spaced true s = true ->
  normal (normalize_text (U := ascii_tables) (Some s)).
Proof.
  intros H. destruct s as [|c s].
  - repeat split; reflexivity.
  - cbn [normalize_text].
    change (NFD (Unicode := ascii_tables) (c :: s)) with (c :: s).
    assert (Hf : List.filter
                   (fun char : N =>
                      negb (category_Mn (Unicode := ascii_tables) char))
                   (c :: s)
                 = c :: s).
    { generalize (c :: s). intros l. induction l as [|x l IH]; [reflexivity|].
      cbn [List.filter]. change (category_Mn (Unicode := ascii_tables) x)
        with false. cbn [negb]. now rewrite IH. }
    rewrite Hf. split; [|split].
    + eapply single_spaced_strip. rewrite lower_single_spaced. exact H.
    + apply lower_case_strip, lower_lower_case.
    + apply strip_trimmed.
Qed.

Lemma cleaned_side_normal (s : str) :
  normal (normalize_text (U := ascii_tables)
            (Some (strip (collapse_spaces (U := ascii_tables) false s)))).
Proof.
  apply normalize_text_normal.
  eapply single_spaced_strip. apply collapse_spaces_single.
Qed.

Lemma joined_normal (t a : str) :
  normal t -> normal a ->
  single_spaced false (strip (t ++ lit " " ++ a)) = true
  /\ lower_case (strip (t ++ lit " " ++ a)) = true.
Proof.
  intros (Ht1 & Ht2 & Ht3) (Ha1 & Ha2 & Ha3). split.
  - apply single_spaced_weaken. apply (single_spaced_strip false).
    rewrite single_spaced_app. rewrite (single_spaced_weaken t Ht1). cbn [andb].
    destruct (trimmed_ends t Ht3) as [_ ->].
    change (lit " ") with [32%N]. cbn [app single_spaced].
    change (Ascii_tables.isspace 32) with true. cbn. exact Ha1.
  - apply lower_case_strip. rewrite !lower_case_app, Ht2, Ha2. reflexivity.
Qed.

(** X21.  With the ASCII tables, the query [clean_query] builds is
    in normal form: it has no upper-case letter, white space occurs in
    it only as single spaces, and it has none at either end. *)
Theorem clean_query_normal_form (track_name artist_name : option str) :
  let query := clean_query (U := ascii_tables) track_name artist_name in
  lower_case query = true
  /\ single_spaced false query = true
  /\ strip query = query.
Proof.
  cbn zeta. split; [|split]; [| |apply trimmed_strip_fixed, clean_query_trimmed];
    unfold clean_query;
    (destruct track_name as [t|], artist_name as [a|]; try reflexivity;
     destruct (negb (truthy t) || negb (truthy a)); [reflexivity|];
     apply joined_normal; apply cleaned_side_normal).
Qed.

Lemma lower_lstrip (s : str) :
  lstrip (map Ascii_tables.lower_char s) = map Ascii_tables.lower_char (lstrip s).
Proof.
  unfold lstrip. induction s as [|c s IH]; [reflexivity|].
  cbn [map lstrip_by].
  change (isspace (Ascii_tables.lower_char c))
    with (Ascii_tables.isspace (Ascii_tables.lower_char c)).
  change (isspace c) with (Ascii_tables.isspace c).
  destruct (lower_char_space c) as (-> & _ & _).
  destruct (Ascii_tables.isspace c); [exact IH|reflexivity].
Qed.

Lemma lower_strip (s : str) :
  strip (map Ascii_tables.lower_char s) = map Ascii_tables.lower_char (strip s).
Proof.
  unfold strip, rstrip.
  now rewrite lower_lstrip, <- map_rev, lower_lstrip, map_rev.
Qed.

Lemma lower_char_idem (c : N) :
  Ascii_tables.lower_char (Ascii_tables.lower_char c) = Ascii_tables.lower_char c.
Proof.
  destruct (lower_char_space c) as (_ & _ & H).
  unfold Ascii_tables.lower_char at 1. now rewrite H.
Qed.

(** X22.  With the ASCII tables [normalize_text] is idempotent:
    normalising a normalised text changes nothing. *)
Theorem normalize_text_idempotent (text : option str) :
  normalize_text (Some (normalize_text text)) = normalize_text text.
Proof.
  destruct text as [[|c s]|]; try reflexivity.
  cbn [normalize_text].
  change (NFD (c :: s)) with (c :: s).
  assert (Hf : forall l : str,
             List.filter (fun char : N => negb (category_Mn char)) l = l).
  { induction l as [|x l IH]; [reflexivity|].
    cbn [List.filter]. change (category_Mn x) with false. cbn [negb].
    now rewrite IH. }
  rewrite Hf. change (lower (c :: s)) with (map Ascii_tables.lower_char (c :: s)).
  set (once := strip (map Ascii_tables.lower_char (c :: s))).
  destruct once as [|y rest] eqn:E; [reflexivity|].
  change (NFD (y :: rest)) with (y :: rest). rewrite Hf.
  change (lower (y :: rest)) with (map Ascii_tables.lower_char (y :: rest)).
  rewrite <- E. unfold once.
  rewrite (lower_strip (strip _)), strip_idem, (lower_strip (c :: s)), map_map.
  apply map_ext. intros x. apply lower_char_idem.
Qed.

End NormalForm.

(* ------------------------------------------------------------------ *)
(** ** Frames, columns and file names *)

Lemma write_back_lookup (results : list Result.t) :
  forall (df : frame) (i : Z),
    write_back df results !! i
    = match last_for i results with
      | Some r => Some (cells_of r)
      | None => df !! i
      end.
Proof.
  unfold write_back, last_for.
  induction results as [|r rs IH]; intros df i; [reflexivity|].
  cbn [fold_left List.filter]. rewrite IH.
  destruct (bool_decide (Result.index r = Some i)) eqn:E.
  - apply bool_decide_eq_true in E. rewrite last_cons.
    destruct (last (List.filter _ rs)) as [r'|]; [reflexivity|].
    rewrite E. cbn beta iota. unfold cells_of. apply lookup_insert_eq.
  - apply bool_decide_eq_false in E.
    destruct (last (List.filter _ rs)) as [r'|]; [reflexivity|].
    destruct (Result.index r) as [idx|]; [|reflexivity].
    apply lookup_insert_ne. congruence.
Qed.

Lemma blank_frame_lookup (rows : list row) (i : Z) :
  blank_frame rows !! i
  = if bool_decide (i ∈ map row_index rows)
    then Some (lit "", lit "", NotFound) else None.
Proof.
  unfold blank_frame.
  assert (H : forall (df : frame),
             fold_left (fun (df : frame) r =>
                          <[row_index r := (lit "", lit "", NotFound)]> df)
                       rows df !! i
             = if bool_decide (i ∈ map row_index rows)
               then Some (lit "", lit "", NotFound) else df !! i).
  { induction rows as [|r rows IH]; intros df; cbn [fold_left map].
    - rewrite bool_decide_eq_false_2; [reflexivity|]. apply not_elem_of_nil.
    - rewrite IH. destruct (bool_decide (i ∈ map row_index rows)) eqn:E.
      + apply bool_decide_eq_true in E.
        rewrite bool_decide_eq_true_2; [reflexivity|]. now right.
      + apply bool_decide_eq_false in E.
        destruct (decide (i = row_index r)) as [->|Hne].
        * etrans; [apply lookup_insert_eq|].
          rewrite bool_decide_eq_true_2; [reflexivity|]. now left.
        * etrans; [apply lookup_insert_ne; congruence|].
          rewrite bool_decide_eq_false_2; [reflexivity|].
          intros Hin. apply elem_of_cons in Hin as [Hin|Hin]; auto. }
  rewrite H. destruct (bool_decide (i ∈ map row_index rows)); [reflexivity|].
  apply lookup_empty.
Qed.

(** X23.  The frame [run_playlist] writes: a row shows the cells of
    the last entry of [results] that carries its index; a row of the
    input with no entry shows two empty links and [not_found]. *)
Theorem write_back_last_entry_wins (rows : list row)
        (results : list Result.t) (i : Z) :
  write_back (blank_frame rows) results !! i
  = match last_for i results with
    | Some r => Some (cells_of r)
    | None =>
        if bool_decide (i ∈ map row_index rows)
        then Some (lit "", lit "", NotFound) else None
    end.
Proof.
  rewrite write_back_lookup.
  destruct (last_for i results) as [r|]; [reflexivity|].
  apply blank_frame_lookup.
Qed.

(** X24.  The columns [_detect_and_map_columns] names are columns of
    the frame; the Exportify pair is taken when both pairs are there,
    and [None] means that neither pair is complete. *)
Theorem detect_and_map_columns_sound (columns : list str) :
  let exportify := (lit "Track Name", lit "Artist Name(s)") in
  let manual := (lit "M" ++ [250%N] ++ lit "sica", lit "Artista") in
  let complete (names : str * str) := names.1 ∈ columns /\ names.2 ∈ columns in
  match _detect_and_map_columns columns with
  | Some names =>
      complete names
      /\ (names = exportify \/ (names = manual /\ ~ complete exportify))
  | None => ~ complete exportify /\ ~ complete manual
  end.
Proof.
  cbn zeta. unfold _detect_and_map_columns.
  destruct (bool_decide (lit "Track Name" ∈ columns)) eqn:E1;
    [apply bool_decide_eq_true in E1|apply bool_decide_eq_false in E1];
    (destruct (bool_decide (lit "Artist Name(s)" ∈ columns)) eqn:E2;
     [apply bool_decide_eq_true in E2|apply bool_decide_eq_false in E2]);
    cbn [andb fst snd]; [split; [split|]; auto|..];
    (destruct (bool_decide (lit "M" ++ [250%N] ++ lit "sica" ∈ columns)) eqn:E3;
     [apply bool_decide_eq_true in E3|apply bool_decide_eq_false in E3];
     (destruct (bool_decide (lit "Artista" ∈ columns)) eqn:E4;
      [apply bool_decide_eq_true in E4|apply bool_decide_eq_false in E4]);
     cbn [andb fst snd]; try tauto;
     (split; [split; assumption|right; split; [reflexivity|tauto]])).
Qed.

Lemma rsplit_once_spec (sep : N) (s : str) :
  match App.rsplit_once sep s with
  | Some (before, after) => s = before ++ sep :: after /\ sep ∉ after
  | None => sep ∉ s
  end.
Proof.
  induction s as [|c s IH]; cbn [App.rsplit_once]; [apply not_elem_of_nil|].
  destruct (App.rsplit_once sep s) as [[before after]|].
  - destruct IH as [-> Hnot]. split; [reflexivity|exact Hnot].
  - destruct (N.eqb c sep) eqn:E.
    + apply N.eqb_eq in E. subst c. split; [reflexivity|exact IH].
    + apply N.eqb_neq in E. intros Hin.
      apply elem_of_cons in Hin as [Hin|Hin]; [congruence|auto].
Qed.

Lemma contains_char (c : N) (s : str) : contains [c] s = true <-> c ∈ s.
Proof.
  induction s as [|x s IH]; cbn [contains startswith].
  - split; [discriminate|]. intros H. inversion H.
  - rewrite orb_true_iff, andb_true_r, N.eqb_eq, IH. split.
    + intros [->|H]; [now left|now right].
    + intros H. apply elem_of_cons in H as [->|H]; auto.
Qed.

Lemma split_at_last_unique (sep : N) (b1 e1 b2 e2 : str) :
  b1 ++ sep :: e1 = b2 ++ sep :: e2 -> sep ∉ e1 -> sep ∉ e2 ->
  b1 = b2 /\ e1 = e2.
Proof.
  revert b2. induction b1 as [|x b1 IH]; intros b2 H H1 H2.
  - destruct b2 as [|y b2]; cbn [app] in H.
    + injection H as ->. auto.
    + injection H as <- ->. destruct H1.
      apply elem_of_app. right. now left.
  - destruct b2 as [|y b2]; cbn [app] in H.
    + injection H as -> <-. destruct H2.
      apply elem_of_app. right. now left.
    + injection H as -> H. destruct (IH b2 H H1 H2) as [-> ->]. auto.
Qed.

(** X25.  [allowed_file] never fails, and accepts exactly the names
    whose text after the last dot is [csv] in lower case. *)
Theorem allowed_file_extension {U : Unicode} (filename : str) :
  (exists answer, App.allowed_file filename = Some answer)
  /\ (App.allowed_file filename = Some true
      <-> exists base ext,
            filename = base ++ lit "." ++ ext
            /\ (46%N ∉ ext)
            /\ lower ext = lit "csv").
Proof.
  unfold App.allowed_file, App.rsplit.
  change (lit ".") with [46%N].
  pose proof (rsplit_once_spec 46 filename) as Hsplit.
  pose proof (contains_char 46 filename) as Hdot.
  destruct (contains [46%N] filename) eqn:Ec.
  - assert (Hin : 46%N ∈ filename) by now apply Hdot.
    destruct (App.rsplit_once 46 filename) as [[before after]|];
      [|now destruct Hsplit].
    destruct Hsplit as [-> Hnot]. cbn. split; [eauto|]. split.
    + intros [= H]. apply bool_decide_eq_true in H. exists before, after. auto.
    + intros (base & ext & Heq & Hext & Hlow).
      destruct (split_at_last_unique 46 before after base ext Heq Hnot Hext)
        as [_ ->].
      now rewrite bool_decide_eq_true_2.
  - split; [eauto|]. split; [discriminate|].
    intros (base & ext & -> & _). 
    assert (Hin : 46%N ∈ base ++ [46%N] ++ ext).
    { apply elem_of_app. right. now left. }
    apply Hdot in Hin. discriminate.
Qed.

(* ------------------------------------------------------------------ *)
(** ** The theorems at work *)


(** X4 at work on a page that holds one identifier. *)
Lemma youtube_scraper_search_returns_witness :
  (forall (x : Q) (w : unit), (0 < x)%Q -> fst (Scripted.no_sleep x w) = Ok tt)
  /\ (exists found,
         fst (YouTubeScraper.search id Samples.loads Samples.get_page
                Scripted.no_sleep 10 (lit "song") 2 tt) = Ok found)
  /\ (lit "song" = [] \/ (2 <= 0)%Z ->
      YouTubeScraper.search id Samples.loads Samples.get_page
        Scripted.no_sleep 10 (lit "song") 2 tt = (Ok None, tt)).
Proof.
  assert (H : forall (x : Q) (w : unit),
             (0 < x)%Q -> fst (Scripted.no_sleep x w) = Ok tt)
    by reflexivity.
  split; [exact H|].
  exact (youtube_scraper_search_returns id Samples.loads Samples.get_page
           Scripted.no_sleep 10 (lit "song") 2 tt H).
Defined.

(** X5 at work: the identifier of the page is well formed, and its
    URL passes. *)
Lemma youtube_scraper_url_passes_unless_newline_witness :
  fst (YouTubeScraper.search id Samples.loads Samples.get_page
         Scripted.no_sleep 10 (lit "song") 2 tt)
  = Ok (Some (watch_prefix ++ Samples.video_id))
  /\ exists video_id,
      watch_prefix ++ Samples.video_id = watch_prefix ++ video_id
      /\ length video_id = 11
      /\ ((forallb YouTubeScraper.id_char video_id = true
           /\ is_valid_youtube_url (Some (watch_prefix ++ Samples.video_id))
              = true)
          \/ (exists body, video_id = body ++ [10%N]
                           /\ forallb YouTubeScraper.id_char body = true
                           /\ is_valid_youtube_url
                                (Some (watch_prefix ++ Samples.video_id))
                              = false)).
Proof.
  assert (H : fst (YouTubeScraper.search id Samples.loads Samples.get_page
                     Scripted.no_sleep 10 (lit "song") 2 tt)
              = Ok (Some (watch_prefix ++ Samples.video_id)))
    by (vm_compute; reflexivity).
  split; [exact H|].
  exact (youtube_scraper_url_passes_unless_newline id Samples.loads
           Samples.get_page Scripted.no_sleep 10 (lit "song") 2 tt _ H).
Defined.

(** X7 at work on the same page. *)
Lemma extract_yt_initial_data_segment_witness :
  YouTubeScraper._extract_yt_initial_data Samples.loads Samples.page_html
  = Some (YouTubeScraper.JObject
            [(lit "videoId", YouTubeScraper.JString Samples.video_id)])
  /\ exists lhs group,
      (lhs = lit "var ytInitialData = "
       \/ lhs = lit "window[" ++ YouTubeScraper.quote ++ lit "ytInitialData"
                ++ YouTubeScraper.quote ++ lit "] = ")
      /\ assigned_object lhs Samples.page_html group
      /\ Samples.loads group
         = Ok (YouTubeScraper.JObject
                 [(lit "videoId", YouTubeScraper.JString Samples.video_id)]).
Proof.
  assert (H : YouTubeScraper._extract_yt_initial_data Samples.loads
                Samples.page_html
              = Some (YouTubeScraper.JObject
                        [(lit "videoId",
                          YouTubeScraper.JString Samples.video_id)]))
    by (vm_compute; reflexivity).
  split; [exact H|].
  exact (extract_yt_initial_data_segment Samples.loads Samples.page_html _ H).
Defined.

(** X9 at work: the remix comes first and scores lower. *)
Lemma select_best_link_first_of_highest_witness :
  Forall (fun l => exists title t a,
              FourSharedScraper.relevance l
              = FourSharedScraper._calculate_relevance (U := ascii_tables)
                  title t a)
         [Candidates.remix; Candidates.plain]
  /\ match FourSharedScraper._select_best_link
             [Candidates.remix; Candidates.plain]
             Candidates.track Candidates.artist with
     | Some best_link =>
         exists pre best post,
           [Candidates.remix; Candidates.plain] = pre ++ best :: post
           /\ best_link = FourSharedScraper.url best
           /\ first_of_highest pre best post
     | None => [Candidates.remix; Candidates.plain] = []
     end.
Proof.
  assert (H : Forall (fun l => exists title t a,
                FourSharedScraper.relevance l
                = FourSharedScraper._calculate_relevance (U := ascii_tables)
                    title t a)
                [Candidates.remix; Candidates.plain]).
  { constructor; [|constructor; [|constructor]].
    - exists (lit "Artist - Song (Remix).mp3"), Candidates.track, Candidates.artist.
      reflexivity.
    - exists (lit "Artist - Song.mp3"), Candidates.track, Candidates.artist.
      reflexivity. }
  split; [exact H|].
  exact (select_best_link_first_of_highest (U := ascii_tables)
           [Candidates.remix; Candidates.plain]
           Candidates.track Candidates.artist H).
Defined.

(** X10 at work on a results page with two items: the folder link is
    passed over and the file link is chosen over the remix. *)
Lemma fourshared_search_sound_witness :
  fst (Samples.fourshared_search (lit "song artist") tt)
  = Ok (Some (lit "https://www.4shared.com/file/1"))
  /\ lit "https://www.4shared.com/file/1" <> []
  /\ chosen_from_page (U := ascii_tables) Samples.select Samples.select_one
       Samples.item_find_all Samples.soup_find_all id Samples.get_results
       Samples.parse 10 (lit "song artist") Candidates.track Candidates.artist
       (lit "https://www.4shared.com/file/1").
Proof.
  assert (H : fst (Samples.fourshared_search (lit "song artist") tt)
              = Ok (Some (lit "https://www.4shared.com/file/1")))
    by (vm_compute; reflexivity).
  split; [exact H|].
  exact (fourshared_search_sound (U := ascii_tables) Samples.select
           Samples.select_one Samples.item_find_all Samples.soup_find_all
           id Samples.get_results Samples.parse Scripted.no_sleep
           10 (lit "song artist") Candidates.track Candidates.artist 2 tt _ H).
Defined.

(** X11 at work on the same page. *)
Lemma fourshared_search_returns_witness :
  (forall (x : Q) (w : unit), (0 < x)%Q -> fst (Scripted.no_sleep x w) = Ok tt)
  /\ (exists found,
         fst (Samples.fourshared_search (lit "song artist") tt) = Ok found)
  /\ (lit "song artist" = [] \/ (2 <= 0)%Z ->
      Samples.fourshared_search (lit "song artist") tt = (Ok None, tt)).
Proof.
  assert (H : forall (x : Q) (w : unit),
             (0 < x)%Q -> fst (Scripted.no_sleep x w) = Ok tt)
    by reflexivity.
  split; [exact H|].
  exact (fourshared_search_returns (U := ascii_tables) Samples.select
           Samples.select_one Samples.item_find_all Samples.soup_find_all
           id Samples.get_results Samples.parse Scripted.no_sleep
           10 (lit "song artist") Candidates.track Candidates.artist 2 tt H).
Defined.

(** X13 at work: the entry without a title hides the song after it. *)
Lemma catalog_search_stops_at_malformed_witness :
  truthy (lit "song") = true
  /\ Samples.provider (lit "song") (Some (lit "songs")) 5 tt
     = (Ok ([Entries.a_playlist] ++ Samples.untitled :: [Entries.interview_song]),
        tt)
  /\ Forall (fun r => YouTubeMusicSearcher._is_valid_music_result
                        (U := ascii_tables) r = Ok false)
            [Entries.a_playlist]
  /\ YouTubeMusicSearcher.field_truthy
       (YouTubeMusicSearcher.videoId Samples.untitled) = true
  /\ textual Samples.untitled = false
  /\ YouTubeMusicSearcher.search (U := ascii_tables) Samples.provider
       true (lit "song") 5 tt = (Ok None, tt).
Proof.
  assert (H1 : truthy (lit "song") = true) by reflexivity.
  assert (H2 : Samples.provider (lit "song") (Some (lit "songs")) 5 tt
               = (Ok ([Entries.a_playlist]
                      ++ Samples.untitled :: [Entries.interview_song]), tt))
    by reflexivity.
  assert (H3 : Forall (fun r => YouTubeMusicSearcher._is_valid_music_result
                                  (U := ascii_tables) r = Ok false)
                      [Entries.a_playlist])
    by (constructor; [vm_compute; reflexivity|constructor]).
  assert (H4 : YouTubeMusicSearcher.field_truthy
                 (YouTubeMusicSearcher.videoId Samples.untitled) = true)
    by reflexivity.
  assert (H5 : textual Samples.untitled = false) by reflexivity.
  repeat (split; [assumption|]).
  exact (catalog_search_stops_at_malformed (U := ascii_tables) Samples.provider
           (lit "song") 5 tt tt [Entries.a_playlist] Samples.untitled
           [Entries.interview_song] H1 H2 H3 H4 H5).
Defined.

(** X14 at work on [Scripted.third_time_lucky]. *)
Lemma search_with_retries_bounded_witness :
  uniform_in_range (W := nat) Scripted.lowest
  /\ (0 <= Bot.delay (bot (Scripted.store0 0)))%Q
  /\ (1 <= Bot.max_retries (bot (Scripted.store0 0)))%Z
  /\ exists new,
      trace (snd (_search_with_retries (U := ascii_tables) Scripted.lowest
                    (Scripted.third_time_lucky (lit "url"))
                    (Scripted.store0 0)))
      = trace (Scripted.store0 0) ++ new
      /\ 1 <= attempts_of new
         <= Z.to_nat (Bot.max_retries (bot (Scripted.store0 0)))
      /\ (0 <= slept new
          <= inject_Z (Bot.max_retries (bot (Scripted.store0 0)) - 1)
             * (10 + Bot.delay (bot (Scripted.store0 0))
                     * inject_Z (Bot.max_retries (bot (Scripted.store0 0)))))%Q.
Proof.
  assert (H1 : uniform_in_range (W := nat) Scripted.lowest).
  { intros a b w Hab. split; [apply Qle_refl | exact Hab]. }
  assert (H2 : (0 <= Bot.delay (bot (Scripted.store0 0)))%Q) by discriminate.
  assert (H3 : (1 <= Bot.max_retries (bot (Scripted.store0 0)))%Z) by discriminate.
  split; [exact H1|]. split; [exact H2|]. split; [exact H3|].
  exact (search_with_retries_bounded (U := ascii_tables) Scripted.lowest
           (Scripted.third_time_lucky (lit "url")) (Scripted.store0 0)
           H1 H2 H3).
Defined.

(** X16 at work on a track that is [None]. *)
Lemma search_single_track_without_variants_witness :
  (forall v vs,
      generate_search_variants (U := ascii_tables) None (Some (lit "Artist"))
      <> Ok (v :: vs))
  /\ search_single_track (U := ascii_tables) Scripted.lowest false
       Scripted.nothing1 Scripted.scraper_finds Scripted.nothing3
       None (Some (lit "Artist")) Samples.start
     = (Ok (Result.set_status (blank_result None (Some (lit "Artist"))) Error),
        set_bot Samples.start
          (Bot.set_stats (bot Samples.start)
             (Stats.bump Stats.Errors
                (Stats.bump_total (Bot.stats (bot Samples.start)))))).
Proof.
  assert (H : forall v vs,
             generate_search_variants (U := ascii_tables) None
               (Some (lit "Artist")) <> Ok (v :: vs))
    by (intros v vs; discriminate).
  split; [exact H|].
  exact (search_single_track_without_variants (U := ascii_tables)
           Scripted.lowest false Scripted.nothing1 Scripted.scraper_finds
           Scripted.nothing3 None (Some (lit "Artist")) Samples.start H).
Defined.

